(** * Crop-yield backend: a shallow embedding of [src/app.py]

    The two JSON handlers of the Flask application, [predict] (rule-based
    crop yield) and [insights] (soil and irrigation figures derived from a
    weather payload), are embedded as Rocq functions and the statements of
    the specification are proved about them.

    - Python [float] is IEEE 754 binary64: Rocq's primitive [float], whose
      operations are specified by [SpecFloat] ([Prim2SF], [SF64add], ...).
    - Python [int] is [Z]; a Python number is a [num], either of the two,
      with Python's coercion rules written out.
    - An uncaught exception is the [inr] of a sum; a handler returns an
      HTTP response or raises.
    - The outbound weather request is an event of a small interaction type.
    - Library functions whose full behaviour is outside the repository
      ([str.lower], [str.capitalize], [float] on strings, [strptime]) are the
      fields of the class [PyRuntime]; [ascii_runtime] implements them on
      ASCII input so that every definition can be run. *)

From Stdlib Require Import ZArith QArith Qpower Floats List String Ascii Bool Lia Lqa.
Import ListNotations.

Set Warnings "-inexact-float,-register-all".

Local Open Scope Z_scope.

(* ================================================================== *)
(** * Part I: definitions *)
(* ================================================================== *)

(** ** Exceptions and results *)

Inductive exn : Type :=
| TypeError | ValueError | KeyError | AttributeError
| OverflowError | ZeroDivisionError | RequestError.

(** [inl a]: the computation returned [a]; [inr e]: it raised [e]. *)
Definition res (A : Type) : Type := (A + exn)%type.

Definition ret {A : Type} (a : A) : res A := inl a.

Definition raise {A : Type} (e : exn) : res A := inr e.

Definition bind {A B : Type} (m : res A) (k : A -> res B) : res B :=
  match m with
  | inl a => k a
  | inr e => inr e
  end.

Notation "x <- m ;; k" := (bind m (fun x => k))
  (at level 61, m at next level, right associativity).

(** ** JSON values, as [request.get_json()] and [Response.json()] return them *)

Inductive json : Type :=
| JNull
| JBool (b : bool)
| JInt (z : Z)
| JFloat (f : float)
| JStr (s : string)
| JArr (l : list json)
| JObj (kvs : list (string * json)).

(** Python truthiness ([if v:], [not v], [v or d]). *)
Definition truthy (v : json) : bool :=
  match v with
  | JNull => false
  | JBool b => b
  | JInt z => negb (z =? 0)
  | JFloat f => negb (f =? 0)%float
  | JStr s => negb (String.eqb s "")
  | JArr l => match l with [] => false | _ => true end
  | JObj kvs => match kvs with [] => false | _ => true end
  end.

(** The binding of key [k] in a dict given by its items. *)
Fixpoint lookup (k : string) (kvs : list (string * json)) : option json :=
  match kvs with
  | [] => None
  | (k', v) :: rest => if String.eqb k k' then Some v else lookup k rest
  end.

(** The dict without key [k]. *)
Fixpoint remove_key (k : string) (kvs : list (string * json)) : list (string * json) :=
  match kvs with
  | [] => []
  | (k', v) :: rest =>
      if String.eqb k k' then remove_key k rest else (k', v) :: remove_key k rest
  end.

(** [d.get(k, default)]: only a dict has the method. *)
Definition dict_get (d : json) (k : string) (default : json) : res json :=
  match d with
  | JObj kvs => ret (match lookup k kvs with Some v => v | None => default end)
  | _ => raise AttributeError
  end.

(** [d[k]] with a string key. *)
Definition dict_item (d : json) (k : string) : res json :=
  match d with
  | JObj kvs => match lookup k kvs with Some v => ret v | None => raise KeyError end
  | _ => raise TypeError
  end.

(** ** Binary64 helpers on [spec_float] *)

(** The value [m * 2^e] of a dyadic number, as a rational. *)
Definition pow2 (e : Z) : Q := (2 ^ e)%Q.

Definition dy (m e : Z) : Q := (inject_Z m * pow2 e)%Q.

(** The real value of a float (0 for the non-finite ones). *)
Definition SF2Q (x : spec_float) : Q :=
  match x with
  | S754_finite s m e => dy (cond_Zopp s (Zpos m)) e
  | _ => 0%Q
  end.

Definition F2Q (f : float) : Q := SF2Q (Prim2SF f).

Definition sf_finite (x : spec_float) : bool :=
  match x with
  | S754_zero _ | S754_finite _ _ _ => true
  | _ => false
  end.

(** An integer as an (unnormalised) dyadic with exponent 0. *)
Definition Z2SF (z : Z) : spec_float :=
  match z with
  | Z0 => S754_zero false
  | Zpos p => S754_finite false p 0
  | Zneg p => S754_finite true p 0
  end.

(** C [fmod]: the exact remainder of [x / y] truncated toward zero, with the
    sign of [x]. *)
Definition sf_fmod (x y : spec_float) : spec_float :=
  match x, y with
  | S754_nan, _ | _, S754_nan => S754_nan
  | S754_infinity _, _ => S754_nan
  | _, S754_zero _ => S754_nan
  | S754_zero _, _ => x
  | S754_finite _ _ _, S754_infinity _ => x
  | S754_finite sx mx ex, S754_finite _ my ey =>
      let e := Z.min ex ey in
      let a := Zpos mx * 2 ^ (ex - e) in
      let b := Zpos my * 2 ^ (ey - e) in
      binary_normalize prec emax (cond_Zopp sx (a mod b)) e sx
  end.

(** The integer nearest to [n * 2^e], ties to even ([0 <= n]). *)
Definition round_half_even (n e : Z) : Z :=
  if 0 <=? e then n * 2 ^ e
  else
    let d := 2 ^ (- e) in
    let q := n / d in
    match (2 * (n mod d) ?= d) with
    | Lt => q
    | Gt => q + 1
    | Eq => if Z.even q then q else q + 1
    end.

(** [round(x, nd)] of a float for [0 <= nd]: the decimal with [nd] digits
    nearest to [x] (ties to even, what [dtoa] mode 3 produces), converted
    back to the nearest float ([strtod]). *)
Definition sf_round (x : spec_float) (nd : Z) : spec_float :=
  match x with
  | S754_finite s m e =>
      match round_half_even (Zpos m * 10 ^ nd) e with
      | Zpos q => SFdiv prec emax (S754_finite s q 0) (Z2SF (10 ^ nd))
      | _ => S754_zero s
      end
  | _ => x
  end.

(** ** Python numbers *)

Inductive num : Type :=
| NInt (z : Z)
| NFloat (f : float).

(** [float(z)] for an int: correctly rounded, [OverflowError] out of range. *)
Definition float_of_int (z : Z) : res float :=
  match binary_normalize prec emax z 0 false with
  | S754_infinity _ => raise OverflowError
  | r => ret (SF2Prim r)
  end.

Definition to_float (a : num) : res float :=
  match a with
  | NInt z => float_of_int z
  | NFloat f => ret f
  end.

(** Binary arithmetic: int with int stays int, otherwise both operands are
    converted to float. *)
Definition py_arith (fi : Z -> Z -> Z) (ff : float -> float -> float) (a b : num) : res num :=
  match a, b with
  | NInt x, NInt y => ret (NInt (fi x y))
  | _, _ => x <- to_float a ;; y <- to_float b ;; ret (NFloat (ff x y))
  end.

Definition py_add : num -> num -> res num := py_arith Z.add PrimFloat.add.

Definition py_sub : num -> num -> res num := py_arith Z.sub PrimFloat.sub.

Definition py_mul : num -> num -> res num := py_arith Z.mul PrimFloat.mul.

(** [a / b]: the quotient of two ints is correctly rounded. *)
Definition py_truediv (a b : num) : res num :=
  match a, b with
  | NInt x, NInt y =>
      if y =? 0 then raise ZeroDivisionError
      else match SFdiv prec emax (Z2SF x) (Z2SF y) with
           | S754_infinity _ => raise OverflowError
           | r => ret (NFloat (SF2Prim r))
           end
  | _, _ =>
      x <- to_float a ;; y <- to_float b ;;
      if (y =? 0)%float then raise ZeroDivisionError else ret (NFloat (x / y))
  end.

Definition c_fmod (x y : float) : float := SF2Prim (sf_fmod (Prim2SF x) (Prim2SF y)).

Definition copysign (x y : float) : float :=
  if get_sign y then (- abs x)%float else abs x.

(** CPython's [float_rem]: [fmod], then the sign of the divisor. *)
Definition float_rem (vx wx : float) : res float :=
  if (wx =? 0)%float then raise ZeroDivisionError
  else
    let r := c_fmod vx wx in
    if negb (r =? 0)%float then
      ret (if xorb (wx <? 0)%float (r <? 0)%float then (r + wx)%float else r)
    else ret (copysign 0 wx).

(** [a % b]. *)
Definition py_mod (a b : num) : res num :=
  match a, b with
  | NInt x, NInt y => if y =? 0 then raise ZeroDivisionError else ret (NInt (x mod y))
  | _, _ => x <- to_float a ;; y <- to_float b ;; r <- float_rem x y ;; ret (NFloat r)
  end.

(** [int(a)]: truncation toward zero. *)
Definition py_int (a : num) : res Z :=
  match a with
  | NInt z => ret z
  | NFloat f =>
      match Prim2SF f with
      | S754_nan => raise ValueError
      | S754_infinity _ => raise OverflowError
      | S754_zero _ => ret 0
      | S754_finite s m e => ret (cond_Zopp s (Z.shiftl (Zpos m) e))
      end
  end.

(** [round(a, nd)] for [0 <= nd]: an int is returned unchanged. *)
Definition py_round (a : num) (nd : Z) : num :=
  match a with
  | NInt z => NInt z
  | NFloat f => NFloat (SF2Prim (sf_round (Prim2SF f) nd))
  end.

(** Comparison of two numbers; an int and a float are compared exactly. *)
Definition float_int_compare (f : float) (z : Z) : option comparison :=
  match Prim2SF f with
  | S754_nan => None
  | S754_infinity s => Some (if s then Lt else Gt)
  | x => Some (SF2Q x ?= inject_Z z)%Q
  end.

Definition py_compare (a b : num) : option comparison :=
  match a, b with
  | NInt x, NInt y => Some (x ?= y)
  | NFloat f, NFloat g => SFcompare (Prim2SF f) (Prim2SF g)
  | NFloat f, NInt z => float_int_compare f z
  | NInt z, NFloat f => option_map CompOpp (float_int_compare f z)
  end.

Definition py_lt (a b : num) : bool :=
  match py_compare a b with Some Lt => true | _ => false end.

Definition py_le (a b : num) : bool :=
  match py_compare a b with Some Lt | Some Eq => true | _ => false end.

Definition py_gt (a b : num) : bool := py_lt b a.

Definition py_eq (a b : num) : bool :=
  match py_compare a b with Some Eq => true | _ => false end.

(** [math.isfinite]. *)
Definition num_finite (a : num) : bool :=
  match a with
  | NInt _ => true
  | NFloat f => is_finite f
  end.

(** A JSON value used as an operand of arithmetic. *)
Definition as_num (v : json) : res num :=
  match v with
  | JInt z => ret (NInt z)
  | JFloat f => ret (NFloat f)
  | JBool b => ret (NInt (Z.b2z b))
  | _ => raise TypeError
  end.

Definition num_json (a : num) : json :=
  match a with
  | NInt z => JInt z
  | NFloat f => JFloat f
  end.

(** ** Dates and the library functions the handlers call *)

(** A [datetime]: the proleptic Gregorian ordinal of its day and the
    microseconds elapsed since midnight. *)
Record datetime : Type := { dt_day : Z; dt_us : Z }.

Definition us_per_day : Z := 86400000000.

(** [(a - b).days]: a [timedelta] is normalised so that its seconds and
    microseconds are non-negative, hence the floor. *)
Definition timedelta_days (a b : datetime) : Z :=
  ((dt_day a - dt_day b) * us_per_day + (dt_us a - dt_us b)) / us_per_day.

(** What the Python runtime provides: [None] stands for [ValueError]. *)
Class PyRuntime : Type := {
  str_lower : string -> string;
  str_capitalize : string -> string;
  float_of_str : string -> option float;
  strptime_dmy : string -> option datetime;
  (** the empty string has no letter to change *)
  str_lower_empty : str_lower EmptyString = EmptyString;
  (** the empty string is no date *)
  strptime_empty : strptime_dmy EmptyString = None
}.

(** [tbl.get(k, d)] for a dict literal. *)
Fixpoint table_get {A : Type} (tbl : list (string * A)) (k : string) (d : A) : A :=
  match tbl with
  | [] => d
  | (k', v) :: rest => if String.eqb k k' then v else table_get rest k d
  end.

Record response : Type := { status : Z; body : json }.

Record yield_result : Type := {
  yr_predicted_yield : num;
  yr_confidence : Z;
  yr_tips : list string
}.

(** The request a handler sends out before it can answer. *)
Inductive io (A : Type) : Type :=
| Done (a : A)
| FetchWeather (lat lon : json) (k : res json -> io A).

Arguments Done {A} a.
Arguments FetchWeather {A} lat lon k.

(** Running a handler against a weather provider: the answer and the
    requests sent, oldest first. *)
Fixpoint run_io {A : Type} (provider : json -> json -> res json) (p : io A) : A * list (json * json) :=
  match p with
  | Done a => (a, [])
  | FetchWeather lat lon k =>
      let '(a, calls) := run_io provider (k (provider lat lon)) in
      (a, (lat, lon) :: calls)
  end.

Section Handlers.
Context {rt : PyRuntime}.

(** [float(v)] *)
Definition py_float (v : json) : res float :=
  match v with
  | JInt z => float_of_int z
  | JFloat f => ret f
  | JBool b => ret (if b then 1 else 0)%float
  | JStr s => match float_of_str s with Some f => ret f | None => raise ValueError end
  | JNull | JArr _ | JObj _ => raise TypeError
  end.

(** [v.lower()] *)
Definition lower (v : json) : res string :=
  match v with
  | JStr s => ret (str_lower s)
  | _ => raise AttributeError
  end.

(** [datetime.strptime(v, "%d-%m-%Y")] *)
Definition strptime (v : json) : res datetime :=
  match v with
  | JStr s => match strptime_dmy s with Some d => ret d | None => raise ValueError end
  | _ => raise TypeError
  end.

(** *** [/predict] *)

Definition base_yield : list (string * num) :=
  [("wheat", NInt 4); ("rice", NInt 5); ("maize", NFloat 4.5)]%string.

Definition ideal_temp : list (string * (Z * Z)) :=
  [("wheat", (18, 25)); ("rice", (22, 30)); ("maize", (20, 28))]%string.

Definition optimal_rainfall : list (string * (Z * Z)) :=
  [("wheat", (40, 60)); ("rice", (80, 120)); ("maize", (50, 90))]%string.

(** Step 2 *)
Definition adjust_temperature (crop : string) (temp : float) (yield_estimate : num) : res num :=
  let '(temp_min, temp_max) := table_get ideal_temp crop (20, 30) in
  if py_lt (NFloat temp) (NInt temp_min) then
    d <- py_sub (NInt temp_min) (NFloat temp) ;;
    p <- py_mul d (NFloat 0.2) ;;
    py_sub yield_estimate p
  else if py_gt (NFloat temp) (NInt temp_max) then
    d <- py_sub (NFloat temp) (NInt temp_max) ;;
    p <- py_mul d (NFloat 0.2) ;;
    py_sub yield_estimate p
  else ret yield_estimate.

(** Step 3 *)
Definition adjust_rainfall (crop : string) (rainfall : float) (yield_estimate : num) : res num :=
  let '(rain_min, rain_max) := table_get optimal_rainfall crop (50, 100) in
  if py_lt (NFloat rainfall) (NInt rain_min) then
    d <- py_sub (NInt rain_min) (NFloat rainfall) ;;
    p <- py_mul d (NFloat 0.1) ;;
    py_sub yield_estimate p
  else if py_gt (NFloat rainfall) (NInt rain_max) then
    d <- py_sub (NFloat rainfall) (NInt rain_max) ;;
    p <- py_mul d (NFloat 0.1) ;;
    py_sub yield_estimate p
  else ret yield_estimate.

(** Steps 1 to 3: the estimate before the planting date is looked at. *)
Definition weather_adjusted (crop : string) (temp rainfall : float) : res num :=
  let yield_estimate := table_get base_yield crop (NFloat 3.5) in
  yield_estimate <- adjust_temperature crop temp yield_estimate ;;
  adjust_rainfall crop rainfall yield_estimate.

(** The body of the [try]: it raises when the date does not parse. *)
Definition planting_try (planting_date_str : json) (now : datetime) (yield_estimate : num) : res num :=
  planting_date <- strptime planting_date_str ;;
  let days_since_planting := timedelta_days now planting_date in
  if days_since_planting <? 60 then py_mul yield_estimate (NFloat 0.8)
  else if 180 <? days_since_planting then py_mul yield_estimate (NFloat 0.9)
  else ret yield_estimate.

(** Step 4: [except: pass] keeps the estimate as it was. *)
Definition adjust_planting (planting_date_str : json) (now : datetime) (yield_estimate : num) : num :=
  if truthy planting_date_str then
    match planting_try planting_date_str now yield_estimate with
    | inl y => y
    | inr _ => yield_estimate
    end
  else yield_estimate.

(** Step 5, the inner expression [int(80 + (yield_estimate % 5))] *)
Definition confidence_unclamped (yield_estimate : num) : res Z :=
  r <- py_mod yield_estimate (NInt 5) ;;
  s <- py_add (NInt 80) r ;;
  py_int s.

(** Step 5 *)
Definition confidence (yield_estimate : num) : res Z :=
  i <- confidence_unclamped yield_estimate ;;
  ret (Z.min (Z.max i 50) 95).

(** Lines 40 to 95 of [predict], on the converted fields of the request. *)
Definition predict_core (crop : string) (temp rainfall : float) (planting_date_str : json)
    (now : datetime) : res yield_result :=
  yield_estimate <- weather_adjusted crop temp rainfall ;;
  let yield_estimate := adjust_planting planting_date_str now yield_estimate in
  c <- confidence yield_estimate ;;
  ret {| yr_predicted_yield := py_round yield_estimate 2;
         yr_confidence := c;
         yr_tips := [("Ideal soil for " ++ str_capitalize crop ++ " detected 🌱")%string;
                     "Weather conditions suggest moderate growth potential"%string] |}.

Definition jsonify_yield (r : yield_result) : response :=
  {| status := 200;
     body := JObj [("predicted_yield"%string, num_json (yr_predicted_yield r));
                   ("confidence"%string, JInt (yr_confidence r));
                   ("tips"%string, JArr (map JStr (yr_tips r)))] |}.

(** The handler of [POST /predict]; [now] is what [datetime.now()] returns. *)
Definition predict (request : json) (now : datetime) : res response :=
  let data := if truthy request then request else JObj [] in
  c <- dict_get data "crop_type" (JStr "") ;;
  crop <- lower c ;;
  t <- dict_get data "temperature" (JInt 25) ;;
  temp <- py_float t ;;
  r <- dict_get data "rainfall" (JInt 50) ;;
  rainfall <- py_float r ;;
  planting_date_str <- dict_get data "planting_date" JNull ;;
  result <- predict_core crop temp rainfall planting_date_str now ;;
  ret (jsonify_yield result).

(** *** [/insights] *)

(** The irrigation tier: status, efficiency, index. *)
Definition irrigation (rainfall : num) : string * Z * float :=
  if py_gt rainfall (NInt 30) then ("Good"%string, 90, 0.85%float)
  else if py_lt (NInt 10) rainfall && py_le rainfall (NInt 30) then ("Moderate"%string, 75, 0.7%float)
  else ("Low"%string, 60, 0.55%float).

(** Lines 115 to 152: the insights computed from the provider's payload. *)
Definition derive (weather_data : json) : res json :=
  rain <- dict_get weather_data "rain" (JObj []) ;;
  rainfall <- dict_get rain "1h" (JInt 0) ;;
  main <- dict_item weather_data "main" ;;
  humidity <- dict_item main "humidity" ;;
  rn <- as_num rainfall ;;
  q <- py_truediv rn (NInt 50) ;;
  s <- py_add (NInt 6) q ;;
  let ph := py_round s 1 in
  hn <- as_num humidity ;;
  q <- py_truediv hn (NInt 100) ;;
  s <- py_add (NInt 1) q ;;
  let carbon := py_round s 1 in
  q <- py_truediv rn (NInt 2) ;;
  i <- py_int q ;;
  let nitrogen := 40 + i in
  let '(status, efficiency, index) := irrigation rn in
  main <- dict_item weather_data "main" ;;
  temp <- dict_item main "temp" ;;
  tn <- as_num temp ;;
  ret (JObj [("weather"%string,
              JObj [("temp"%string, num_json (py_round tn 1));
                    ("rainfall"%string, rainfall);
                    ("humidity"%string, humidity)]);
             ("soil"%string,
              JObj [("ph"%string, num_json ph);
                    ("carbon"%string, num_json carbon);
                    ("nitrogen"%string, JInt nitrogen)]);
             ("irrigation"%string,
              JObj [("status"%string, JStr status);
                    ("efficiency"%string, JInt efficiency);
                    ("index"%string, JFloat index)])]).

Definition missing_coordinates : response :=
  {| status := 400;
     body := JObj [("error"%string, JStr "Latitude and longitude required")] |}.

(** The handler of [POST /insights]. *)
Definition insights (request : json) : io (res response) :=
  let data := if truthy request then request else JObj [] in
  match (lat <- dict_get data "latitude" JNull ;;
         lon <- dict_get data "longitude" JNull ;;
         ret (lat, lon)) with
  | inr e => Done (raise e)
  | inl (lat, lon) =>
      if negb (truthy lat) || negb (truthy lon) then Done (ret missing_coordinates)
      else
        FetchWeather lat lon (fun answer =>
          Done (weather_data <- answer ;;
                result <- derive weather_data ;;
                ret {| status := 200; body := result |}))
  end.

End Handlers.

(** ** A runtime for ASCII input

    The library functions on strings of ASCII characters. [ascii_lower] and
    [ascii_capitalize] change the letters [A] to [Z] and [a] to [z] only:
    characters outside ASCII, whose letters Python maps as well, are left as
    they are. The theorems hold for every runtime; this one runs the
    definitions on ASCII requests. *)

Definition ascii_lower_char (c : ascii) : ascii :=
  let n := nat_of_ascii c in
  if ((65 <=? n) && (n <=? 90))%nat then ascii_of_nat (n + 32) else c.

Definition ascii_upper_char (c : ascii) : ascii :=
  let n := nat_of_ascii c in
  if ((97 <=? n) && (n <=? 122))%nat then ascii_of_nat (n - 32) else c.

Fixpoint string_map (f : ascii -> ascii) (s : string) : string :=
  match s with
  | EmptyString => EmptyString
  | String c r => String (f c) (string_map f r)
  end.

Definition ascii_lower (s : string) : string := string_map ascii_lower_char s.

Definition ascii_capitalize (s : string) : string :=
  match s with
  | EmptyString => EmptyString
  | String c r => String (ascii_upper_char c) (ascii_lower r)
  end.

Definition digit_of (c : ascii) : option Z :=
  let n := Z.of_nat (nat_of_ascii c) in
  if (48 <=? n) && (n <=? 57) then Some (n - 48) else None.

(** The value of a string of decimal digits, continuing from [acc]. *)
Fixpoint digits_value (s : string) (acc : Z) : option Z :=
  match s with
  | EmptyString => Some acc
  | String c r =>
      match digit_of c with
      | Some d => digits_value r (10 * acc + d)
      | None => None
      end
  end.

(** The pieces of [s] between the occurrences of [sep]. *)
Fixpoint split_on (sep : ascii) (s : string) : list string :=
  match s with
  | EmptyString => [EmptyString]
  | String c r =>
      if Ascii.eqb c sep then EmptyString :: split_on sep r
      else match split_on sep r with
           | [] => [String c EmptyString]
           | p :: ps => String c p :: ps
           end
  end.

(** The ASCII whitespace that [float] strips from both ends of a string:
    the space and the characters 9 to 13. *)
Definition is_space (c : ascii) : bool :=
  let n := Z.of_nat (nat_of_ascii c) in
  (n =? 32) || ((9 <=? n) && (n <=? 13)).

Fixpoint lstrip (s : string) : string :=
  match s with
  | EmptyString => EmptyString
  | String c r => if is_space c then lstrip r else s
  end.

Fixpoint rstrip (s : string) : string :=
  match s with
  | EmptyString => EmptyString
  | String c r =>
      match rstrip r with
      | EmptyString => if is_space c then EmptyString else String c EmptyString
      | r' => String c r'
      end
  end.

(** A [digitpart]: decimal digits with single underscores between them.
    The value continues from [acc]; [n] counts the digits and [after_digit]
    says that the previous character was a digit. *)
Fixpoint digitpart (s : string) (after_digit : bool) (acc : Z) (n : Z) : option (Z * Z) :=
  match s with
  | EmptyString => if after_digit then Some (acc, n) else None
  | String c r =>
      match digit_of c with
      | Some d => digitpart r true (10 * acc + d) (n + 1)
      | None => if Ascii.eqb c "_" && after_digit then digitpart r false acc n else None
      end
  end.

(** A [digitpart] that may be missing. *)
Definition opt_digitpart (s : string) (acc : Z) : option (Z * Z) :=
  match s with
  | EmptyString => Some (acc, 0)
  | _ => digitpart s false acc 0
  end.

(** The mantissa and the exponent of a literal: the text before and after
    its first [e] or [E]. *)
Fixpoint split_exponent (s : string) : string * option string :=
  match s with
  | EmptyString => (EmptyString, None)
  | String c r =>
      if Ascii.eqb c "e" || Ascii.eqb c "E" then (EmptyString, Some r)
      else let '(m, e) := split_exponent r in (String c m, e)
  end.

(** The exponent [[sign] digitpart]; 0 when the literal has none. *)
Definition exponent_value (e : option string) : option Z :=
  match e with
  | None => Some 0
  | Some s =>
      let '(negative, rest) :=
        match s with
        | String "-" r => (true, r)
        | String "+" r => (false, r)
        | _ => (false, s)
        end in
      match digitpart rest false 0 0 with
      | Some (v, _) => Some (if negative then - v else v)
      | None => None
      end
  end.

(** The float nearest to [n * 10^e], with the sign [negative]: the quotient
    of two integers, rounded once. *)
Definition decimal_float (negative : bool) (n e : Z) : float :=
  SF2Prim
    (if n <=? 0 then S754_zero negative
     else if 0 <=? e then
       SFdiv prec emax (S754_finite negative (Z.to_pos (n * 10 ^ e)) 0) (Z2SF 1)
     else
       SFdiv prec emax (S754_finite negative (Z.to_pos n) 0) (Z2SF (10 ^ (- e)))).

(** The number [[digitpart] "." digitpart | digitpart ["."]] with its
    exponent. *)
Definition float_literal (negative : bool) (s : string) : option float :=
  let '(mantissa, e) := split_exponent s in
  let parts :=
    match split_on "." mantissa with
    | [ip] => Some (ip, EmptyString)
    | [ip; fp] => Some (ip, fp)
    | _ => None
    end in
  match parts with
  | None => None
  | Some (ip, fp) =>
      if (String.length (ip ++ fp) =? 0)%nat then None
      else
        match opt_digitpart ip 0 with
        | None => None
        | Some (i, _) =>
            match opt_digitpart fp i, exponent_value e with
            | Some (n, k), Some x => Some (decimal_float negative n (x - k))
            | _, _ => None
            end
        end
  end.

(** [float(s)] on a string of ASCII characters: whitespace around an
    optional sign and [inf], [infinity] or [nan] in any letter case, or a
    decimal literal. Python accepts non-ASCII whitespace and digits as well;
    they are outside this runtime. *)
Definition ascii_float_of_str (s : string) : option float :=
  let s := rstrip (lstrip s) in
  let '(negative, rest) :=
    match s with
    | String "-" r => (true, r)
    | String "+" r => (false, r)
    | _ => (false, s)
    end in
  let word := ascii_lower rest in
  if String.eqb word "inf" || String.eqb word "infinity" then
    Some (if negative then neg_infinity else infinity)
  else if String.eqb word "nan" then Some nan
  else float_literal negative rest.

Definition is_leap (y : Z) : bool :=
  (y mod 4 =? 0) && (negb (y mod 100 =? 0) || (y mod 400 =? 0)).

Definition days_in_month (y m : Z) : Z :=
  if m =? 2 then (if is_leap y then 29 else 28)
  else if (m =? 4) || (m =? 6) || (m =? 9) || (m =? 11) then 30
  else 31.

Definition days_before_year (y : Z) : Z :=
  (y - 1) * 365 + (y - 1) / 4 - (y - 1) / 100 + (y - 1) / 400.

Fixpoint days_before_month (y : Z) (m : nat) : Z :=
  match m with
  | O => 0
  | S k => days_before_month y k + days_in_month y (Z.of_nat (S k))
  end.

(** The ordinal of a date, as [datetime.toordinal] counts. *)
Definition ymd2ord (y m d : Z) : Z :=
  days_before_year y + days_before_month y (Z.to_nat (m - 1)) + d.

(** The field [%d] or [%m]: one or two digits, not zero; [%d] may also be a
    space and a digit. *)
Definition two_digit_field (allow_space : bool) (s : string) : option Z :=
  match s with
  | String c EmptyString =>
      match digit_of c with
      | Some d => if 1 <=? d then Some d else None
      | None => None
      end
  | String c1 (String c2 EmptyString) =>
      match digit_of c1, digit_of c2 with
      | Some d1, Some d2 => if 1 <=? 10 * d1 + d2 then Some (10 * d1 + d2) else None
      | None, Some d2 =>
          if allow_space && Ascii.eqb c1 " " && (1 <=? d2) then Some d2 else None
      | _, _ => None
      end
  | _ => None
  end.

(** [datetime.strptime(s, "%d-%m-%Y")] on ASCII digits. *)
Definition ascii_strptime_dmy (s : string) : option datetime :=
  match split_on "-" s with
  | [ds; ms; ys] =>
      match two_digit_field true ds, two_digit_field false ms, digits_value ys 0 with
      | Some d, Some m, Some y =>
          if (String.length ys =? 4)%nat && (1 <=? y) && (m <=? 12) && (d <=? days_in_month y m)
          then Some {| dt_day := ymd2ord y m d; dt_us := 0 |}
          else None
      | _, _, _ => None
      end
  | _ => None
  end.

#[export] Instance ascii_runtime : PyRuntime := {
  str_lower := ascii_lower;
  str_capitalize := ascii_capitalize;
  float_of_str := ascii_float_of_str;
  strptime_dmy := ascii_strptime_dmy;
  str_lower_empty := eq_refl;
  strptime_empty := eq_refl
}.

(** ** The statements of the specification, written as functions *)

(** The float of an int, and the float a number stands for in float
    arithmetic. *)
Definition Z2F (z : Z) : float := SF2Prim (binary_normalize prec emax z 0 false).

Definition num_float (a : num) : float :=
  match a with
  | NInt z => Z2F z
  | NFloat f => f
  end.

(** *** Spec 4.1 step 5: [clamp(floor(80 + (yield_estimate mod 5)), 50, 95)] *)

Definition clamp (x lo hi : Z) : Z :=
  if x <? lo then lo else if hi <? x then hi else x.

(** The floor of a finite float (0 on the others). *)
Definition float_floor (f : float) : Z :=
  match Prim2SF f with
  | S754_finite s m e => Z.shiftl (cond_Zopp s (Zpos m)) e
  | _ => 0
  end.

(** The truncation toward zero of a finite float (0 on the others). *)
Definition float_trunc (f : float) : Z :=
  match Prim2SF f with
  | S754_finite s m e => cond_Zopp s (Z.shiftl (Zpos m) e)
  | _ => 0
  end.

(** The remainder of the truncating division, moved into the non-negative
    range when it is negative. *)
Definition nonneg_mod (f d : float) : float :=
  let r := c_fmod f d in
  if (r <? 0)%float then (r + d)%float else r.

Definition confidence_spec (yield_estimate : num) : Z :=
  match yield_estimate with
  | NInt z => clamp (80 + z mod 5) 50 95
  | NFloat f => clamp (float_floor (80 + nonneg_mod f 5)) 50 95
  end.

(** *** Spec 4.1 steps 1 to 3: base yield and the two penalties *)

Inductive crop_kind : Type := Wheat | Rice | Maize | OtherCrop.

Definition crop_kind_of (crop : string) : crop_kind :=
  if String.eqb crop "wheat" then Wheat
  else if String.eqb crop "rice" then Rice
  else if String.eqb crop "maize" then Maize
  else OtherCrop.

Definition spec_base_yield (k : crop_kind) : num :=
  match k with
  | Wheat => NInt 4
  | Rice => NInt 5
  | Maize => NFloat 4.5
  | OtherCrop => NFloat 3.5
  end.

Definition spec_temp_range (k : crop_kind) : float * float :=
  match k with
  | Wheat => (18, 25)
  | Rice => (22, 30)
  | Maize => (20, 28)
  | OtherCrop => (20, 30)
  end%float.

Definition spec_rain_range (k : crop_kind) : float * float :=
  match k with
  | Wheat => (40, 60)
  | Rice => (80, 120)
  | Maize => (50, 90)
  | OtherCrop => (50, 100)
  end%float.

(** Below the range subtract [(lo - v) * rate], above it [(v - hi) * rate]. *)
Definition spec_penalty (range : float * float) (v rate : float) (y : num) : num :=
  let '(lo, hi) := range in
  if (v <? lo)%float then NFloat (num_float y - (lo - v) * rate)
  else if (hi <? v)%float then NFloat (num_float y - (v - hi) * rate)
  else y.

Definition spec_weather_adjusted (crop : string) (temp rainfall : float) : num :=
  let k := crop_kind_of crop in
  spec_penalty (spec_rain_range k) rainfall 0.1
    (spec_penalty (spec_temp_range k) temp 0.2 (spec_base_yield k)).

(** *** Spec 4.1 step 4: the ageing factor *)

Definition spec_aged (days : Z) (y : num) : num :=
  if days <? 60 then NFloat (num_float y * 0.8)
  else if 180 <? days then NFloat (num_float y * 0.9)
  else y.

(** *** Spec 4.2: soil and irrigation figures *)

(** [a / d] as a float, for a divisor that is an int literal. *)
Definition num_div (a : num) (d : Z) : float :=
  match a with
  | NInt z => SF2Prim (SFdiv prec emax (Z2SF z) (Z2SF d))
  | NFloat f => (f / Z2F d)%float
  end.

Definition spec_ph (rainfall : num) : num :=
  py_round (NFloat (6 + num_div rainfall 50)) 1.

Definition spec_carbon (humidity : num) : num :=
  py_round (NFloat (1 + num_div humidity 100)) 1.

(** [40 + floor(rainfall / 2)], as the specification words it. *)
Definition spec_nitrogen_floor (rainfall : num) : Z :=
  40 + float_floor (num_div rainfall 2).

(** [40 + trunc(rainfall / 2)], what [int] computes. *)
Definition spec_nitrogen_trunc (rainfall : num) : Z :=
  40 + float_trunc (num_div rainfall 2).

(** The exact value of a finite number. *)
Definition num_Q (a : num) : Q :=
  match a with
  | NInt z => inject_Z z
  | NFloat f => F2Q f
  end.

Definition Qltb (a b : Q) : bool :=
  match (a ?= b)%Q with Lt => true | _ => false end.

Definition spec_tier (rainfall : num) : string * Z * float :=
  if Qltb 30 (num_Q rainfall) then ("Good"%string, 90, 0.85%float)
  else if Qltb 10 (num_Q rainfall) then ("Moderate"%string, 75, 0.7%float)
  else ("Low"%string, 60, 0.55%float).

(** The largest int that [float] accepts, and the numbers float arithmetic
    can take without an [OverflowError]. *)
Definition max_float_int : Z := (2 ^ 53 - 1) * 2 ^ 971.

Definition num_in_range (a : num) : bool :=
  match a with
  | NInt z => Z.abs z <=? max_float_int
  | NFloat f => is_finite f
  end.

(** The constants of step 5 as dyadics: 5 = [m5 * 2^-50], 80 = [m5 * 2^-46],
    85 = [m85 * 2^-46]. *)
Definition m5 : positive := 5629499534213120.

Definition m85 : positive := 5981343255101440.

(** [lo <= v <= hi] *)
Definition in_range (range : float * float) (v : float) : bool :=
  ((fst range <=? v) && (v <=? snd range))%float.

(** The value of field [k] of a request is present and truthy. *)
Definition field_truthy (kvs : list (string * json)) (k : string) : bool :=
  match lookup k kvs with
  | Some v => truthy v
  | None => false
  end.

(** The request with the fields [crop_type] (when given), [temperature] and
    [rainfall]. *)
Definition yield_request (crop_type : option string) (temp rainfall : float) : json :=
  JObj ((match crop_type with
         | Some c => [("crop_type"%string, JStr c)]
         | None => []
         end) ++
        [("temperature"%string, JFloat temp); ("rainfall"%string, JFloat rainfall)]).

(** The field [crop_type] is absent or a string. *)
Definition crop_type_ok (kvs : list (string * json)) : Prop :=
  lookup "crop_type" kvs = None \/ exists s, lookup "crop_type" kvs = Some (JStr s).

(** [weather_data.get("rain", {}).get("1h", 0)]: the hourly rain volume when
    the payload has one, else 0. *)
Definition spec_rainfall_field (kvs : list (string * json)) : res json :=
  match lookup "rain" kvs with
  | None => ret (JInt 0)
  | Some (JObj rain) => ret (match lookup "1h" rain with Some v => v | None => JInt 0 end)
  | Some _ => raise AttributeError
  end.

(** The insights as the specification derives them from the rainfall, the
    humidity and the temperature of the payload ([rv] and [hv] are the
    rainfall and humidity as the payload spells them). *)
Definition spec_insights (rv hv : json) (rainfall humidity temp : num) : json :=
  let '(status, efficiency, index) := spec_tier rainfall in
  JObj [("weather"%string,
         JObj [("temp"%string, num_json (py_round temp 1));
               ("rainfall"%string, rv);
               ("humidity"%string, hv)]);
        ("soil"%string,
         JObj [("ph"%string, num_json (spec_ph rainfall));
               ("carbon"%string, num_json (spec_carbon humidity));
               ("nitrogen"%string, JInt (spec_nitrogen_trunc rainfall))]);
        ("irrigation"%string,
         JObj [("status"%string, JStr status);
               ("efficiency"%string, JInt efficiency);
               ("index"%string, JFloat index)])].

(** The payload of the specification's example, one with a negative rain
    volume, and one without a temperature. *)
Definition example_payload : json :=
  JObj [("main"%string, JObj [("temp"%string, JInt 20); ("humidity"%string, JInt 60)]);
        ("rain"%string, JObj [("1h"%string, JInt 40)])].

Definition negative_rain_payload : json :=
  JObj [("main"%string, JObj [("temp"%string, JInt 20); ("humidity"%string, JInt 60)]);
        ("rain"%string, JObj [("1h"%string, JInt (-1))])].

Definition no_temp_payload : json :=
  JObj [("main"%string, JObj [("humidity"%string, JInt 60)]);
        ("rain"%string, JObj [("1h"%string, JInt 40)])].

(** ** Vocabulary of the rounding proofs *)

(** Some bit was lost by the right shifts so far. *)
Definition inexact (mrs : shr_record) : bool := shr_r mrs || shr_s mrs.

(** [y] is [x] shifted right by [n] bits. *)
Definition shr_rel (n : Z) (x y : shr_record) : Prop :=
  shr_m y = shr_m x / 2 ^ n /\
  (inexact y = false <-> inexact x = false /\ shr_m x mod 2 ^ n = 0).

(** The mantissa [m] at exponent [e] has at least the precision of the format. *)
Definition round_pre (prec emax m e : Z) : Prop :=
  e <= SpecFloat.fexp prec emax (Zdigits2 m + e).

(** [x], in units of the last place, is where location [l] says it is
    relative to the integer [m]. *)
Definition loc_ok (m : Z) (l : location) (x : Q) : Prop :=
  (l = loc_Exact /\ x == inject_Z m)%Q \/
  (l <> loc_Exact /\ inject_Z m < x /\ x < inject_Z m + 1)%Q.

(** [r] is not NaN and is at most [b] ([-infinity] included). *)
Definition SFle_Q (r : spec_float) (b : Q) : Prop :=
  match r with
  | S754_nan => False
  | S754_infinity s => s = true
  | _ => (SF2Q r <= b)%Q
  end.

(** [r] is not NaN and is at least [a] ([+infinity] included). *)
Definition SFge_Q (r : spec_float) (a : Q) : Prop :=
  match r with
  | S754_nan => False
  | S754_infinity s => s = false
  | _ => (a <= SF2Q r)%Q
  end.

(** [c] is the float of the int [z], exactly. *)
Definition exact_const (z : Z) (c : float) : Prop :=
  float_of_int z = ret c /\ sf_finite (Prim2SF c) = true /\
  (SF2Q (Prim2SF c) == inject_Z z)%Q.

(** A number whose conversion to float cannot fail. *)
Definition convertible (y : num) : Prop := to_float y = ret (num_float y).

Ltac exact_const_tac := split; [reflexivity | split; reflexivity].

(** The base yield of a row as a dyadic [m * 2^e]. *)
Definition base_dyadic (k : crop_kind) : positive * Z :=
  match k with
  | Wheat => (4503599627370496%positive, -50)
  | Rice => (5629499534213120%positive, -50)
  | Maize => (5066549580791808%positive, -50)
  | OtherCrop => (7881299347898368%positive, -51)
  end.

Definition base_bound (k : crop_kind) : Q :=
  dy (Zpos (fst (base_dyadic k))) (snd (base_dyadic k)).

(** [y] is the base yield of the row, or a float that is not NaN and at most
    the base yield. *)
Definition below_base (k : crop_kind) (y : num) : Prop :=
  y = spec_base_yield k \/ exists f, y = NFloat f /\ SFle_Q (Prim2SF f) (base_bound k).

(** ** Vocabulary of the properties beyond the specification *)

(** [data.get(k, default)] on the items of a dict. *)
Definition field_or (kvs : list (string * json)) (k : string) (default : json) : json :=
  match lookup k kvs with
  | Some v => v
  | None => default
  end.

(** The confidence the handler attaches to the untouched base yield of a
    row. *)
Definition in_range_confidence (k : crop_kind) : Z :=
  match k with
  | Wheat => 84
  | Rice => 80
  | Maize => 84
  | OtherCrop => 83
  end.

(** Predicted yield and confidence of a request that names a crop and
    nothing else. *)
Definition crop_only_answer (k : crop_kind) : num * Z :=
  match k with
  | Rice => (NFloat 2, 82)
  | _ => (spec_base_yield k, in_range_confidence k)
  end.

(** The two tips of an answer. *)
Definition tips_of {rt : PyRuntime} (crop : string) : list string :=
  [("Ideal soil for " ++ str_capitalize crop ++ " detected 🌱")%string;
   "Weather conditions suggest moderate growth potential"%string].

(** The efficiency and the index of an irrigation tier. *)
Definition tier_efficiency (t : string * Z * float) : Z := snd (fst t).

Definition tier_index (t : string * Z * float) : float := snd t.

(** What the weather provider answers to a request with a bad key. *)
Definition provider_error_payload : json :=
  JObj [("cod"%string, JInt 401);
        ("message"%string, JStr "Invalid API key. Please see https://openweathermap.org/faq#error401 for more info.")].

(** [r] is a finite float of magnitude at most [b]. *)
Definition SFabs_le (r : spec_float) (b : Q) : Prop :=
  match r with
  | S754_zero _ => (0 <= b)%Q
  | S754_finite _ m e => (dy (Zpos m) e <= b)%Q
  | _ => False
  end.

Definition num_abs_le (y : num) (b : Q) : Prop := SFabs_le (Prim2SF (num_float y)) b.

(** The mantissa of the largest finite float, [(2^53 - 1) * 2^971], and its
    value. *)
Definition max_mantissa : positive := 9007199254740991.

Definition max_float_Q : Q := dy (Zpos max_mantissa) 971.

(** The decidable form of [SFabs_le]. *)
Definition SFabs_leb (r : spec_float) (b : Q) : bool :=
  match r with
  | S754_zero _ => Qle_bool 0 b
  | S754_finite _ m e => Qle_bool (dy (Zpos m) e) b
  | _ => false
  end.

(** ** Vocabulary of rounding to nearest, by value *)

(** The real [v], in units of the last place of [x], lies where the round
    and sticky bits of [x] say: on the mantissa, below, on or above the
    middle of the mantissa and its successor. *)
Definition rec_val (x : shr_record) (v : Q) : Prop :=
  match shr_r x, shr_s x with
  | false, false => (v == inject_Z (shr_m x))%Q
  | false, true => (inject_Z (shr_m x) < v /\ v < inject_Z (shr_m x) + (1 # 2))%Q
  | true, false => (v == inject_Z (shr_m x) + (1 # 2))%Q
  | true, true => (inject_Z (shr_m x) + (1 # 2) < v /\ v < inject_Z (shr_m x) + 1)%Q
  end.

Definition loc_val (m : Z) (l : location) (v : Q) : Prop :=
  rec_val (shr_record_of_loc m l) v.

(** [k] is the integer nearest to [v], the even one of the two on a tie. *)
Definition nearest_even (v : Q) (k : Z) : Prop :=
  (inject_Z k - (1 # 2) < v /\ v < inject_Z k + (1 # 2))%Q \/
  ((v == inject_Z k - (1 # 2) \/ v == inject_Z k + (1 # 2))%Q /\ Z.even k = true).

(** The last step of [binary_round_aux]: the rounded mantissa [k] at
    exponent [E] is renormalised and checked against the largest exponent. *)
Definition finish (s : bool) (k E : Z) : spec_float :=
  let '(mrs, e) := shr_fexp prec emax k E loc_Exact in
  match shr_m mrs with
  | Z0 => S754_zero s
  | Zpos m => if e <=? emax - prec then S754_finite s m e else S754_infinity s
  | Zneg _ => S754_nan
  end.

(** The order of the floats that are not NaN, infinities included. *)
Definition SFleq (a b : spec_float) : Prop :=
  match a, b with
  | S754_nan, _ | _, S754_nan => False
  | S754_infinity true, _ => True
  | _, S754_infinity false => True
  | S754_infinity false, _ => False
  | _, S754_infinity true => False
  | _, _ => (SF2Q a <= SF2Q b)%Q
  end.

(** [r] is what rounding to nearest makes of the real [v]: the result of
    [binary_round_aux] on a mantissa, an exponent and a location that stand
    for the magnitude of [v], with the sign of [v]. *)
Definition Rnd (v : Q) (r : spec_float) : Prop :=
  exists (s : bool) (m e : Z) (l : location) (x : Q),
    0 <= m /\ round_pre prec emax m e /\ loc_val m l x /\
    (v == if s then - (x * pow2 e) else x * pow2 e)%Q /\
    r = binary_round_aux prec emax s m e l.

(** [r] with its sign replaced by [s]. *)
Definition with_sign (s : bool) (r : spec_float) : spec_float :=
  match r with
  | S754_zero _ => S754_zero s
  | S754_infinity _ => S754_infinity s
  | S754_finite _ m e => S754_finite s m e
  | S754_nan => S754_nan
  end.

(** The decimal with [nd] digits nearest to a finite float, as a rational:
    what [sf_round] converts back to a float. *)
Definition dec_round (x : spec_float) (nd : Z) : Q :=
  match x with
  | S754_finite s m e =>
      let k := round_half_even (Zpos m * 10 ^ nd) e in
      if s then (- (inject_Z k / inject_Z (10 ^ nd)))%Q else (inject_Z k / inject_Z (10 ^ nd))%Q
  | _ => 0%Q
  end.

(** [r] is not NaN and has the sign [s]. *)
Definition has_sign (s : bool) (r : spec_float) : Prop :=
  match r with
  | S754_nan => False
  | S754_zero s' | S754_infinity s' | S754_finite s' _ _ => s' = s
  end.

(** An estimate is the base yield of its row as the table spells it, or a
    float. *)
Definition est_form (k : crop_kind) (y : num) : Prop :=
  y = spec_base_yield k \/ exists f, y = NFloat f.

(** The order of two estimates as floats. *)
Definition num_le (y1 y2 : num) : Prop :=
  (F2Q (num_float y1) <= F2Q (num_float y2))%Q.

(** The provider's payload carries a temperature, the humidity [humidity]
    and, when it has an hourly rain volume, the rainfall [rainfall] (0 when
    it has none), all numbers that float arithmetic can take. *)
Definition payload_carries (kvs : list (string * json)) (rainfall humidity : num) : Prop :=
  exists (main : list (string * json)) (rv hv tv : json) (temp : num),
    lookup "main" kvs = Some (JObj main) /\
    lookup "humidity" main = Some hv /\ as_num hv = ret humidity /\
    num_in_range humidity = true /\
    lookup "temp" main = Some tv /\ as_num tv = ret temp /\
    spec_rainfall_field kvs = ret rv /\ as_num rv = ret rainfall /\
    num_in_range rainfall = true.

(** A payload with less rain and less humidity than the example's. *)
Definition dry_payload : json :=
  JObj [("main"%string, JObj [("temp"%string, JFloat 31.5); ("humidity"%string, JInt 35)]);
        ("rain"%string, JObj [("1h"%string, JFloat 12.5)])].

(* ================================================================== *)
(** * Part II: binary64 rounding *)
(* ================================================================== *)

(** ** Digits and right shifts *)
Lemma digits2_pos_bounds (p : positive) :
  2 ^ (Zpos (digits2_pos p) - 1) <= Zpos p < 2 ^ Zpos (digits2_pos p).
Proof.
  induction p as [p IH | p IH |]; cbn [digits2_pos].
  - rewrite Pos2Z.inj_succ.
    replace (Z.succ (Zpos (digits2_pos p)) - 1) with (Z.succ (Zpos (digits2_pos p) - 1)) by lia.
    rewrite !Z.pow_succ_r by lia. lia.
  - rewrite Pos2Z.inj_succ.
    replace (Z.succ (Zpos (digits2_pos p)) - 1) with (Z.succ (Zpos (digits2_pos p) - 1)) by lia.
    rewrite !Z.pow_succ_r by lia. lia.
  - cbn. lia.
Qed.

Lemma Zdigits2_bounds (m : Z) :
  0 < m -> 2 ^ (Zdigits2 m - 1) <= m < 2 ^ Zdigits2 m.
Proof.
  destruct m as [| p | p]; try lia. intros _. apply digits2_pos_bounds.
Qed.

Lemma Zdigits2_pos (m : Z) : 0 < m -> 0 < Zdigits2 m.
Proof. destruct m; cbn; lia. Qed.

Lemma Zdigits2_nonneg (m : Z) : 0 <= Zdigits2 m.
Proof. destruct m; cbn; lia. Qed.

Lemma pow2_lt_inv (a b : Z) : 0 <= b -> 2 ^ a < 2 ^ b -> a < b.
Proof.
  intros Hb H. destruct (Z_lt_le_dec a b) as [|Hle]; [assumption|].
  pose proof (Z.pow_le_mono_r 2 b a ltac:(lia) Hle). lia.
Qed.

Lemma Zdigits2_unique (m d : Z) :
  0 < m -> 2 ^ (d - 1) <= m < 2 ^ d -> Zdigits2 m = d.
Proof.
  intros Hm [Hlo Hhi].
  pose proof (Zdigits2_bounds m Hm) as [Blo Bhi].
  pose proof (Zdigits2_pos m Hm) as Hd.
  assert (0 < d).
  { destruct (Z_lt_le_dec 0 d); [assumption|].
    assert (d = 0 \/ d < 0) as [-> | Hneg] by lia.
    - cbn in Hhi. lia.
    - rewrite Z.pow_neg_r in Hhi by lia. lia. }
  assert (Zdigits2 m - 1 < d) by (apply pow2_lt_inv; lia).
  assert (d - 1 < Zdigits2 m) by (apply pow2_lt_inv; lia).
  lia.
Qed.

Lemma Zdigits2_le (a b : Z) : 0 < a -> a <= b -> Zdigits2 a <= Zdigits2 b.
Proof.
  intros Ha Hab.
  pose proof (Zdigits2_bounds a Ha) as [A1 A2].
  pose proof (Zdigits2_bounds b ltac:(lia)) as [B1 B2].
  pose proof (Zdigits2_nonneg b).
  assert (Zdigits2 a - 1 < Zdigits2 b) by (apply pow2_lt_inv; lia).
  lia.
Qed.

(** One right shift. *)
Lemma shr_1_rel (x : shr_record) : 0 <= shr_m x -> shr_rel 1 x (shr_1 x).
Proof.
  destruct x as [m r s]. cbn [shr_m]. intros Hm.
  unfold shr_rel, inexact. change (2 ^ 1) with 2.
  destruct m as [| [p | p |] |]; try lia; cbn [shr_1 shr_m shr_r shr_s].
  - rewrite Z.div_0_l, Z.mod_0_l by lia. destruct r, s; cbn; intuition congruence.
  - rewrite Pos2Z.inj_xI.
    replace ((2 * Zpos p + 1) / 2) with (Zpos p) by (apply Z.div_unique with 1; lia).
    replace ((2 * Zpos p + 1) mod 2) with 1 by (apply Z.mod_unique with (Zpos p); lia).
    split; [reflexivity|]. cbn. intuition (try discriminate; lia).
  - rewrite Pos2Z.inj_xO.
    replace ((2 * Zpos p) / 2) with (Zpos p) by (apply Z.div_unique with 0; lia).
    replace ((2 * Zpos p) mod 2) with 0 by (apply Z.mod_unique with (Zpos p); lia).
    split; [reflexivity|]. destruct r, s; cbn; intuition congruence.
  - split; [reflexivity|]. cbn. intuition (try discriminate; lia).
Qed.

Lemma shr_rel_nonneg (n : Z) (x y : shr_record) :
  0 <= shr_m x -> shr_rel n x y -> 0 <= shr_m y.
Proof.
  intros Hx [Hm _]. rewrite Hm.
  destruct (Z_lt_le_dec n 0).
  - rewrite Z.pow_neg_r by lia. rewrite Z.div_0_r. lia.
  - apply Z.div_pos; [lia|]. apply Z.pow_pos_nonneg; lia.
Qed.

Lemma shr_rel_trans (a b : Z) (x y z : shr_record) :
  0 <= a -> 0 <= b -> 0 <= shr_m x ->
  shr_rel a x y -> shr_rel b y z -> shr_rel (a + b) x z.
Proof.
  intros Ha Hb Hx [Hxy Ixy] [Hyz Iyz].
  assert (0 < 2 ^ a) by (apply Z.pow_pos_nonneg; lia).
  assert (0 < 2 ^ b) by (apply Z.pow_pos_nonneg; lia).
  split.
  - rewrite Hyz, Hxy, Z.pow_add_r, Z.div_div by lia. reflexivity.
  - rewrite Iyz, Ixy, Hxy, Z.pow_add_r by lia.
    rewrite Z.rem_mul_r by lia.
    pose proof (Z.mod_pos_bound (shr_m x) (2 ^ a) ltac:(lia)).
    pose proof (Z.mod_pos_bound (shr_m x / 2 ^ a) (2 ^ b) ltac:(lia)).
    split.
    + intros [[Hi Hr] Hr']. split; [assumption|]. rewrite Hr, Hr'. lia.
    + intros [Hi Hr]. split; [split; [assumption|] |]; nia.
Qed.

Lemma iter_pos_shr_rel (p : positive) :
  forall x, 0 <= shr_m x -> shr_rel (Zpos p) x (iter_pos shr_1 p x).
Proof.
  induction p as [p IH | p IH |]; intros x Hx; cbn [iter_pos].
  - pose proof (shr_1_rel x Hx) as H1.
    pose proof (shr_rel_nonneg _ _ _ Hx H1) as Hy.
    pose proof (IH _ Hy) as H2.
    pose proof (shr_rel_nonneg _ _ _ Hy H2) as Hz.
    pose proof (IH _ Hz) as H3.
    replace (Zpos p~1) with (1 + Zpos p + Zpos p) by lia.
    eapply shr_rel_trans; [lia | lia | assumption | | exact H3].
    eapply shr_rel_trans; [lia | lia | assumption | exact H1 | exact H2].
  - pose proof (IH _ Hx) as H2.
    pose proof (shr_rel_nonneg _ _ _ Hx H2) as Hz.
    pose proof (IH _ Hz) as H3.
    replace (Zpos p~0) with (Zpos p + Zpos p) by lia.
    eapply shr_rel_trans; [lia | lia | assumption | exact H2 | exact H3].
  - apply shr_1_rel; assumption.
Qed.

Lemma shr_spec (x : shr_record) (e n : Z) :
  0 <= shr_m x -> 0 <= n ->
  shr_rel n x (fst (shr x e n)) /\ snd (shr x e n) = e + n.
Proof.
  intros Hx Hn. destruct n as [| p | p]; try lia; cbn [shr fst snd].
  - split; [|lia]. unfold shr_rel. change (2 ^ 0) with 1.
    rewrite Z.div_1_r, Z.mod_1_r. intuition.
  - split; [|reflexivity]. apply iter_pos_shr_rel; assumption.
Qed.

Section Rounding.
Variables prec emax : Z.
Hypothesis Hprec : 0 < prec.
Hypothesis Hemax : prec < emax.

Local Abbreviation fexp := (SpecFloat.fexp prec emax).
Local Abbreviation emin := (SpecFloat.emin prec emax).

Lemma fexp_ge_emin (x : Z) : emin <= fexp x.
Proof. unfold SpecFloat.fexp. lia. Qed.

Lemma fexp_mono (a b : Z) : a <= b -> fexp a <= fexp b.
Proof. unfold SpecFloat.fexp. lia. Qed.

Lemma inexact_of_loc (m : Z) (l : location) :
  shr_m (shr_record_of_loc m l) = m /\
  (inexact (shr_record_of_loc m l) = false <-> l = loc_Exact).
Proof.
  destruct l as [| []]; cbn; intuition congruence.
Qed.

Lemma shr_fexp_spec (m e : Z) (l : location) :
  0 <= m -> round_pre prec emax m e ->
  shr_rel (fexp (Zdigits2 m + e) - e) (shr_record_of_loc m l) (fst (shr_fexp prec emax m e l)) /\
  snd (shr_fexp prec emax m e l) = fexp (Zdigits2 m + e).
Proof.
  intros Hm Hpre. unfold shr_fexp.
  destruct (inexact_of_loc m l) as [Hsm _].
  destruct (shr_spec (shr_record_of_loc m l) e (fexp (Zdigits2 m + e) - e)) as [H1 H2].
  - rewrite Hsm; assumption.
  - unfold round_pre in Hpre. lia.
  - split; [assumption | lia].
Qed.

Lemma round_nearest_even_bounds (mrs : shr_record) :
  shr_m mrs <= round_nearest_even (shr_m mrs) (loc_of_shr_record mrs) <= shr_m mrs + 1 /\
  (inexact mrs = false -> round_nearest_even (shr_m mrs) (loc_of_shr_record mrs) = shr_m mrs).
Proof.
  destruct mrs as [m [] []]; cbn; try destruct (Z.even m); split; try lia; try discriminate; reflexivity.
Qed.

Lemma shifted_mantissa_bounds (m e : Z) :
  0 <= m -> round_pre prec emax m e ->
  let e1 := fexp (Zdigits2 m + e) in
  let m1 := m / 2 ^ (e1 - e) in
  0 <= m1 < 2 ^ prec /\ (emin < e1 -> 2 ^ (prec - 1) <= m1).
Proof.
  intros Hm Hpre e1 m1. unfold round_pre in Hpre. fold e1 in Hpre.
  assert (Hn : 0 <= e1 - e) by lia.
  assert (Hpn : 0 < 2 ^ (e1 - e)) by (apply Z.pow_pos_nonneg; lia).
  assert (Hpp : 0 < 2 ^ prec) by (apply Z.pow_pos_nonneg; lia).
  destruct (Z.eq_dec m 0) as [-> | Hnz].
  - subst m1. rewrite Z.div_0_l by lia. split; [lia|].
    subst e1. cbn [Zdigits2] in *. unfold SpecFloat.fexp in *. lia.
  - pose proof (Zdigits2_bounds m ltac:(lia)) as [Dlo Dhi].
    pose proof (Zdigits2_pos m ltac:(lia)) as Dpos.
    assert (He1 : Zdigits2 m + e - prec <= e1) by (subst e1; unfold SpecFloat.fexp; lia).
    split; [split|].
    + apply Z.div_pos; lia.
    + apply Z.div_lt_upper_bound; [lia|].
      rewrite <- Z.pow_add_r by lia.
      apply Z.lt_le_trans with (1 := Dhi).
      apply Z.pow_le_mono_r; lia.
    + intros Hnorm.
      assert (e1 = Zdigits2 m + e - prec) by (subst e1; unfold SpecFloat.fexp in *; lia).
      apply Z.div_le_lower_bound; [lia|].
      rewrite <- Z.pow_add_r by lia.
      replace (e1 - e + (prec - 1)) with (Zdigits2 m - 1) by lia.
      assumption.
Qed.

Lemma binary_round_aux_spec (s : bool) (m e : Z) (l : location) :
  0 <= m -> round_pre prec emax m e ->
  let e1 := fexp (Zdigits2 m + e) in
  let m1 := m / 2 ^ (e1 - e) in
  exists mr,
    m1 <= mr <= m1 + 1 /\
    (mr = m1 + 1 -> l <> loc_Exact \/ m mod 2 ^ (e1 - e) <> 0) /\
    ((mr = 0 /\ binary_round_aux prec emax s m e l = S754_zero s) \/
     (exists m2 e2,
        Zpos m2 * 2 ^ (e2 - e1) = mr /\ e1 <= e2 /\
        canonical_mantissa prec emax m2 e2 = true /\
        binary_round_aux prec emax s m e l =
          if e2 <=? emax - prec then S754_finite s m2 e2 else S754_infinity s)).
Proof.
  intros Hm Hpre e1 m1.
  destruct (shifted_mantissa_bounds m e Hm Hpre) as [[Hm1lo Hm1hi] Hnorm].
  fold e1 in Hm1lo, Hm1hi, Hnorm. fold m1 in Hm1lo, Hm1hi, Hnorm.
  destruct (shr_fexp_spec m e l Hm Hpre) as [[Hshm Hsin] Hse]. fold e1 in Hshm, Hsin, Hse.
  destruct (inexact_of_loc m l) as [Hlm Hli]. rewrite Hlm in Hshm, Hsin. rewrite Hli in Hsin.
  unfold binary_round_aux.
  destruct (shr_fexp prec emax m e l) as [mrs1 e1'] eqn:E1. cbn [fst snd] in Hshm, Hsin, Hse. subst e1'.
  fold m1 in Hshm.
  destruct (round_nearest_even_bounds mrs1) as [Hb Hex].
  set (mr := round_nearest_even (shr_m mrs1) (loc_of_shr_record mrs1)) in *.
  rewrite Hshm in Hb, Hex.
  exists mr. split; [assumption|]. split.
  { intros Hup. destruct (inexact mrs1) eqn:Ei.
    - destruct l as [| c]; [right | left; discriminate].
      intros Hz. assert (true = false); [|discriminate].
      apply Hsin. split; [reflexivity | assumption].
    - specialize (Hex eq_refl). lia. }
  assert (He1 : emin <= e1) by apply fexp_ge_emin.
  assert (Hpp : 0 < 2 ^ (prec - 1)) by (apply Z.pow_pos_nonneg; lia).
  assert (Hp2 : 2 ^ prec = 2 * 2 ^ (prec - 1)).
  { replace prec with (Z.succ (prec - 1)) at 1 by lia. rewrite Z.pow_succ_r by lia. reflexivity. }
  destruct (Z.eq_dec mr 0) as [Hz | Hnz].
  - left. split; [assumption|]. rewrite Hz.
    unfold shr_fexp. cbn [Zdigits2 shr_record_of_loc].
    destruct (fexp (0 + e1) - e1) as [| p | p] eqn:En; cbn [shr shr_m]; try reflexivity.
    pose proof (iter_pos_shr_rel p {| shr_m := 0; shr_r := false; shr_s := false |} ltac:(cbn; lia)) as [Hq _].
    cbn [shr_m] in Hq. rewrite Z.div_0_l in Hq by (apply Z.pow_nonzero; lia).
    rewrite Hq. reflexivity.
  - right. assert (Hmrpos : 0 < mr) by lia.
    destruct (Z_lt_le_dec mr (2 ^ prec)) as [Hlt | Hge].
    + (* no renormalisation *)
      assert (Hd : fexp (Zdigits2 mr + e1) = e1).
      { pose proof (Zdigits2_bounds mr Hmrpos) as [Dlo Dhi].
        pose proof (Zdigits2_pos mr Hmrpos).
        assert (Zdigits2 mr - 1 < prec) by (apply pow2_lt_inv; lia).
        destruct (Z.eq_dec e1 emin) as [Heq | Hne].
        - unfold SpecFloat.fexp. lia.
        - specialize (Hnorm ltac:(lia)).
          assert (prec - 1 < Zdigits2 mr) by (apply pow2_lt_inv; lia).
          unfold SpecFloat.fexp. lia. }
      destruct mr as [| pm | pm] eqn:Emr; try lia.
      exists pm, e1. rewrite Z.sub_diag, Z.mul_1_r.
      split; [reflexivity|]. split; [lia|]. split.
      * unfold canonical_mantissa. cbn [Zdigits2] in Hd. rewrite Hd. apply Z.eqb_refl.
      * unfold shr_fexp. rewrite Hd, Z.sub_diag. cbn [shr shr_record_of_loc shr_m]. reflexivity.
    + (* the rounded mantissa reached 2^prec *)
      assert (Hmr : mr = 2 ^ prec) by lia.
      assert (Hdr : Zdigits2 mr = prec + 1).
      { apply Zdigits2_unique; [lia|]. rewrite Hmr.
        replace (prec + 1 - 1) with prec by lia.
        split; [lia|]. rewrite Z.pow_add_r by lia. change (2 ^ 1) with 2. lia. }
      assert (Hd : fexp (Zdigits2 mr + e1) - e1 = 1).
      { rewrite Hdr. unfold SpecFloat.fexp. lia. }
      assert (Hhalf : 0 < 2 ^ (prec - 1)) by assumption.
      destruct (2 ^ (prec - 1)) as [| ph | ph] eqn:Eh; try lia.
      exists ph, (e1 + 1).
      replace (e1 + 1 - e1) with 1 by lia. change (2 ^ 1) with 2.
      split; [lia|]. split; [lia|]. split.
      * unfold canonical_mantissa.
        assert (Zdigits2 (Zpos ph) = prec).
        { apply Zdigits2_unique; [lia|]. rewrite <- Eh. lia. }
        cbn [Zdigits2] in H. rewrite H. unfold SpecFloat.fexp. apply Z.eqb_eq. lia.
      * unfold shr_fexp. rewrite Hd. cbn [shr iter_pos shr_record_of_loc].
        pose proof (shr_1_rel {| shr_m := mr; shr_r := false; shr_s := false |} ltac:(cbn; lia)) as [Hq _].
        cbn [shr_m] in Hq. change (2 ^ 1) with 2 in Hq.
        replace (mr / 2) with (Zpos ph) in Hq by (apply Z.div_unique with 0; lia).
        rewrite Hq. reflexivity.
Qed.

End Rounding.

Local Open Scope Q_scope.

(** ** Dyadic rationals *)

Lemma pow2_pos (e : Z) : 0 < pow2 e.
Proof. apply Qpower_0_lt. reflexivity. Qed.

Lemma pow2_add (a b : Z) : pow2 (a + b) == pow2 a * pow2 b.
Proof. apply Qpower_plus. discriminate. Qed.

Lemma pow2_Z (n : Z) : (0 <= n)%Z -> pow2 n == inject_Z (2 ^ n).
Proof. intros Hn. unfold pow2. rewrite Zpower_Qpower by assumption. reflexivity. Qed.

Lemma pow2_le (a b : Z) : (a <= b)%Z -> pow2 a <= pow2 b.
Proof. intros H. apply Qpower_le_compat_l; [assumption | discriminate]. Qed.

Lemma pow2_lt_inv_Q (a b : Z) : pow2 a < pow2 b -> (a < b)%Z.
Proof. intros H. apply Qpower_lt_compat_l_inv with (q := 2); [assumption | reflexivity]. Qed.

Lemma dy_rescale (m e e' : Z) :
  (e <= e')%Z -> dy m e' == dy (m * 2 ^ (e' - e)) e.
Proof.
  intros H. unfold dy.
  replace e' with (e + (e' - e))%Z at 1 by lia.
  rewrite pow2_add, (pow2_Z (e' - e)) by lia.
  rewrite inject_Z_mult. ring.
Qed.

Lemma dy_le (a b e : Z) : dy a e <= dy b e <-> (a <= b)%Z.
Proof. unfold dy. rewrite Qmult_le_r by apply pow2_pos. rewrite Zle_Qle. reflexivity. Qed.

Lemma dy_lt (a b e : Z) : dy a e < dy b e <-> (a < b)%Z.
Proof. unfold dy. rewrite Qmult_lt_r by apply pow2_pos. rewrite Zlt_Qlt. reflexivity. Qed.

Lemma dy_pow2 (d e : Z) : (0 <= d)%Z -> dy (2 ^ d) e == pow2 (d + e).
Proof. intros H. unfold dy. rewrite pow2_add, (pow2_Z d) by assumption. reflexivity. Qed.

Lemma dy_pos (m e : Z) : (0 < m)%Z -> 0 < dy m e.
Proof.
  intros H. unfold dy. apply Qmult_lt_0_compat; [|apply pow2_pos].
  rewrite Zlt_Qlt in H. exact H.
Qed.

(** Magnitude of a positive dyadic from its number of digits. *)
Lemma dy_digits (m e : Z) :
  (0 < m)%Z -> pow2 (Zdigits2 m - 1 + e) <= dy m e /\ dy m e < pow2 (Zdigits2 m + e).
Proof.
  intros Hm. destruct (Zdigits2_bounds m Hm) as [Lo Hi].
  pose proof (Zdigits2_pos m Hm).
  rewrite <- !dy_pow2 by lia. rewrite dy_le, dy_lt. split; assumption.
Qed.

(** ** Rounding stays between the floats around the exact value *)

Section Bracket.
Variables prec emax : Z.
Hypothesis Hprec : (0 < prec)%Z.
Hypothesis Hemax : (prec < emax)%Z.

Local Abbreviation fexp := (SpecFloat.fexp prec emax).
Local Abbreviation emin := (SpecFloat.emin prec emax).

Lemma canonical_inv (m : positive) (e : Z) :
  canonical_mantissa prec emax m e = true ->
  e = fexp (Zdigits2 (Zpos m) + e) /\ (Zpos m < 2 ^ prec)%Z /\ (emin <= e)%Z /\
  ((emin < e)%Z -> (2 ^ (prec - 1) <= Zpos m)%Z).
Proof.
  unfold canonical_mantissa. intros H. apply Z.eqb_eq in H. cbn [Zdigits2].
  pose proof (digits2_pos_bounds m) as [Lo Hi].
  split; [symmetry; exact H|].
  assert (Hd : (Zpos (digits2_pos m) <= prec)%Z) by (unfold SpecFloat.fexp in H; lia).
  split; [|split].
  - apply Z.lt_le_trans with (1 := Hi). apply Z.pow_le_mono_r; lia.
  - unfold SpecFloat.fexp in H. lia.
  - intros Hn. assert (Zpos (digits2_pos m) = prec) by (unfold SpecFloat.fexp in H; lia).
    replace (prec - 1)%Z with (Zpos (digits2_pos m) - 1)%Z by lia. exact Lo.
Qed.

Lemma bounded_inv (m : positive) (e : Z) :
  bounded prec emax m e = true ->
  canonical_mantissa prec emax m e = true /\ (e <= emax - prec)%Z.
Proof.
  unfold bounded. intros H. apply andb_true_iff in H as [H1 H2].
  apply Z.leb_le in H2. split; assumption.
Qed.

(** [x] is the exact value in units of [2^e]; a valid float above it bounds the
    rounded result from above, and the result does not overflow. *)
Lemma round_aux_upper (s : bool) (m e : Z) (l : location) (x : Q) (mg : positive) (eg : Z) :
  (0 <= m)%Z -> round_pre prec emax m e -> loc_ok m l x ->
  bounded prec emax mg eg = true ->
  x * pow2 e <= dy (Zpos mg) eg ->
  match binary_round_aux prec emax s m e l with
  | S754_zero s' => s' = s
  | S754_finite s' m2 e2 => s' = s /\ dy (Zpos m2) e2 <= dy (Zpos mg) eg
  | _ => False
  end.
Proof.
  intros Hm Hpre Hloc Hg Hle.
  apply bounded_inv in Hg as [Hcg Hbg].
  apply canonical_inv in Hcg as (Heg & Hmg & Hegmin & _).
  destruct (binary_round_aux_spec prec emax Hprec s m e l Hm Hpre) as (mr & Hmr & Hup & Hres).
  set (e1 := fexp (Zdigits2 m + e)) in *.
  set (n := (e1 - e)%Z) in *.
  assert (Hn : (0 <= n)%Z) by (unfold round_pre in Hpre; subst n e1; lia).
  assert (Hpn : (0 < 2 ^ n)%Z) by (apply Z.pow_pos_nonneg; lia).
  assert (Hxm : inject_Z m <= x) by (destruct Hloc as [[_ Hx] | [_ [Hx _]]]; [rewrite Hx; apply Qle_refl | apply Qlt_le_weak; exact Hx]).
  (* the bound lives on a coarser grid than the result *)
  assert (He1g : (e1 <= eg)%Z).
  { destruct (Z.eq_dec m 0) as [Hz | Hnz].
    - subst m. subst e1. cbn [Zdigits2] in *. unfold round_pre in Hpre. cbn [Zdigits2] in Hpre.
      unfold SpecFloat.fexp in *. lia.
    - rewrite Heg. apply fexp_mono.
      assert (Hmpos : (0 < m)%Z) by lia.
      destruct (dy_digits m e Hmpos) as [Dlo _].
      destruct (dy_digits (Zpos mg) eg ltac:(lia)) as [_ Dhi].
      assert (pow2 (Zdigits2 m - 1 + e) < pow2 (Zdigits2 (Zpos mg) + eg)).
      { eapply Qle_lt_trans; [exact Dlo|]. eapply Qle_lt_trans; [|exact Dhi].
        eapply Qle_trans; [|exact Hle]. unfold dy.
        apply Qmult_le_compat_r; [exact Hxm | apply Qlt_le_weak, pow2_pos]. }
      apply pow2_lt_inv_Q in H. lia. }
  set (k := (Zpos mg * 2 ^ (eg - e1))%Z).
  assert (Hxk : x <= inject_Z (k * 2 ^ n)).
  { rewrite (dy_rescale (Zpos mg) e eg) in Hle by lia. unfold dy in Hle.
    apply Qmult_le_r in Hle; [|apply pow2_pos].
    replace (k * 2 ^ n)%Z with (Zpos mg * 2 ^ (eg - e))%Z; [exact Hle|].
    subst k n. rewrite <- Z.mul_assoc, <- Z.pow_add_r by lia. f_equal. f_equal. lia. }
  assert (Hmk : (m <= k * 2 ^ n)%Z) by (rewrite Zle_Qle; eapply Qle_trans; eassumption).
  assert (Hmrk : (mr <= k)%Z).
  { pose proof (Z.div_mod m (2 ^ n) ltac:(lia)) as Hdm.
    pose proof (Z.mod_pos_bound m (2 ^ n) Hpn) as Hmb.
    assert (Hm1k : (m / 2 ^ n <= k)%Z) by (apply Z.div_le_upper_bound; lia).
    destruct (Z.eq_dec mr (m / 2 ^ n + 1)) as [Hplus | Hsame]; [|lia].
    destruct (Hup Hplus) as [Hl | Hr].
    - destruct Hloc as [[Hl' _] | [_ [Hx _]]]; [contradiction|].
      assert (m < k * 2 ^ n)%Z by (rewrite Zlt_Qlt; eapply Qlt_le_trans; eassumption).
      nia.
    - nia. }
  destruct Hres as [[Hz ->] | (m2 & e2 & Hm2 & He2 & Hc2 & ->)]; [reflexivity|].
  apply canonical_inv in Hc2 as (Hfe2 & Hm2hi & He2min & Hm2lo).
  assert (Hp21 : (0 < 2 ^ (e2 - e1))%Z) by (apply Z.pow_pos_nonneg; lia).
  assert (Hpg1 : (0 < 2 ^ (eg - e1))%Z) by (apply Z.pow_pos_nonneg; lia).
  assert (He2g : (e2 <= eg)%Z).
  { destruct (Z_le_gt_dec e2 eg) as [|Hgt]; [assumption | exfalso].
    specialize (Hm2lo ltac:(lia)).
    assert (Hpw : (2 ^ (e2 - e1) = 2 ^ (eg - e1) * 2 ^ (e2 - eg))%Z)
      by (rewrite <- Z.pow_add_r by lia; f_equal; lia).
    assert (Hp2g : (2 <= 2 ^ (e2 - eg))%Z).
    { change 2%Z with (2 ^ 1)%Z at 1. apply Z.pow_le_mono_r; lia. }
    assert (Hpp : (2 ^ prec = 2 * 2 ^ (prec - 1))%Z).
    { replace prec with (Z.succ (prec - 1)) at 1 by lia. rewrite Z.pow_succ_r by lia. reflexivity. }
    subst k. nia. }
  replace (e2 <=? emax - prec)%Z with true by (symmetry; apply Z.leb_le; lia).
  split; [reflexivity|].
  rewrite (dy_rescale (Zpos m2) e1 e2), (dy_rescale (Zpos mg) e1 eg) by lia.
  apply dy_le. fold k. lia.
Qed.


Lemma round_aux_lower (s : bool) (m e : Z) (l : location) (x : Q) (mg : positive) (eg : Z) :
  (0 <= m)%Z -> round_pre prec emax m e -> loc_ok m l x ->
  bounded prec emax mg eg = true ->
  dy (Zpos mg) eg <= x * pow2 e ->
  match binary_round_aux prec emax s m e l with
  | S754_infinity s' => s' = s
  | S754_finite s' m2 e2 => s' = s /\ dy (Zpos mg) eg <= dy (Zpos m2) e2
  | _ => False
  end.
Proof.
  intros Hm Hpre Hloc Hg Hle.
  apply bounded_inv in Hg as [Hcg Hbg].
  apply canonical_inv in Hcg as (Heg & Hmg & Hegmin & _).
  destruct (binary_round_aux_spec prec emax Hprec s m e l Hm Hpre) as (mr & Hmr & Hup & Hres).
  destruct (shifted_mantissa_bounds prec emax Hprec m e Hm Hpre) as [[Hm1lo Hm1hi] Hnorm].
  set (e1 := fexp (Zdigits2 m + e)) in *.
  set (n := (e1 - e)%Z) in *.
  assert (Hn : (0 <= n)%Z) by (unfold round_pre in Hpre; subst n e1; lia).
  assert (Hpn : (0 < 2 ^ n)%Z) by (apply Z.pow_pos_nonneg; lia).
  assert (Hxm : x < inject_Z (m + 1)).
  { rewrite inject_Z_plus. destruct Hloc as [[_ Hx] | [_ [_ Hx]]]; [rewrite Hx|exact Hx].
    change (inject_Z 1) with 1. lra. }
  (* the rounded mantissa, on the grid [2^e1], is at least the bound *)
  assert (Hgr : dy (Zpos mg) eg <= dy mr e1).
  { destruct (Z_le_gt_dec e1 eg) as [He1g | He1g].
    - set (k := (Zpos mg * 2 ^ (eg - e1))%Z).
      assert (Hpg1 : (0 < 2 ^ (eg - e1))%Z) by (apply Z.pow_pos_nonneg; lia).
      assert (Hkx : inject_Z (k * 2 ^ n) <= x).
      { rewrite (dy_rescale (Zpos mg) e eg) in Hle by lia. unfold dy in Hle.
        apply Qmult_le_r in Hle; [|apply pow2_pos].
        replace (k * 2 ^ n)%Z with (Zpos mg * 2 ^ (eg - e))%Z; [exact Hle|].
        subst k n. rewrite <- Z.mul_assoc, <- Z.pow_add_r by lia. f_equal. f_equal. lia. }
      assert (Hkm : (k * 2 ^ n < m + 1)%Z) by (rewrite Zlt_Qlt; eapply Qle_lt_trans; eassumption).
      assert (Hk1 : (k <= m / 2 ^ n)%Z) by (apply Z.div_le_lower_bound; lia).
      rewrite (dy_rescale (Zpos mg) e1 eg) by lia. apply dy_le. fold k. lia.
    - specialize (Hnorm ltac:(lia)).
      destruct (dy_digits (Zpos mg) eg ltac:(lia)) as [_ Dhi].
      apply Qlt_le_weak. eapply Qlt_le_trans; [exact Dhi|].
      apply Qle_trans with (dy (2 ^ (prec - 1)) e1).
      + rewrite dy_pow2 by lia. apply pow2_le.
        unfold SpecFloat.fexp in Heg. lia.
      + apply dy_le. lia. }
  destruct Hres as [[Hz ->] | (m2 & e2 & Hm2 & He2 & Hc2 & ->)].
  - subst mr. pose proof (dy_pos (Zpos mg) eg ltac:(lia)) as Hp.
    unfold dy in Hgr at 2. change (inject_Z 0) with 0 in Hgr. lra.
  - assert (Hv : dy (Zpos m2) e2 == dy mr e1).
    { rewrite (dy_rescale (Zpos m2) e1 e2) by lia. rewrite Hm2. reflexivity. }
    destruct (e2 <=? emax - prec)%Z; [|reflexivity].
    split; [reflexivity|]. rewrite Hv. exact Hgr.
Qed.

Lemma round_aux_valid (s : bool) (m e : Z) (l : location) :
  (0 <= m)%Z -> round_pre prec emax m e ->
  SpecFloat.valid_binary prec emax (binary_round_aux prec emax s m e l) = true.
Proof.
  intros Hm Hpre.
  destruct (binary_round_aux_spec prec emax Hprec s m e l Hm Hpre) as (mr & _ & _ & Hres).
  destruct Hres as [[_ ->] | (m2 & e2 & _ & _ & Hc2 & ->)]; [reflexivity|].
  destruct (e2 <=? emax - prec)%Z eqn:E; [|reflexivity].
  cbn. unfold bounded. rewrite Hc2, E. reflexivity.
Qed.

(** Whatever the rounding, the sign is the one asked for and no NaN appears. *)
Lemma round_aux_sign (s : bool) (m e : Z) (l : location) :
  (0 <= m)%Z -> round_pre prec emax m e ->
  match binary_round_aux prec emax s m e l with
  | S754_zero s' | S754_infinity s' | S754_finite s' _ _ => s' = s
  | S754_nan => False
  end.
Proof.
  intros Hm Hpre.
  destruct (binary_round_aux_spec prec emax Hprec s m e l Hm Hpre) as (mr & _ & _ & Hres).
  destruct Hres as [[_ ->] | (m2 & e2 & _ & _ & Hc2 & ->)]; [reflexivity|].
  destruct (e2 <=? emax - prec)%Z; reflexivity.
Qed.

End Bracket.

(** ** [binary_round] and [binary_normalize] *)

Lemma prec_pos : (0 < prec)%Z.
Proof. reflexivity. Qed.

Lemma pos_iter_xO (m d : positive) : Zpos (Pos.iter xO m d) = (Zpos m * 2 ^ Zpos d)%Z.
Proof.
  apply (Pos.iter_ind positive xO m (fun d r => Zpos r = (Zpos m * 2 ^ Zpos d)%Z)).
  - change (2 ^ 1)%Z with 2%Z. lia.
  - intros p a IH. rewrite Pos2Z.inj_xO, IH, Pos2Z.inj_succ, Z.pow_succ_r by lia. ring.
Qed.

Lemma shl_align_spec (m : positive) (e e' : Z) :
  snd (shl_align m e e') = Z.min e e' /\
  Zpos (fst (shl_align m e e')) = (Zpos m * 2 ^ (e - Z.min e e'))%Z.
Proof.
  unfold shl_align. destruct (e' - e)%Z as [| d | d] eqn:E; cbn [fst snd].
  - replace (Z.min e e') with e by lia. rewrite Z.sub_diag. split; lia.
  - replace (Z.min e e') with e by lia. rewrite Z.sub_diag. split; lia.
  - replace (Z.min e e') with e' by lia. split; [reflexivity|].
    rewrite pos_iter_xO. f_equal. f_equal. lia.
Qed.

Lemma Zdigits2_shift (m n : Z) :
  (0 < m)%Z -> (0 <= n)%Z -> Zdigits2 (m * 2 ^ n) = (Zdigits2 m + n)%Z.
Proof.
  intros Hm Hn. destruct (Zdigits2_bounds m Hm) as [Lo Hi].
  pose proof (Zdigits2_pos m Hm).
  assert (0 < 2 ^ n)%Z by (apply Z.pow_pos_nonneg; lia).
  apply Zdigits2_unique; [nia|].
  replace (Zdigits2 m + n - 1)%Z with ((Zdigits2 m - 1) + n)%Z by lia.
  rewrite !Z.pow_add_r by lia. nia.
Qed.

Lemma shl_align_pre (m : positive) (e : Z) :
  let mz := fst (shl_align m e (fexp prec emax (Zpos (digits2_pos m) + e))) in
  let ez := snd (shl_align m e (fexp prec emax (Zpos (digits2_pos m) + e))) in
  round_pre prec emax (Zpos mz) ez /\ dy (Zpos mz) ez == dy (Zpos m) e.
Proof.
  intros mz ez.
  destruct (shl_align_spec m e (fexp prec emax (Zpos (digits2_pos m) + e))) as [He Hm].
  fold mz in Hm. fold ez in He.
  set (e' := fexp prec emax (Zpos (digits2_pos m) + e)) in *.
  assert (Hez : (ez <= e)%Z) by lia.
  split.
  - unfold round_pre. rewrite Hm, Zdigits2_shift by lia. cbn [Zdigits2].
    replace (Zpos (digits2_pos m) + (e - Z.min e e') + ez)%Z with (Zpos (digits2_pos m) + e)%Z by lia.
    fold e'. lia.
  - rewrite (dy_rescale (Zpos m) ez e) by lia. rewrite Hm, He. reflexivity.
Qed.

Lemma binary_round_upper (s : bool) (m : positive) (e : Z) (mg : positive) (eg : Z) :
  bounded prec emax mg eg = true ->
  dy (Zpos m) e <= dy (Zpos mg) eg ->
  match binary_round prec emax s m e with
  | S754_zero s' => s' = s
  | S754_finite s' m2 e2 => s' = s /\ dy (Zpos m2) e2 <= dy (Zpos mg) eg
  | _ => False
  end.
Proof.
  intros Hg Hle. unfold binary_round.
  destruct (shl_align_pre m e) as [Hpre Hv].
  destruct (shl_align m e (fexp prec emax (Zpos (digits2_pos m) + e))) as [mz ez].
  cbn [fst snd] in Hpre, Hv.
  apply round_aux_upper with (x := inject_Z (Zpos mz)); try assumption; try reflexivity; try lia.
  - left. split; reflexivity.
  - fold (dy (Zpos mz) ez). rewrite Hv. exact Hle.
Qed.

Lemma binary_round_lower (s : bool) (m : positive) (e : Z) (mg : positive) (eg : Z) :
  bounded prec emax mg eg = true ->
  dy (Zpos mg) eg <= dy (Zpos m) e ->
  match binary_round prec emax s m e with
  | S754_infinity s' => s' = s
  | S754_finite s' m2 e2 => s' = s /\ dy (Zpos mg) eg <= dy (Zpos m2) e2
  | _ => False
  end.
Proof.
  intros Hg Hle. unfold binary_round.
  destruct (shl_align_pre m e) as [Hpre Hv].
  destruct (shl_align m e (fexp prec emax (Zpos (digits2_pos m) + e))) as [mz ez].
  cbn [fst snd] in Hpre, Hv.
  apply round_aux_lower with (x := inject_Z (Zpos mz)); try assumption; try reflexivity; try lia.
  - left. split; reflexivity.
  - fold (dy (Zpos mz) ez). rewrite Hv. exact Hle.
Qed.

Lemma binary_round_sign (s : bool) (m : positive) (e : Z) :
  match binary_round prec emax s m e with
  | S754_zero s' | S754_infinity s' | S754_finite s' _ _ => s' = s
  | S754_nan => False
  end.
Proof.
  unfold binary_round.
  destruct (shl_align_pre m e) as [Hpre Hv].
  destruct (shl_align m e (fexp prec emax (Zpos (digits2_pos m) + e))) as [mz ez].
  cbn [fst snd] in Hpre, Hv.
  apply round_aux_sign; try assumption; try reflexivity; lia.
Qed.

Lemma binary_round_valid (s : bool) (m : positive) (e : Z) :
  valid_binary (binary_round prec emax s m e) = true.
Proof.
  unfold binary_round.
  destruct (shl_align_pre m e) as [Hpre Hv].
  destruct (shl_align m e (fexp prec emax (Zpos (digits2_pos m) + e))) as [mz ez].
  cbn [fst snd] in Hpre, Hv.
  apply round_aux_valid; try assumption; try reflexivity; lia.
Qed.

Lemma dy_opp (m e : Z) : dy (- m) e == - dy m e.
Proof. unfold dy. rewrite inject_Z_opp. ring. Qed.

Lemma SF2Q_sign_neg (m : positive) (e : Z) : SF2Q (S754_finite true m e) < 0.
Proof.
  cbn. change (Z.neg m) with (- Zpos m)%Z. rewrite dy_opp.
  pose proof (dy_pos (Zpos m) e ltac:(lia)). lra.
Qed.

Lemma SF2Q_sign_pos (m : positive) (e : Z) : 0 < SF2Q (S754_finite false m e).
Proof. cbn. apply dy_pos. lia. Qed.

(** Rounding an exact dyadic [z * 2^e] stays below any float that is above it. *)
Lemma binary_normalize_le (z e : Z) (sz : bool) (mg : positive) (eg : Z) :
  bounded prec emax mg eg = true ->
  dy z e <= dy (Zpos mg) eg ->
  SFle_Q (binary_normalize prec emax z e sz) (dy (Zpos mg) eg).
Proof.
  intros Hg Hle. pose proof (dy_pos (Zpos mg) eg ltac:(lia)) as Hgpos.
  destruct z as [| p | p]; cbn [binary_normalize].
  - cbn. lra.
  - pose proof (binary_round_upper false p e mg eg Hg Hle) as H.
    destruct (binary_round prec emax false p e) as [s' | s' | | s' m2 e2]; try contradiction.
    + cbn. lra.
    + destruct H as [-> H]. exact H.
  - pose proof (binary_round_sign true p e) as H.
    destruct (binary_round prec emax true p e) as [s' | s' | | s' m2 e2]; try contradiction.
    + cbn. lra.
    + exact H.
    + subst s'. unfold SFle_Q. pose proof (SF2Q_sign_neg m2 e2). lra.
Qed.

Lemma binary_normalize_ge (z e : Z) (sz : bool) (mg : positive) (eg : Z) :
  bounded prec emax mg eg = true ->
  dy (Zpos mg) eg <= dy z e ->
  SFge_Q (binary_normalize prec emax z e sz) (dy (Zpos mg) eg).
Proof.
  intros Hg Hle. pose proof (dy_pos (Zpos mg) eg ltac:(lia)) as Hgpos.
  destruct z as [| p | p]; cbn [binary_normalize].
  - exfalso. unfold dy in Hle at 2. change (inject_Z 0) with 0 in Hle. lra.
  - pose proof (binary_round_lower false p e mg eg Hg Hle) as H.
    destruct (binary_round prec emax false p e) as [s' | s' | | s' m2 e2]; try contradiction.
    + exact H.
    + destruct H as [-> H]. exact H.
  - exfalso. change (Z.neg p) with (- Zpos p)%Z in Hle. rewrite dy_opp in Hle.
    pose proof (dy_pos (Zpos p) e ltac:(lia)). lra.
Qed.

Lemma binary_normalize_nonneg (z e : Z) (sz : bool) :
  (0 <= z)%Z ->
  match binary_normalize prec emax z e sz with
  | S754_zero _ => True
  | S754_infinity s | S754_finite s _ _ => s = false
  | S754_nan => False
  end.
Proof.
  intros Hz. destruct z as [| p | p]; cbn [binary_normalize]; try lia.
  pose proof (binary_round_sign false p e) as H.
  destruct (binary_round prec emax false p e); auto.
Qed.

Lemma binary_normalize_nonpos (z e : Z) (sz : bool) :
  (z <= 0)%Z ->
  match binary_normalize prec emax z e sz with
  | S754_zero _ => True
  | S754_infinity s | S754_finite s _ _ => s = true
  | S754_nan => False
  end.
Proof.
  intros Hz. destruct z as [| p | p]; cbn [binary_normalize]; try lia.
  pose proof (binary_round_sign true p e) as H.
  destruct (binary_round prec emax true p e); auto.
Qed.

Lemma binary_normalize_valid (z e : Z) (sz : bool) :
  valid_binary (binary_normalize prec emax z e sz) = true.
Proof.
  destruct z; cbn [binary_normalize]; [reflexivity | apply binary_round_valid | apply binary_round_valid].
Qed.

(** ** Comparison, sums and differences *)

Lemma emax_gt_prec : (prec < emax)%Z.
Proof. reflexivity. Qed.

Lemma canonical_lt_exp (m1 m2 : positive) (e1 e2 : Z) :
  canonical_mantissa prec emax m1 e1 = true ->
  canonical_mantissa prec emax m2 e2 = true ->
  (e1 < e2)%Z -> dy (Zpos m1) e1 < dy (Zpos m2) e2.
Proof.
  intros H1 H2 Hlt.
  apply canonical_inv in H1 as (_ & Hm1 & Hmin1 & _).
  apply canonical_inv in H2 as (_ & _ & _ & Hm2).
  specialize (Hm2 ltac:(lia)).
  apply Qlt_le_trans with (dy (2 ^ prec) e1); [apply dy_lt; assumption|].
  apply Qle_trans with (dy (2 ^ (prec - 1)) e2); [|apply dy_le; assumption].
  rewrite !dy_pow2 by (unfold prec; lia). apply pow2_le. lia.
Qed.

Lemma Qcompare_Lt (p q : Q) : p < q -> (p ?= q) = Lt.
Proof. apply Qlt_alt. Qed.

Lemma Qcompare_Gt (p q : Q) : q < p -> (p ?= q) = Gt.
Proof. apply Qgt_alt. Qed.

Lemma dy_compare (a b e : Z) : (dy a e ?= dy b e) = (a ?= b)%Z.
Proof.
  destruct (Z.compare_spec a b) as [-> | H | H].
  - apply Qeq_alt. reflexivity.
  - apply Qcompare_Lt, dy_lt. assumption.
  - apply Qcompare_Gt, dy_lt. assumption.
Qed.

Lemma SFcompare_pos (m1 m2 : positive) (e1 e2 : Z) :
  canonical_mantissa prec emax m1 e1 = true ->
  canonical_mantissa prec emax m2 e2 = true ->
  match (e1 ?= e2)%Z with
  | Lt => Lt
  | Gt => Gt
  | Eq => Pos.compare_cont Eq m1 m2
  end = (dy (Zpos m1) e1 ?= dy (Zpos m2) e2).
Proof.
  intros H1 H2. destruct (Z.compare_spec e1 e2) as [-> | H | H].
  - rewrite dy_compare. reflexivity.
  - symmetry. apply Qcompare_Lt, canonical_lt_exp; assumption.
  - symmetry. apply Qcompare_Gt, canonical_lt_exp; assumption.
Qed.

Lemma Qcompare_opp (p q : Q) : (- p ?= - q) = CompOpp (p ?= q).
Proof.
  destruct (Qcompare_spec p q) as [H | H | H]; cbn.
  - apply Qeq_alt. rewrite H. reflexivity.
  - apply Qcompare_Gt. lra.
  - apply Qcompare_Lt. lra.
Qed.

(** On valid finite floats the IEEE comparison is the comparison of the values. *)
Lemma SFcompare_Q (x y : spec_float) :
  valid_binary x = true -> valid_binary y = true ->
  sf_finite x = true -> sf_finite y = true ->
  SFcompare x y = Some (SF2Q x ?= SF2Q y).
Proof.
  intros Vx Vy Fx Fy.
  destruct x as [sx | sx | | sx mx ex]; try discriminate;
  destruct y as [sy | sy | | sy my ey]; try discriminate; cbn [SFcompare].
  - reflexivity.
  - f_equal. symmetry. destruct sy.
    + apply Qcompare_Gt. apply SF2Q_sign_neg.
    + apply Qcompare_Lt. apply (SF2Q_sign_pos my ey).
  - f_equal. symmetry. destruct sx.
    + apply Qcompare_Lt. apply SF2Q_sign_neg.
    + apply Qcompare_Gt. apply (SF2Q_sign_pos mx ex).
  - cbn in Vx, Vy.
    apply bounded_inv in Vx as [Cx _].
    apply bounded_inv in Vy as [Cy _].
    f_equal. destruct sx, sy.
    + cbn [SF2Q cond_Zopp]. change (Z.neg mx) with (- Zpos mx)%Z. change (Z.neg my) with (- Zpos my)%Z.
      rewrite !dy_opp, Qcompare_opp, <- SFcompare_pos by assumption.
      destruct (ex ?= ey)%Z; reflexivity.
    + symmetry. apply Qcompare_Lt.
      pose proof (SF2Q_sign_neg mx ex). pose proof (SF2Q_sign_pos my ey). lra.
    + symmetry. apply Qcompare_Gt.
      pose proof (SF2Q_sign_pos mx ex). pose proof (SF2Q_sign_neg my ey). lra.
    + cbn [SF2Q cond_Zopp]. apply SFcompare_pos; assumption.
Qed.

Lemma SFltb_Q (x y : spec_float) :
  valid_binary x = true -> valid_binary y = true ->
  sf_finite x = true -> sf_finite y = true ->
  SFltb x y = true <-> SF2Q x < SF2Q y.
Proof.
  intros Vx Vy Fx Fy. unfold SFltb. rewrite SFcompare_Q by assumption.
  rewrite Qlt_alt. destruct (SF2Q x ?= SF2Q y); intuition congruence.
Qed.

Lemma SFleb_Q (x y : spec_float) :
  valid_binary x = true -> valid_binary y = true ->
  sf_finite x = true -> sf_finite y = true ->
  SFleb x y = true <-> SF2Q x <= SF2Q y.
Proof.
  intros Vx Vy Fx Fy. unfold SFleb. rewrite SFcompare_Q by assumption.
  rewrite Qle_alt. destruct (SF2Q x ?= SF2Q y); intuition congruence.
Qed.

(** Alignment of the two mantissas of a sum. *)
Lemma aligned_value (s : bool) (m : positive) (e ez : Z) :
  (ez <= e)%Z ->
  dy (cond_Zopp s (Zpos (fst (shl_align m e ez)))) ez == SF2Q (S754_finite s m e).
Proof.
  intros H. destruct (shl_align_spec m e ez) as [_ Hm]. rewrite Hm.
  replace (Z.min e ez) with ez by lia. cbn [SF2Q].
  rewrite (dy_rescale (cond_Zopp s (Zpos m)) ez e) by lia.
  destruct s; cbn [cond_Zopp]; [|reflexivity].
  rewrite Z.mul_opp_l. reflexivity.
Qed.

Lemma dy_add (a b e : Z) : dy (a + b) e == dy a e + dy b e.
Proof. unfold dy. rewrite inject_Z_plus. ring. Qed.

Lemma dy_sub (a b e : Z) : dy (a - b) e == dy a e - dy b e.
Proof. unfold dy. unfold Z.sub. rewrite inject_Z_plus, inject_Z_opp. ring. Qed.

Lemma dy_sign (z e : Z) : (0 <= dy z e <-> (0 <= z)%Z) /\ (dy z e <= 0 <-> (z <= 0)%Z).
Proof.
  assert (H0 : dy 0 e == 0) by (unfold dy; change (inject_Z 0) with 0; ring).
  split; rewrite <- H0 at 1; apply dy_le.
Qed.

Lemma SFsub_finite (sx sy : bool) (mx my : positive) (ex ey : Z) :
  exists z,
    SFsub prec emax (S754_finite sx mx ex) (S754_finite sy my ey) =
      binary_normalize prec emax z (Z.min ex ey) false /\
    dy z (Z.min ex ey) == SF2Q (S754_finite sx mx ex) - SF2Q (S754_finite sy my ey).
Proof.
  eexists. split; [reflexivity|].
  rewrite dy_sub, !aligned_value by lia. reflexivity.
Qed.

Lemma SFadd_finite (sx sy : bool) (mx my : positive) (ex ey : Z) :
  exists z,
    SFadd prec emax (S754_finite sx mx ex) (S754_finite sy my ey) =
      binary_normalize prec emax z (Z.min ex ey) false /\
    dy z (Z.min ex ey) == SF2Q (S754_finite sx mx ex) + SF2Q (S754_finite sy my ey).
Proof.
  eexists. split; [reflexivity|].
  rewrite dy_add, !aligned_value by lia. reflexivity.
Qed.

(** ** Bounds on the results of the operations *)

Lemma SF2Q_zero (s : bool) : SF2Q (S754_zero s) = 0.
Proof. reflexivity. Qed.

Lemma SF2Q_opp_finite (s : bool) (m : positive) (e : Z) :
  SF2Q (S754_finite (negb s) m e) == - SF2Q (S754_finite s m e).
Proof.
  destruct s; cbn [SF2Q negb cond_Zopp].
  - change (Z.neg m) with (- Zpos m)%Z. rewrite dy_opp. ring.
  - change (Z.neg m) with (- Zpos m)%Z. rewrite dy_opp. reflexivity.
Qed.

(** Subtracting something non-negative keeps a float below its bound. *)
Lemma SFsub_le (x p : spec_float) (mg : positive) (eg : Z) :
  bounded prec emax mg eg = true ->
  SFle_Q x (dy (Zpos mg) eg) -> SFge_Q p 0 ->
  SFle_Q (SFsub prec emax x p) (dy (Zpos mg) eg).
Proof.
  intros Hg Hx Hp. pose proof (dy_pos (Zpos mg) eg ltac:(lia)) as Hgpos.
  destruct x as [sx | sx | | sx mx ex]; destruct p as [sp | sp | | sp mp ep];
    cbn [SFle_Q SFge_Q] in Hx, Hp; try contradiction; subst; cbn [SFsub negb].
  - destruct sx, sp; cbn; lra.
  - reflexivity.
  - unfold SFle_Q. rewrite SF2Q_opp_finite. lra.
  - reflexivity.
  - reflexivity.
  - reflexivity.
  - exact Hx.
  - reflexivity.
  - destruct (SFsub_finite sx sp mx mp ex ep) as (z & Hz & Hv).
    unfold SFsub in Hz. rewrite Hz.
    apply binary_normalize_le; [assumption|]. rewrite Hv. lra.
Qed.

(** The product of two canonical mantissas has enough digits to be rounded. *)
Lemma mul_round_pre (mx my : positive) (ex ey : Z) :
  canonical_mantissa prec emax mx ex = true ->
  canonical_mantissa prec emax my ey = true ->
  round_pre prec emax (Zpos (mx * my)) (ex + ey).
Proof.
  intros Hx Hy.
  apply canonical_inv in Hx as (Hex & Hmx & Hminx & Hnx).
  apply canonical_inv in Hy as (Hey & Hmy & Hminy & Hny).
  unfold round_pre.
  pose proof (Zdigits2_bounds (Zpos mx) ltac:(lia)) as [Xlo Xhi].
  pose proof (Zdigits2_bounds (Zpos my) ltac:(lia)) as [Ylo Yhi].
  pose proof (Zdigits2_pos (Zpos mx) ltac:(lia)) as Dx.
  pose proof (Zdigits2_pos (Zpos my) ltac:(lia)) as Dy.
  assert (Hd : (Zdigits2 (Zpos mx) + Zdigits2 (Zpos my) - 1 <= Zdigits2 (Zpos (mx * my)))%Z).
  { assert (Hp : (0 < 2 ^ (Zdigits2 (Zpos mx) - 1 + (Zdigits2 (Zpos my) - 1)))%Z)
      by (apply Z.pow_pos_nonneg; lia).
    assert (Hle : (2 ^ (Zdigits2 (Zpos mx) - 1 + (Zdigits2 (Zpos my) - 1)) <= Zpos (mx * my))%Z).
    { rewrite Z.pow_add_r, Pos2Z.inj_mul by lia. nia. }
    pose proof (Zdigits2_le _ _ Hp Hle) as H.
    rewrite (Zdigits2_unique _ (Zdigits2 (Zpos mx) + Zdigits2 (Zpos my) - 1)) in H; [exact H | exact Hp |].
    split.
    - apply Z.pow_le_mono_r; lia.
    - apply Z.pow_lt_mono_r; lia. }
  unfold SpecFloat.fexp in *. unfold emin, prec, emax in *. lia.
Qed.

Lemma SFmul_finite_value (sx sy : bool) (mx my : positive) (ex ey : Z) :
  dy (Zpos (mx * my)) (ex + ey) == dy (Zpos mx) ex * dy (Zpos my) ey.
Proof.
  unfold dy. rewrite pow2_add, Pos2Z.inj_mul, inject_Z_mult. ring.
Qed.

(** The product of a non-negative float and a positive one is non-negative. *)
Lemma SFmul_nonneg (d : spec_float) (mc : positive) (ec : Z) :
  valid_binary d = true -> bounded prec emax mc ec = true ->
  SFge_Q d 0 ->
  SFge_Q (SFmul prec emax d (S754_finite false mc ec)) 0.
Proof.
  intros Vd Vc Hd.
  destruct d as [sd | sd | | sd md ed]; cbn [SFge_Q] in Hd; try contradiction; cbn [SFmul].
  - cbn. lra.
  - subst. reflexivity.
  - assert (sd = false) as ->.
    { destruct sd; [|reflexivity]. pose proof (SF2Q_sign_neg md ed). lra. }
    cbn [xorb]. cbn in Vd.
    apply bounded_inv in Vd as [Cd _]. apply bounded_inv in Vc as [Cc _].
    pose proof (round_aux_sign prec emax prec_pos false (Zpos (md * mc)) (ed + ec) loc_Exact
                  ltac:(lia) (mul_round_pre md mc ed ec Cd Cc)) as H.
    destruct (binary_round_aux prec emax false (Zpos (md * mc)) (ed + ec) loc_Exact)
      as [s | s | | s m e]; try contradiction; subst; cbn [SFge_Q].
    + cbn. lra.
    + reflexivity.
    + apply Qlt_le_weak, SF2Q_sign_pos.
Qed.

(** Multiplying by a factor in (0, 1] keeps a float below a positive bound. *)
Lemma SFmul_le (y : spec_float) (mc : positive) (ec : Z) (mg : positive) (eg : Z) :
  valid_binary y = true -> bounded prec emax mc ec = true ->
  bounded prec emax mg eg = true ->
  dy (Zpos mc) ec <= 1 ->
  SFle_Q y (dy (Zpos mg) eg) ->
  SFle_Q (SFmul prec emax y (S754_finite false mc ec)) (dy (Zpos mg) eg).
Proof.
  intros Vy Vc Hg Hc Hy. pose proof (dy_pos (Zpos mg) eg ltac:(lia)) as Hgpos.
  destruct y as [sy | sy | | sy my ey]; cbn [SFle_Q] in Hy; try contradiction; cbn [SFmul].
  - cbn. lra.
  - subst. reflexivity.
  - cbn in Vy. apply bounded_inv in Vy as [Cy _].
    pose proof Vc as Vc'. apply bounded_inv in Vc' as [Cc _].
    pose proof (mul_round_pre my mc ey ec Cy Cc) as Hpre.
    destruct sy; cbn [xorb].
    + pose proof (round_aux_sign prec emax prec_pos true (Zpos (my * mc)) (ey + ec) loc_Exact
                    ltac:(lia) Hpre) as H.
      destruct (binary_round_aux prec emax true (Zpos (my * mc)) (ey + ec) loc_Exact)
        as [s | s | | s m e]; try contradiction; subst; cbn [SFle_Q].
      * cbn. lra.
      * reflexivity.
      * pose proof (SF2Q_sign_neg m e). lra.
    + pose proof (round_aux_upper prec emax prec_pos false (Zpos (my * mc)) (ey + ec) loc_Exact
                    (inject_Z (Zpos (my * mc))) mg eg ltac:(lia) Hpre
                    (or_introl (conj eq_refl (Qeq_refl _))) Hg) as H.
      assert (Hv : inject_Z (Zpos (my * mc)) * pow2 (ey + ec) <= dy (Zpos mg) eg).
      { fold (dy (Zpos (my * mc)) (ey + ec)). rewrite SFmul_finite_value by exact true.
        cbn [SF2Q cond_Zopp] in Hy.
        pose proof (dy_pos (Zpos my) ey ltac:(lia)). pose proof (dy_pos (Zpos mc) ec ltac:(lia)).
        nra. }
      specialize (H Hv).
      destruct (binary_round_aux prec emax false (Zpos (my * mc)) (ey + ec) loc_Exact)
        as [s | s | | s m e]; try contradiction; cbn [SFle_Q].
      * cbn. lra.
      * destruct H as [-> H]. exact H.
Qed.

(** A difference of finite floats has the sign of the exact difference. *)
Lemma SFsub_nonneg (x y : spec_float) :
  sf_finite x = true -> sf_finite y = true ->
  SF2Q y <= SF2Q x ->
  SFge_Q (SFsub prec emax x y) 0.
Proof.
  intros Fx Fy Hle.
  destruct x as [sx | sx | | sx mx ex]; try discriminate;
  destruct y as [sy | sy | | sy my ey]; try discriminate; cbn [SFsub].
  - destruct sx, sy; cbn; lra.
  - unfold SFge_Q. rewrite SF2Q_opp_finite. rewrite ?SF2Q_zero in Hle. lra.
  - cbn [SFge_Q]. rewrite ?SF2Q_zero in Hle. exact Hle.
  - destruct (SFsub_finite sx sy mx my ex ey) as (z & Hz & Hv).
    unfold SFsub in Hz. rewrite Hz.
    assert (Hz0 : (0 <= z)%Z) by (apply (dy_sign z (Z.min ex ey)); rewrite Hv; lra).
    pose proof (binary_normalize_nonneg z (Z.min ex ey) false Hz0) as H.
    destruct (binary_normalize prec emax z (Z.min ex ey) false) as [s | s | | s m e];
      try contradiction; cbn [SFge_Q].
    + cbn. lra.
    + exact H.
    + subst s. apply Qlt_le_weak, SF2Q_sign_pos.
Qed.

(** A sum of finite floats stays between the floats that bracket the exact sum. *)
Lemma SFadd_le (x y : spec_float) (mg : positive) (eg : Z) :
  sf_finite x = true -> sf_finite y = true ->
  bounded prec emax mg eg = true ->
  SF2Q x + SF2Q y <= dy (Zpos mg) eg ->
  SFle_Q (SFadd prec emax x y) (dy (Zpos mg) eg).
Proof.
  intros Fx Fy Hg Hle. pose proof (dy_pos (Zpos mg) eg ltac:(lia)) as Hgpos.
  destruct x as [sx | sx | | sx mx ex]; try discriminate;
  destruct y as [sy | sy | | sy my ey]; try discriminate; cbn [SFadd].
  - destruct sx, sy; cbn; lra.
  - cbn [SFle_Q]. rewrite ?SF2Q_zero in Hle. lra.
  - cbn [SFle_Q]. rewrite ?SF2Q_zero in Hle. lra.
  - destruct (SFadd_finite sx sy mx my ex ey) as (z & Hz & Hv).
    unfold SFadd in Hz. rewrite Hz.
    apply binary_normalize_le; [assumption|]. rewrite Hv. exact Hle.
Qed.

Lemma SFadd_ge (x y : spec_float) (mg : positive) (eg : Z) :
  sf_finite x = true -> sf_finite y = true ->
  bounded prec emax mg eg = true ->
  dy (Zpos mg) eg <= SF2Q x + SF2Q y ->
  SFge_Q (SFadd prec emax x y) (dy (Zpos mg) eg).
Proof.
  intros Fx Fy Hg Hle. pose proof (dy_pos (Zpos mg) eg ltac:(lia)) as Hgpos.
  destruct x as [sx | sx | | sx mx ex]; try discriminate;
  destruct y as [sy | sy | | sy my ey]; try discriminate; cbn [SFadd].
  - rewrite !SF2Q_zero in Hle. lra.
  - cbn [SFge_Q]. rewrite ?SF2Q_zero in Hle. lra.
  - cbn [SFge_Q]. rewrite ?SF2Q_zero in Hle. lra.
  - destruct (SFadd_finite sx sy mx my ex ey) as (z & Hz & Hv).
    unfold SFadd in Hz. rewrite Hz.
    apply binary_normalize_ge; [assumption|]. rewrite Hv. exact Hle.
Qed.

Lemma SFadd_nonneg (x y : spec_float) :
  sf_finite x = true -> sf_finite y = true ->
  0 <= SF2Q x + SF2Q y ->
  SFge_Q (SFadd prec emax x y) 0.
Proof.
  intros Fx Fy Hle.
  destruct x as [sx | sx | | sx mx ex]; try discriminate;
  destruct y as [sy | sy | | sy my ey]; try discriminate; cbn [SFadd].
  - destruct sx, sy; cbn; lra.
  - cbn [SFge_Q]. rewrite ?SF2Q_zero in Hle. lra.
  - cbn [SFge_Q]. rewrite ?SF2Q_zero in Hle. lra.
  - destruct (SFadd_finite sx sy mx my ex ey) as (z & Hz & Hv).
    unfold SFadd in Hz. rewrite Hz.
    assert (Hz0 : (0 <= z)%Z) by (apply (dy_sign z (Z.min ex ey)); rewrite Hv; lra).
    pose proof (binary_normalize_nonneg z (Z.min ex ey) false Hz0) as H.
    destruct (binary_normalize prec emax z (Z.min ex ey) false) as [s | s | | s m e];
      try contradiction; cbn [SFge_Q].
    + cbn. lra.
    + exact H.
    + subst s. apply Qlt_le_weak, SF2Q_sign_pos.
Qed.

(** A float that is bounded on both sides is finite. *)
Lemma SFle_ge_finite (r : spec_float) (a b : Q) :
  SFge_Q r a -> SFle_Q r b -> sf_finite r = true /\ a <= SF2Q r /\ SF2Q r <= b.
Proof.
  destruct r as [s | s | | s m e]; cbn [SFge_Q SFle_Q sf_finite]; intros Ha Hb;
    try contradiction; try (split; [reflexivity | split; assumption]).
  congruence.
Qed.

(** ** The remainder *)

(** Magnitude of the rounding of a negative dyadic. *)
Lemma binary_normalize_ge_neg (z e : Z) (sz : bool) (mg : positive) (eg : Z) :
  bounded prec emax mg eg = true ->
  - dy (Zpos mg) eg <= dy z e ->
  SFge_Q (binary_normalize prec emax z e sz) (- dy (Zpos mg) eg).
Proof.
  intros Hg Hle. pose proof (dy_pos (Zpos mg) eg ltac:(lia)) as Hgpos.
  destruct z as [| p | p]; cbn [binary_normalize].
  - cbn. lra.
  - pose proof (binary_round_sign false p e) as H.
    destruct (binary_round prec emax false p e) as [s' | s' | | s' m2 e2]; try contradiction.
    + cbn. lra.
    + exact H.
    + subst s'. unfold SFge_Q. pose proof (SF2Q_sign_pos m2 e2). lra.
  - change (Z.neg p) with (- Zpos p)%Z in Hle. rewrite dy_opp in Hle.
    pose proof (binary_round_upper true p e mg eg Hg ltac:(lra)) as H.
    destruct (binary_round prec emax true p e) as [s' | s' | | s' m2 e2]; try contradiction.
    + cbn. lra.
    + destruct H as [-> H]. unfold SFge_Q. cbn [SF2Q cond_Zopp].
      change (Z.neg m2) with (- Zpos m2)%Z. rewrite dy_opp. lra.
Qed.

(** The C remainder of a finite float by a positive float [g]: finite, valid,
    with the sign of the dividend and at most [g] in magnitude. *)
Lemma sf_fmod_spec (x : spec_float) (mg : positive) (eg : Z) :
  sf_finite x = true -> bounded prec emax mg eg = true ->
  let r := sf_fmod x (S754_finite false mg eg) in
  valid_binary x = true ->
  valid_binary r = true /\ sf_finite r = true /\
  - dy (Zpos mg) eg <= SF2Q r /\ SF2Q r <= dy (Zpos mg) eg /\
  (0 <= SF2Q x -> 0 <= SF2Q r) /\ (SF2Q x <= 0 -> SF2Q r <= 0).
Proof.
  intros Fx Hg r Vx. pose proof (dy_pos (Zpos mg) eg ltac:(lia)) as Hgpos.
  destruct x as [sx | sx | | sx mx ex]; try discriminate; subst r; cbn [sf_fmod].
  - cbn. repeat split; lra.
  - set (e := Z.min ex eg).
    set (a := (Zpos mx * 2 ^ (ex - e))%Z).
    set (b := (Zpos mg * 2 ^ (eg - e))%Z).
    assert (Hb : (0 < b)%Z) by (subst b; apply Z.mul_pos_pos; [lia | apply Z.pow_pos_nonneg; lia]).
    pose proof (Z.mod_pos_bound a b Hb) as Hr.
    assert (Hbv : dy b e == dy (Zpos mg) eg) by (subst b; symmetry; apply dy_rescale; lia).
    assert (Hrv : dy (a mod b) e <= dy (Zpos mg) eg) by (rewrite <- Hbv; apply dy_le; lia).
    assert (Hr0 : 0 <= dy (a mod b) e) by (apply (dy_sign (a mod b) e); lia).
    pose proof (binary_normalize_valid (cond_Zopp sx (a mod b)) e sx) as Hv.
    split; [exact Hv|].
    destruct sx; cbn [cond_Zopp] in *.
    + pose proof (binary_normalize_ge_neg (- (a mod b)) e true mg eg Hg
                    ltac:(rewrite dy_opp; lra)) as Hlo.
      pose proof (binary_normalize_nonpos (- (a mod b)) e true ltac:(lia)) as Hs.
      pose proof (SF2Q_sign_neg mx ex) as Hxneg.
      destruct (binary_normalize prec emax (- (a mod b)) e true) as [s | s | | s m2 e2];
        try contradiction; cbn [SFge_Q sf_finite] in *.
      * cbn. repeat split; lra.
      * congruence.
      * subst s. pose proof (SF2Q_sign_neg m2 e2). repeat split; lra.
    + pose proof (binary_normalize_le (a mod b) e false mg eg Hg Hrv) as Hhi.
      pose proof (binary_normalize_nonneg (a mod b) e false ltac:(lia)) as Hs.
      pose proof (SF2Q_sign_pos mx ex) as Hxpos.
      destruct (binary_normalize prec emax (a mod b) e false) as [s | s | | s m2 e2];
        try contradiction; cbn [SFle_Q sf_finite] in *.
      * cbn. repeat split; lra.
      * congruence.
      * subst s. pose proof (SF2Q_sign_pos m2 e2). repeat split; lra.
Qed.

(** ** Primitive floats through their specification *)

Lemma valid_Prim2SF (f : float) : valid_binary (Prim2SF f) = true.
Proof. apply Prim2SF_valid. Qed.

Lemma is_finite_spec (f : float) : is_finite f = sf_finite (Prim2SF f).
Proof.
  unfold is_finite, is_nan, is_infinity.
  rewrite !FloatAxioms.eqb_spec, FloatAxioms.abs_spec.
  change (Prim2SF infinity) with (S754_infinity false).
  pose proof (valid_Prim2SF f) as V.
  destruct (Prim2SF f) as [s | s | | s m e]; cbn; try reflexivity.
  - destruct s; reflexivity.
  - rewrite Z.compare_refl, Pos.compare_cont_refl. destruct s; reflexivity.
Qed.

Lemma dy_0 (m : Z) : dy m 0 == inject_Z m.
Proof. unfold dy, pow2. cbn. ring. Qed.

(** Truncating a positive float that lies between two integers. *)
Lemma shiftl_bounds (m : positive) (e a b : Z) :
  inject_Z a <= dy (Zpos m) e -> dy (Zpos m) e <= inject_Z b ->
  (a <= Z.shiftl (Zpos m) e <= b)%Z.
Proof.
  intros Ha Hb. rewrite <- dy_0 in Ha, Hb.
  destruct (Z_le_gt_dec 0 e) as [He | He].
  - rewrite Z.shiftl_mul_pow2 by lia.
    rewrite (dy_rescale (Zpos m) 0 e) in Ha, Hb by lia.
    rewrite Z.sub_0_r in Ha, Hb. apply dy_le in Ha, Hb. lia.
  - assert (Hs : Z.shiftl (Zpos m) e = (Zpos m / 2 ^ (- e))%Z).
    { rewrite <- Z.shiftr_div_pow2, <- Z.shiftl_opp_r by lia. f_equal. lia. }
    rewrite Hs.
    rewrite (dy_rescale a e 0), (dy_rescale b e 0) in * by lia.
    rewrite Z.sub_0_l in Ha, Hb. apply dy_le in Ha, Hb.
    assert (0 < 2 ^ (- e))%Z by (apply Z.pow_pos_nonneg; lia).
    split.
    + apply Z.div_le_lower_bound; lia.
    + apply Z.div_le_upper_bound; lia.
Qed.

Lemma Prim2SF_5 : Prim2SF 5 = S754_finite false m5 (-50).
Proof. reflexivity. Qed.

Lemma Prim2SF_80 : Prim2SF 80 = S754_finite false m5 (-46).
Proof. reflexivity. Qed.

Lemma dy_5 : dy (Zpos m5) (-50) == 5.
Proof. reflexivity. Qed.

Lemma dy_80 : dy (Zpos m5) (-46) == 80.
Proof. reflexivity. Qed.

Lemma dy_85 : dy (Zpos m85) (-46) == 85.
Proof. reflexivity. Qed.

Lemma float_of_int_5 : float_of_int 5 = ret 5%float.
Proof. reflexivity. Qed.

Lemma float_of_int_80 : float_of_int 80 = ret 80%float.
Proof. reflexivity. Qed.

(** [80 + r] for a remainder [r] between 0 and 5. *)
Lemma add_80 (r : float) :
  sf_finite (Prim2SF r) = true -> 0 <= F2Q r -> F2Q r <= 5 ->
  exists m e, Prim2SF (80 + r) = S754_finite false m e /\
              80 <= dy (Zpos m) e /\ dy (Zpos m) e <= 85.
Proof.
  intros Fr Hlo Hhi. unfold F2Q in *.
  rewrite add_spec, Prim2SF_80. unfold SF64add.
  assert (F80 : sf_finite (S754_finite false m5 (-46)) = true) by reflexivity.
  pose proof (SFadd_ge (S754_finite false m5 (-46)) (Prim2SF r) m5 (-46) F80 Fr eq_refl) as Hge.
  pose proof (SFadd_le (S754_finite false m5 (-46)) (Prim2SF r) m85 (-46) F80 Fr eq_refl) as Hle.
  assert (H80 : SF2Q (S754_finite false m5 (-46)) == 80) by reflexivity.
  pose proof dy_80 as E80. pose proof dy_85 as E85.
  specialize (Hge ltac:(lra)). specialize (Hle ltac:(lra)).
  destruct (SFle_ge_finite _ _ _ Hge Hle) as (Hf & H1 & H2).
  destruct (SFadd prec emax (S754_finite false m5 (-46)) (Prim2SF r)) as [s | s | | s m e];
    try discriminate.
  - rewrite SF2Q_zero in H1. lra.
  - destruct s.
    + pose proof (SF2Q_sign_neg m e). lra.
    + exists m, e. cbn [SF2Q cond_Zopp] in H1, H2. split; [reflexivity | split; lra].
Qed.

(** Python's [f % 5] on a finite float: a finite float between 0 and 5, which
    added to 80 gives what the spec's normalised remainder gives. *)
Lemma float_rem_5 (f : float) :
  is_finite f = true ->
  exists r, float_rem f 5 = ret r /\
            sf_finite (Prim2SF r) = true /\ 0 <= F2Q r /\ F2Q r <= 5 /\
            (80 + r = 80 + nonneg_mod f 5)%float.
Proof.
  intros Ff. rewrite is_finite_spec in Ff.
  pose proof (sf_fmod_spec (Prim2SF f) m5 (-50) Ff eq_refl (valid_Prim2SF f))
    as (Vr & Fr & Hlo & Hhi & Hpos & Hneg).
  pose proof dy_5 as E5.
  unfold float_rem, nonneg_mod.
  change ((5 =? 0)%float) with false. cbn match.
  change ((5 <? 0)%float) with false. cbn [xorb].
  assert (Hr : Prim2SF (c_fmod f 5) = sf_fmod (Prim2SF f) (S754_finite false m5 (-50))).
  { unfold c_fmod. rewrite Prim2SF_5. apply Prim2SF_SF2Prim. exact Vr. }
  rewrite FloatAxioms.eqb_spec, FloatAxioms.ltb_spec, Hr.
  change (Prim2SF 0) with (S754_zero false).
  destruct (sf_fmod (Prim2SF f) (S754_finite false m5 (-50))) as [s | s | | s m e] eqn:ER;
    try discriminate.
  - (* the remainder is a zero *)
    change (SFeqb (S754_zero s) (S754_zero false)) with true.
    change (SFltb (S754_zero s) (S754_zero false)) with false. cbn [negb].
    change (copysign 0 5) with 0%float.
    exists 0%float. split; [reflexivity|]. split; [reflexivity|].
    split; [cbn; lra|]. split; [cbn; lra|].
    apply Prim2SF_inj. rewrite !add_spec, Hr. reflexivity.
  - destruct s.
    + (* negative remainder: 5 is added *)
      change (SFeqb (S754_finite true m e) (S754_zero false)) with false.
      change (SFltb (S754_finite true m e) (S754_zero false)) with true. cbn [negb].
      exists (c_fmod f 5 + 5)%float. split; [reflexivity|].
      unfold F2Q. rewrite add_spec, Hr, Prim2SF_5. unfold SF64add.
      pose proof (SF2Q_sign_neg m e) as Hm.
      assert (F5 : sf_finite (S754_finite false m5 (-50)) = true) by reflexivity.
      assert (H5 : SF2Q (S754_finite false m5 (-50)) == 5) by reflexivity.
      pose proof (SFadd_nonneg (S754_finite true m e) (S754_finite false m5 (-50)) eq_refl F5
                    ltac:(lra)) as Hge.
      pose proof (SFadd_le (S754_finite true m e) (S754_finite false m5 (-50)) m5 (-50) eq_refl F5
                    eq_refl ltac:(lra)) as Hle.
      destruct (SFle_ge_finite _ _ _ Hge Hle) as (Hf & H1 & H2).
      repeat split; try assumption; lra.
    + change (SFeqb (S754_finite false m e) (S754_zero false)) with false.
      change (SFltb (S754_finite false m e) (S754_zero false)) with false. cbn [negb].
      exists (c_fmod f 5). split; [reflexivity|].
      unfold F2Q. rewrite Hr.
      pose proof (SF2Q_sign_pos m e) as Hm.
      repeat split; try reflexivity; lra.
Qed.

(** ** Division and decimal rounding *)

Lemma new_location_exact (nb k : Z) :
  (new_location nb k = loc_Exact <-> k = 0%Z).
Proof.
  unfold new_location, new_location_even, new_location_odd.
  destruct (Z.even nb); destruct (Z.eqb_spec k 0); split; intros H; try reflexivity;
    try assumption; try discriminate; contradiction.
Qed.

Lemma inject_Z_pos (z : Z) : (0 < z)%Z -> 0 < inject_Z z.
Proof. intros H. change 0 with (inject_Z 0). rewrite <- Zlt_Qlt. exact H. Qed.

Lemma shiftl_match (m s : Z) :
  (0 <= s)%Z ->
  match s with Zpos _ => Z.shiftl m s | Z0 => m | Zneg _ => 0%Z end = (m * 2 ^ s)%Z.
Proof.
  intros Hs. destruct s as [| p | p].
  - rewrite Z.pow_0_r. lia.
  - apply Z.shiftl_mul_pow2. lia.
  - lia.
Qed.

(** The quotient computed by [SFdiv_core_binary] carries enough digits, and
    its location is that of the exact quotient. *)
Lemma SFdiv_core_spec (m1 m2 : positive) (e1 e2 : Z) :
  let '(q, e', l) := SFdiv_core_binary prec emax (Zpos m1) e1 (Zpos m2) e2 in
  exists x : Q,
    (0 <= q)%Z /\ round_pre prec emax q e' /\ loc_ok q l x /\
    x * pow2 e' == dy (Zpos m1) e1 / dy (Zpos m2) e2.
Proof.
  unfold SFdiv_core_binary.
  set (d1 := Zdigits2 (Zpos m1)). set (d2 := Zdigits2 (Zpos m2)).
  set (e' := Z.min (fexp prec emax (d1 + e1 - (d2 + e2))) (e1 - e2)).
  set (s := (e1 - e2 - e')%Z).
  assert (Hs : (0 <= s)%Z) by (subst s e'; lia).
  set (m' := match s with Zpos _ => Z.shiftl (Zpos m1) s | Z0 => Zpos m1 | Zneg _ => 0%Z end).
  assert (Hm' : m' = (Zpos m1 * 2 ^ s)%Z).
  { subst m'. apply shiftl_match. exact Hs. }
  assert (Hps : (0 < 2 ^ s)%Z) by (apply Z.pow_pos_nonneg; lia).
  pose proof (Z_div_mod m' (Zpos m2) ltac:(lia)) as Hdm.
  destruct (Z.div_eucl m' (Zpos m2)) as [q r]. destruct Hdm as [Hdm Hr].
  assert (Hq : (0 <= q)%Z) by nia.
  exists (inject_Z m' / inject_Z (Zpos m2)).
  assert (Hm2 : 0 < inject_Z (Zpos m2)) by (apply inject_Z_pos; lia).
  split; [exact Hq|]. split; [|split].
  - (* enough digits *)
    unfold round_pre.
    apply Z.le_trans with (fexp prec emax (d1 + e1 - (d2 + e2))); [subst e'; lia|].
    apply fexp_mono.
    assert (Hd : (d1 - d2 + s <= Zdigits2 q)%Z).
    { destruct (Z_le_gt_dec (d1 - d2 + s) 0) as [|Hpos]; [pose proof (Zdigits2_nonneg q); lia|].
      pose proof (Zdigits2_bounds (Zpos m1) ltac:(lia)) as [L1 _].
      pose proof (Zdigits2_bounds (Zpos m2) ltac:(lia)) as [_ H2].
      pose proof (Zdigits2_pos (Zpos m1) ltac:(lia)).
      pose proof (Zdigits2_pos (Zpos m2) ltac:(lia)).
      fold d1 in L1. fold d2 in H2.
      set (t := (d1 - d2 + s)%Z) in *.
      assert (Hpt : (0 < 2 ^ (t - 1))%Z) by (apply Z.pow_pos_nonneg; lia).
      assert (Hlow : (2 ^ (t - 1) <= q)%Z).
      { assert (Hmm : (2 ^ (t - 1) * 2 ^ d2 <= m')%Z).
        { rewrite Hm', <- Z.pow_add_r by lia.
          replace (t - 1 + d2)%Z with ((d1 - 1) + s)%Z by (subst t; lia).
          rewrite Z.pow_add_r by lia. nia. }
        nia. }
      pose proof (Zdigits2_le _ _ Hpt Hlow) as Hle.
      rewrite (Zdigits2_unique (2 ^ (t - 1)) t) in Hle; [exact Hle | exact Hpt |].
      split; [lia|]. apply Z.pow_lt_mono_r; lia. }
    subst s. lia.
  - (* location *)
    unfold loc_ok.
    assert (Hx : inject_Z m' / inject_Z (Zpos m2) == inject_Z q + inject_Z r / inject_Z (Zpos m2)).
    { rewrite Hdm, inject_Z_plus, inject_Z_mult. field. lra. }
    destruct (Z.eq_dec r 0) as [Hr0 | Hr0].
    + left. split; [apply new_location_exact; assumption|].
      rewrite Hx, Hr0. change (inject_Z 0) with 0. field. lra.
    + right. split; [rewrite new_location_exact; assumption|].
      assert (Hrq : 0 < inject_Z r / inject_Z (Zpos m2) /\ inject_Z r / inject_Z (Zpos m2) < 1).
      { assert (0 < inject_Z r) by (apply inject_Z_pos; lia).
        assert (inject_Z r < inject_Z (Zpos m2)) by (rewrite <- Zlt_Qlt; lia).
        split.
        - apply Qlt_shift_div_l; lra.
        - apply Qlt_shift_div_r; lra. }
      rewrite Hx. lra.
  - (* value *)
    rewrite Hm'. unfold dy. rewrite inject_Z_mult, <- (pow2_Z s) by lia.
    assert (He1 : pow2 e1 == pow2 s * pow2 e' * pow2 e2).
    { rewrite <- !pow2_add. replace (s + e' + e2)%Z with e1 by (subst s; lia). reflexivity. }
    rewrite He1. pose proof (pow2_pos e2). field. lra.
Qed.

Lemma SFdiv_integers_valid (s : bool) (q p : positive) :
  valid_binary (SFdiv prec emax (S754_finite s q 0) (S754_finite false p 0)) = true.
Proof.
  cbn [SFdiv]. pose proof (SFdiv_core_spec q p 0 0) as H.
  destruct (SFdiv_core_binary prec emax (Zpos q) 0 (Zpos p) 0) as [[mz ez] lz].
  destruct H as (x & Hq & Hpre & _).
  apply round_aux_valid; [exact prec_pos | assumption | assumption].
Qed.

(** The correctly rounded quotient of two integers stays below a float that
    is above the exact quotient. *)
Lemma SFdiv_integers_le (s : bool) (q p mg : positive) (eg : Z) :
  bounded prec emax mg eg = true ->
  inject_Z (Zpos q) / inject_Z (Zpos p) <= dy (Zpos mg) eg ->
  SFle_Q (SFdiv prec emax (S754_finite s q 0) (S754_finite false p 0)) (dy (Zpos mg) eg).
Proof.
  intros Hg Hle. pose proof (dy_pos (Zpos mg) eg ltac:(lia)) as Hgpos.
  cbn [SFdiv]. pose proof (SFdiv_core_spec q p 0 0) as H.
  destruct (SFdiv_core_binary prec emax (Zpos q) 0 (Zpos p) 0) as [[mz ez] lz].
  destruct H as (x & Hq & Hpre & Hloc & Hv).
  rewrite !dy_0 in Hv.
  destruct s; cbn [xorb].
  - pose proof (round_aux_sign prec emax prec_pos true mz ez lz Hq Hpre) as H.
    destruct (binary_round_aux prec emax true mz ez lz) as [s | s | | s m e];
      try contradiction; subst; cbn [SFle_Q].
    + cbn. lra.
    + reflexivity.
    + pose proof (SF2Q_sign_neg m e). lra.
  - pose proof (round_aux_upper prec emax prec_pos false mz ez lz x mg eg Hq Hpre Hloc Hg
                  ltac:(rewrite Hv; exact Hle)) as H.
    destruct (binary_round_aux prec emax false mz ez lz) as [s | s | | s m e];
      try contradiction; cbn [SFle_Q].
    + cbn. lra.
    + destruct H as [-> H]. exact H.
Qed.

Lemma round_half_even_bounds (n e N : Z) :
  (0 <= n)%Z -> dy n e <= inject_Z N ->
  (0 <= round_half_even n e <= N)%Z.
Proof.
  intros Hn Hle. unfold round_half_even.
  destruct (Z.leb_spec 0 e) as [He | He].
  - assert (0 < 2 ^ e)%Z by (apply Z.pow_pos_nonneg; lia).
    rewrite (dy_rescale n 0 e), Z.sub_0_r, dy_0 in Hle by lia.
    rewrite <- Zle_Qle in Hle. nia.
  - assert (Hd : (0 < 2 ^ (- e))%Z) by (apply Z.pow_pos_nonneg; lia).
    rewrite <- dy_0, (dy_rescale N e 0), Z.sub_0_l in Hle by lia.
    apply dy_le in Hle.
    pose proof (Z.div_mod n (2 ^ (- e)) ltac:(lia)) as Hdm.
    pose proof (Z.mod_pos_bound n (2 ^ (- e)) Hd) as Hr.
    assert (Hq : (0 <= n / 2 ^ (- e))%Z) by (apply Z.div_pos; lia).
    assert (HqN : (n / 2 ^ (- e) <= N)%Z) by (apply Z.div_le_upper_bound; lia).
    assert (Hup : (0 < n mod 2 ^ (- e) -> n / 2 ^ (- e) + 1 <= N)%Z) by nia.
    destruct (Z.compare_spec (2 * (n mod 2 ^ (- e))) (2 ^ (- e))) as [Heq | Hlt | Hgt].
    + destruct (Z.even (n / 2 ^ (- e))); lia.
    + lia.
    + lia.
Qed.

Lemma pow10_pos (nd : Z) : (0 <= nd)%Z -> exists p, (10 ^ nd)%Z = Zpos p.
Proof.
  intros H. assert (0 < 10 ^ nd)%Z by (apply Z.pow_pos_nonneg; lia).
  destruct (10 ^ nd)%Z as [| p | p]; try lia. exists p. reflexivity.
Qed.

Lemma sf_round_valid (x : spec_float) (nd : Z) :
  (0 <= nd)%Z -> valid_binary x = true -> valid_binary (sf_round x nd) = true.
Proof.
  intros Hnd Vx. destruct x as [s | s | | s m e]; try exact Vx. cbn [sf_round].
  destruct (pow10_pos nd Hnd) as [p Hp]. rewrite Hp. cbn [Z2SF].
  destruct (round_half_even (Zpos m * Zpos p) e); try reflexivity.
  apply SFdiv_integers_valid.
Qed.

(** Rounding to [nd] decimals keeps a float below a bound that itself has at
    most [nd] decimals. *)
Lemma sf_round_le (x : spec_float) (nd : Z) (mg : positive) (eg N : Z) :
  (0 <= nd)%Z -> bounded prec emax mg eg = true ->
  dy (Zpos mg) eg * inject_Z (10 ^ nd) == inject_Z N ->
  SFle_Q x (dy (Zpos mg) eg) ->
  SFle_Q (sf_round x nd) (dy (Zpos mg) eg).
Proof.
  intros Hnd Hg HN Hx. pose proof (dy_pos (Zpos mg) eg ltac:(lia)) as Hgpos.
  destruct x as [s | s | | s m e]; try exact Hx.
  cbn [sf_round SFle_Q] in *.
  destruct (pow10_pos nd Hnd) as [p Hp]. rewrite Hp in *. cbn [Z2SF].
  assert (Hp0 : 0 < inject_Z (Zpos p)) by (apply inject_Z_pos; lia).
  destruct s.
  - (* a negative float rounds to something non-positive *)
    destruct (round_half_even (Zpos m * Zpos p) e) as [| q | q]; try (cbn; lra).
    pose proof (SFdiv_integers_valid true q p) as V.
    cbn [SFdiv] in *. pose proof (SFdiv_core_spec q p 0 0) as H.
    destruct (SFdiv_core_binary prec emax (Zpos q) 0 (Zpos p) 0) as [[mz ez] lz].
    destruct H as (x & Hq & Hpre & _). cbn [xorb].
    pose proof (round_aux_sign prec emax prec_pos true mz ez lz Hq Hpre) as H.
    destruct (binary_round_aux prec emax true mz ez lz) as [s | s | | s m' e'];
      try contradiction; subst; cbn [SFle_Q].
    + cbn. lra.
    + reflexivity.
    + pose proof (SF2Q_sign_neg m' e'). lra.
  - cbn [SF2Q cond_Zopp] in Hx.
    assert (Hb : dy (Zpos m * Zpos p) e <= inject_Z N).
    { rewrite <- HN. unfold dy in *. rewrite inject_Z_mult.
      setoid_replace (inject_Z (Zpos m) * inject_Z (Zpos p) * pow2 e)
        with (inject_Z (Zpos m) * pow2 e * inject_Z (Zpos p)) by ring.
      apply Qmult_le_compat_r; lra. }
    pose proof (round_half_even_bounds (Zpos m * Zpos p) e N ltac:(lia) Hb) as [Hq0 HqN].
    destruct (round_half_even (Zpos m * Zpos p) e) as [| q | q]; try (cbn; lra).
    apply SFdiv_integers_le; [assumption|].
    apply Qle_shift_div_r; [exact Hp0|]. rewrite HN. rewrite <- Zle_Qle. exact HqN.
Qed.

(** ** Rounding to nearest is monotone *)

Local Open Scope Q_scope.

Lemma inject_Z_half_even (p : Z) : inject_Z (2 * p) == 2 * inject_Z p.
Proof. rewrite inject_Z_mult. reflexivity. Qed.

Lemma inject_Z_half_odd (p : Z) : inject_Z (2 * p + 1) == 2 * inject_Z p + 1.
Proof. rewrite inject_Z_plus, inject_Z_mult. reflexivity. Qed.

(** One right shift halves the value the record stands for. *)
Lemma shr_1_val (x : shr_record) (v : Q) :
  (0 <= shr_m x)%Z -> rec_val x v -> rec_val (shr_1 x) (v * (1 # 2)).
Proof.
  destruct x as [m r s]. cbn [shr_m]. intros Hm.
  destruct m as [| [p | p |] |]; try lia; unfold rec_val; cbn [shr_1 shr_m shr_r shr_s].
  - (* 0 *)
    change (inject_Z 0) with 0. destruct r, s; cbn [orb]; intros H; lra.
  - (* 2p + 1 *)
    pose proof (inject_Z_half_odd (Zpos p)) as E. rewrite <- Pos2Z.inj_xI in E.
    destruct r, s; cbn [orb]; intros H; lra.
  - (* 2p *)
    pose proof (inject_Z_half_even (Zpos p)) as E. rewrite <- Pos2Z.inj_xO in E.
    destruct r, s; cbn [orb]; intros H; lra.
  - (* 1 *)
    change (inject_Z 1) with 1. change (inject_Z 0) with 0.
    destruct r, s; cbn [orb]; intros H; lra.
Qed.

Lemma rec_val_compat (x : shr_record) (v w : Q) : v == w -> rec_val x v -> rec_val x w.
Proof.
  intros E. unfold rec_val. destruct (shr_r x), (shr_s x); intros H; lra.
Qed.

Lemma rec_val_nonneg (x : shr_record) (v : Q) :
  (0 <= shr_m x)%Z -> rec_val x v -> (0 <= shr_m (shr_1 x))%Z.
Proof.
  intros Hm _. destruct x as [m r s]. cbn [shr_m] in Hm.
  destruct m as [| [p | p |] |]; try lia; cbn; lia.
Qed.

Lemma iter_pos_shr_val (p : positive) :
  forall (x : shr_record) (v : Q),
    (0 <= shr_m x)%Z -> rec_val x v ->
    rec_val (iter_pos shr_1 p x) (v * pow2 (- Zpos p)) /\ (0 <= shr_m (iter_pos shr_1 p x))%Z.
Proof.
  assert (H1 : forall (x : shr_record) (v : Q),
             (0 <= shr_m x)%Z -> rec_val x v ->
             rec_val (shr_1 x) (v * pow2 (- 1)) /\ (0 <= shr_m (shr_1 x))%Z).
  { intros x v Hm Hv. split; [|apply (rec_val_nonneg x v Hm Hv)].
    apply (rec_val_compat _ (v * (1 # 2))); [|apply shr_1_val; assumption].
    unfold pow2. reflexivity. }
  induction p as [p IH | p IH |]; intros x v Hm Hv; cbn [iter_pos].
  - destruct (H1 x v Hm Hv) as [Va Ma].
    destruct (IH _ _ Ma Va) as [Vb Mb]. destruct (IH _ _ Mb Vb) as [Vc Mc].
    split; [|exact Mc].
    refine (rec_val_compat _ _ _ _ Vc).
    rewrite <- !Qmult_assoc, <- !pow2_add.
    replace (-1 + (- Zpos p + - Zpos p))%Z with (- Zpos p~1)%Z by lia. reflexivity.
  - destruct (IH _ _ Hm Hv) as [Vb Mb]. destruct (IH _ _ Mb Vb) as [Vc Mc].
    split; [|exact Mc].
    refine (rec_val_compat _ _ _ _ Vc).
    rewrite <- !Qmult_assoc, <- !pow2_add.
    replace (- Zpos p + - Zpos p)%Z with (- Zpos p~0)%Z by lia. reflexivity.
  - apply H1; assumption.
Qed.

Lemma shr_val (x : shr_record) (e n : Z) (v : Q) :
  (0 <= shr_m x)%Z -> (0 <= n)%Z -> rec_val x v ->
  rec_val (fst (shr x e n)) (v * pow2 (- n)).
Proof.
  intros Hm Hn Hv. destruct n as [| p | p]; try lia; cbn [shr fst].
  - apply (rec_val_compat _ v); [|exact Hv]. unfold pow2. cbn. ring.
  - apply iter_pos_shr_val; assumption.
Qed.

(** The mantissa chosen by [round_nearest_even] is the nearest integer. *)
Lemma round_nearest_even_nearest (x : shr_record) (v : Q) :
  rec_val x v -> nearest_even v (round_nearest_even (shr_m x) (loc_of_shr_record x)).
Proof.
  destruct x as [m r s]. unfold rec_val, nearest_even. cbn [shr_m shr_r shr_s loc_of_shr_record].
  destruct r, s; cbn [round_nearest_even]; intros H.
  - left. rewrite inject_Z_plus. change (inject_Z 1) with 1. lra.
  - destruct (Z.even m) eqn:Em.
    + right. split; [right; lra | exact Em].
    + right. split.
      * left. rewrite inject_Z_plus. change (inject_Z 1) with 1. lra.
      * rewrite Z.even_add, Em. reflexivity.
  - left. lra.
  - left. lra.
Qed.

Lemma nearest_even_mono (v w : Q) (k j : Z) :
  v <= w -> nearest_even v k -> nearest_even w j -> (k <= j)%Z.
Proof.
  intros Hvw Hk Hj. destruct (Z_le_gt_dec k j) as [|Hgt]; [assumption|]. exfalso.
  assert (Hkj : inject_Z j + 1 <= inject_Z k).
  { change 1 with (inject_Z 1). rewrite <- inject_Z_plus, <- Zle_Qle. lia. }
  destruct Hk as [[K1 K2] | [[K | K] Ek]]; destruct Hj as [[J1 J2] | [[J | J] Ej]]; try lra.
  assert (k = j + 1)%Z.
  { assert (inject_Z k <= inject_Z j + 1) by lra.
    change 1 with (inject_Z 1) in H. rewrite <- inject_Z_plus, <- Zle_Qle in H. lia. }
  subst k. rewrite Z.even_add, Ej in Ek. discriminate.
Qed.

Lemma nearest_even_integer (z k : Z) : nearest_even (inject_Z z) k -> k = z.
Proof.
  intros H.
  assert (Hd : inject_Z k - 1 < inject_Z z /\ inject_Z z < inject_Z k + 1).
  { destruct H as [[H1 H2] | [[H | H] _]]; lra. }
  destruct Hd as [H1 H2].
  assert (H1' : inject_Z k < inject_Z (z + 1)) by (rewrite inject_Z_plus; change (inject_Z 1) with 1; lra).
  assert (H2' : inject_Z z < inject_Z (k + 1)) by (rewrite inject_Z_plus; change (inject_Z 1) with 1; lra).
  rewrite <- Zlt_Qlt in H1', H2'. lia.
Qed.

(** *** The last step *)

Local Open Scope Z_scope.

Lemma finish_zero (s : bool) (E : Z) : emin <= E -> finish s 0 E = S754_zero s.
Proof.
  intros HE. unfold finish, shr_fexp. cbn [Zdigits2 shr_record_of_loc].
  assert (H : fexp prec emax (0 + E) - E <= 0)
    by (unfold SpecFloat.fexp, SpecFloat.emin, prec, emax in *; lia).
  destruct (fexp prec emax (0 + E) - E) as [| p | p]; try lia; reflexivity.
Qed.

Lemma finish_small (s : bool) (k : positive) (E : Z) :
  emin <= E -> Zpos k < 2 ^ prec ->
  finish s (Zpos k) E = if E <=? emax - prec then S754_finite s k E else S754_infinity s.
Proof.
  intros HE Hk. unfold finish, shr_fexp.
  pose proof (Zdigits2_bounds (Zpos k) ltac:(lia)) as [Dlo _].
  pose proof (Zdigits2_pos (Zpos k) ltac:(lia)) as Dpos.
  assert (Hd : Zdigits2 (Zpos k) - 1 < prec) by (apply pow2_lt_inv; [unfold prec|]; lia).
  assert (H : fexp prec emax (Zdigits2 (Zpos k) + E) - E <= 0)
    by (unfold SpecFloat.fexp, SpecFloat.emin, prec, emax in *; lia).
  destruct (fexp prec emax (Zdigits2 (Zpos k) + E) - E) as [| p | p]; try lia; reflexivity.
Qed.

Lemma finish_carry (s : bool) (E : Z) :
  emin <= E ->
  finish s (2 ^ prec) E =
    if E + 1 <=? emax - prec then S754_finite s 4503599627370496 (E + 1) else S754_infinity s.
Proof.
  intros HE. unfold finish, shr_fexp.
  change (2 ^ prec) with 9007199254740992. change (Zdigits2 9007199254740992) with 54.
  replace (fexp prec emax (54 + E) - E) with 1
    by (unfold SpecFloat.fexp, SpecFloat.emin, prec, emax in *; lia).
  reflexivity.
Qed.

(** The value and the exponent of the result of the last step. *)
Lemma finish_value (s : bool) (k E : Z) :
  emin <= E -> 0 <= k <= 2 ^ prec ->
  (k = 0 /\ finish s k E = S754_zero s) \/
  (0 < k /\
   exists e', E <= e' /\ (k < 2 ^ prec -> e' = E) /\ (k = 2 ^ prec -> e' = E + 1) /\
     ((e' <= emax - prec /\
       exists m, finish s k E = S754_finite s m e' /\ (dy (Zpos m) e' == dy k E)%Q) \/
      (emax - prec < e' /\ finish s k E = S754_infinity s))).
Proof.
  intros HE [Hk0 Hk]. destruct (Z.eq_dec k 0) as [-> | Hnz].
  - left. split; [reflexivity | apply finish_zero; assumption].
  - right. split; [lia|]. destruct (Z.eq_dec k (2 ^ prec)) as [-> | Hne].
    + exists (E + 1). split; [lia|]. split; [lia|]. split; [reflexivity|].
      rewrite (finish_carry s E HE).
      destruct (Z.leb_spec (E + 1) (emax - prec)); [left | right]; (split; [lia|]).
      * exists 4503599627370496%positive. split; [reflexivity|].
        rewrite (dy_rescale 4503599627370496 E (E + 1)) by lia.
        replace (E + 1 - E) with 1 by lia. reflexivity.
      * reflexivity.
    + destruct k as [| pk | pk]; try lia. exists E. split; [lia|]. split; [reflexivity|].
      split; [intros Hc; rewrite Hc in Hne; contradiction|].
      rewrite (finish_small s pk E HE ltac:(lia)).
      destruct (Z.leb_spec E (emax - prec)); [left | right]; (split; [lia|]).
      * exists pk. split; reflexivity.
      * reflexivity.
Qed.

Lemma finish_mono (k1 k2 E : Z) :
  emin <= E -> 0 <= k1 -> k1 <= k2 -> k2 <= 2 ^ prec ->
  SFleq (finish false k1 E) (finish false k2 E).
Proof.
  intros HE H0 H12 H2.
  destruct (finish_value false k1 E HE ltac:(lia)) as [[-> ->] | (P1 & e1 & L1 & S1 & C1 & R1)];
    destruct (finish_value false k2 E HE ltac:(lia)) as [[-> ->] | (P2 & e2 & L2 & S2 & C2 & R2)];
    try lia.
  - cbn. apply Qle_refl.
  - destruct R2 as [(_ & m & -> & Hv) | (_ & ->)]; cbn [SFleq SF2Q cond_Zopp].
    + change (0 <= dy (Zpos m) e2)%Q. apply Qlt_le_weak, dy_pos. lia.
    + exact I.
  - assert (He : e1 <= e2).
    { destruct (Z_lt_le_dec k1 (2 ^ prec)); [rewrite (S1 ltac:(lia)); lia|].
      rewrite (C1 ltac:(lia)), (C2 ltac:(lia)). lia. }
    destruct R1 as [(B1 & m1 & -> & V1) | (B1 & ->)], R2 as [(B2 & m2 & -> & V2) | (B2 & ->)];
      cbn [SFleq SF2Q cond_Zopp]; try exact I; try lia.
    rewrite V1, V2. apply dy_le. lia.
Qed.

Local Open Scope Q_scope.

(** *** [binary_round_aux] by value *)

Lemma loc_val_ok (m : Z) (l : location) (x : Q) : loc_val m l x -> loc_ok m l x.
Proof.
  unfold loc_val, rec_val, loc_ok. destruct l as [| []]; cbn [shr_record_of_loc shr_m shr_r shr_s];
    intros H; [left | right ..]; (split; [congruence || reflexivity|]); lra.
Qed.

Lemma loc_val_bounds (m : Z) (l : location) (x : Q) :
  loc_val m l x -> inject_Z m <= x /\ x < inject_Z m + 1.
Proof.
  unfold loc_val, rec_val. destruct l as [| []]; cbn [shr_record_of_loc shr_m shr_r shr_s];
    intros H; lra.
Qed.

(** [binary_round_aux] takes the integer nearest to the value in units of
    the canonical exponent, and finishes. *)
Lemma binary_round_aux_finish (s : bool) (m e : Z) (l : location) (x : Q) :
  (0 <= m)%Z -> round_pre prec emax m e -> loc_val m l x ->
  let E := fexp prec emax (Zdigits2 m + e) in
  exists k,
    nearest_even (x * pow2 (e - E)) k /\ (0 <= k <= 2 ^ prec)%Z /\
    ((emin < E)%Z -> (2 ^ (prec - 1) <= k)%Z) /\
    binary_round_aux prec emax s m e l = finish s k E.
Proof.
  intros Hm Hpre Hx E.
  destruct (shifted_mantissa_bounds prec emax prec_pos m e Hm Hpre) as [[Hlo Hhi] Hnorm].
  fold E in Hlo, Hhi, Hnorm.
  destruct (shr_fexp_spec prec emax m e l Hm Hpre) as [[Hshm _] Hse]. fold E in Hshm, Hse.
  assert (Hn : (0 <= E - e)%Z) by (unfold round_pre in Hpre; fold E in Hpre; lia).
  assert (Hval : rec_val (fst (shr_fexp prec emax m e l)) (x * pow2 (e - E))).
  { unfold shr_fexp. fold E.
    replace (e - E)%Z with (- (E - e))%Z by lia.
    apply shr_val; [|exact Hn | exact Hx].
    destruct l as [| []]; exact Hm. }
  assert (Hsm : shr_m (shr_record_of_loc m l) = m) by (destruct l as [| []]; reflexivity).
  rewrite Hsm in Hshm.
  unfold binary_round_aux, finish.
  destruct (shr_fexp prec emax m e l) as [mrs1 e1]. cbn [fst snd] in *. subst e1.
  destruct (round_nearest_even_bounds mrs1) as [Hb _]. rewrite Hshm in Hb.
  exists (round_nearest_even (shr_m mrs1) (loc_of_shr_record mrs1)).
  split; [apply round_nearest_even_nearest; exact Hval|].
  rewrite Hshm. split; [lia|]. split; [intros HE; specialize (Hnorm HE); lia|]. reflexivity.
Qed.

(** The binade of the value fixes the canonical exponent. *)
Lemma value_binade (m e : Z) (l : location) (x : Q) :
  (0 <= m)%Z -> round_pre prec emax m e -> loc_val m l x ->
  x * pow2 e < pow2 (Zdigits2 m + e) /\
  ((0 < m)%Z -> pow2 (Zdigits2 m + e - 1) <= x * pow2 e) /\
  (m = 0%Z -> fexp prec emax (Zdigits2 m + e) = emin).
Proof.
  intros Hm Hpre Hx. destruct (loc_val_bounds m l x Hx) as [X1 X2].
  pose proof (pow2_pos e) as Pe.
  split; [|split].
  - destruct (Z.eq_dec m 0) as [-> | Hnz].
    + cbn [Zdigits2]. change (inject_Z 0) with 0 in X2. rewrite Z.add_0_l. nra.
    + destruct (dy_digits (m + 1) e ltac:(lia)) as [_ H]. unfold dy in H.
      pose proof (Zdigits2_bounds m ltac:(lia)) as [_ Dhi].
      assert (Hle : inject_Z (m + 1) * pow2 e <= pow2 (Zdigits2 m + e)).
      { rewrite <- dy_pow2 by apply Zdigits2_nonneg. apply dy_le. lia. }
      rewrite inject_Z_plus in Hle. change (inject_Z 1) with 1 in Hle. nra.
  - intros Hpos. destruct (dy_digits m e Hpos) as [H _]. unfold dy in H.
    replace (Zdigits2 m + e - 1)%Z with (Zdigits2 m - 1 + e)%Z by lia. nra.
  - intros ->. unfold round_pre in Hpre. cbn [Zdigits2] in *.
    unfold SpecFloat.fexp, SpecFloat.emin, prec, emax in *. lia.
Qed.

Lemma bounded_pow (E : Z) :
  (emin <= E)%Z -> (E <= emax - prec)%Z -> bounded prec emax 4503599627370496 E = true.
Proof.
  intros H1 H2. unfold bounded, canonical_mantissa.
  change (Zpos (digits2_pos 4503599627370496)) with 53%Z.
  apply andb_true_intro. split.
  - apply Z.eqb_eq. unfold SpecFloat.fexp, SpecFloat.emin, prec, emax in *. lia.
  - apply Z.leb_le. exact H2.
Qed.

(** Rounding to nearest is monotone on the magnitudes. *)
Lemma round_mono_pos (m1 e1 : Z) (l1 : location) (x1 : Q) (m2 e2 : Z) (l2 : location) (x2 : Q) :
  (0 <= m1)%Z -> round_pre prec emax m1 e1 -> loc_val m1 l1 x1 ->
  (0 <= m2)%Z -> round_pre prec emax m2 e2 -> loc_val m2 l2 x2 ->
  x1 * pow2 e1 <= x2 * pow2 e2 ->
  SFleq (binary_round_aux prec emax false m1 e1 l1) (binary_round_aux prec emax false m2 e2 l2).
Proof.
  intros M1 P1 X1 M2 P2 X2 Hle.
  destruct (value_binade m1 e1 l1 x1 M1 P1 X1) as (U1 & L1 & Z1).
  destruct (value_binade m2 e2 l2 x2 M2 P2 X2) as (U2 & L2 & Z2).
  destruct (binary_round_aux_finish false m1 e1 l1 x1 M1 P1 X1) as (k1 & N1 & B1 & G1 & R1).
  destruct (binary_round_aux_finish false m2 e2 l2 x2 M2 P2 X2) as (k2 & N2 & B2 & G2 & R2).
  set (E1 := fexp prec emax (Zdigits2 m1 + e1)) in *.
  set (E2 := fexp prec emax (Zdigits2 m2 + e2)) in *.
  pose proof (fexp_ge_emin prec emax (Zdigits2 m1 + e1)) as HE1. fold E1 in HE1.
  pose proof (fexp_ge_emin prec emax (Zdigits2 m2 + e2)) as HE2. fold E2 in HE2.
  assert (HD : (0 < m1)%Z -> (Zdigits2 m1 + e1 <= Zdigits2 m2 + e2)%Z).
  { intros Hp. specialize (L1 Hp).
    assert (H : pow2 (Zdigits2 m1 + e1 - 1) < pow2 (Zdigits2 m2 + e2)) by lra.
    apply pow2_lt_inv_Q in H. lia. }
  assert (HE : (E1 <= E2)%Z).
  { destruct (Z.eq_dec m1 0) as [Hz | Hnz].
    - rewrite (Z1 Hz). exact HE2.
    - apply fexp_mono, HD. lia. }
  destruct (Z.eq_dec E1 E2) as [Heq | Hne].
  - (* the same exponent: the nearest integers are ordered *)
    rewrite R1, R2, Heq.
    apply finish_mono; try lia.
    apply (nearest_even_mono (x1 * pow2 (e1 - E1)) (x2 * pow2 (e2 - E2))); [|assumption..].
    rewrite Heq. pose proof (pow2_pos (- E2)) as Pn.
    replace (e1 - E2)%Z with (e1 + - E2)%Z by lia. replace (e2 - E2)%Z with (e2 + - E2)%Z by lia.
    rewrite !pow2_add, !Qmult_assoc. apply Qmult_le_compat_r; lra.
  - (* a power of two lies between the two values *)
    assert (HltE : (E1 < E2)%Z) by lia.
    assert (Hm2 : (0 < m2)%Z).
    { destruct (Z.eq_dec m2 0) as [Hz | Hnz]; [|lia]. rewrite (Z2 Hz) in HltE. lia. }
    assert (HE2' : E2 = (Zdigits2 m2 + e2 - prec)%Z)
      by (subst E1 E2; unfold SpecFloat.fexp, SpecFloat.emin, prec, emax in *; lia).
    assert (HDlt : (Zdigits2 m1 + e1 < Zdigits2 m2 + e2)%Z).
    { destruct (Z_lt_le_dec (Zdigits2 m1 + e1) (Zdigits2 m2 + e2)); [assumption|].
      pose proof (fexp_mono prec emax (Zdigits2 m2 + e2) (Zdigits2 m1 + e1) ltac:(lia)).
      fold E1 E2 in H. lia. }
    pose proof (round_aux_sign prec emax prec_pos false m1 e1 l1 M1 P1) as S1.
    destruct (Z_le_gt_dec E2 (emax - prec)) as [Hin | Hout].
    + pose proof (bounded_pow E2 HE2 Hin) as HB.
      assert (HBv : dy 4503599627370496 E2 == pow2 (Zdigits2 m2 + e2 - 1)).
      { change 4503599627370496%Z with (2 ^ 52)%Z. rewrite dy_pow2 by lia.
        rewrite HE2'. unfold prec. replace (52 + (Zdigits2 m2 + e2 - 53))%Z
          with (Zdigits2 m2 + e2 - 1)%Z by lia. reflexivity. }
      specialize (L2 Hm2).
      assert (Hv1 : x1 * pow2 e1 <= dy 4503599627370496 E2).
      { rewrite HBv. apply Qle_trans with (pow2 (Zdigits2 m1 + e1)); [lra|].
        apply pow2_le. lia. }
      assert (Hv2 : dy 4503599627370496 E2 <= x2 * pow2 e2) by (rewrite HBv; exact L2).
      pose proof (round_aux_upper prec emax prec_pos false m1 e1 l1 x1 _ E2 M1 P1
                    (loc_val_ok _ _ _ X1) HB Hv1) as U.
      pose proof (round_aux_lower prec emax prec_pos false m2 e2 l2 x2 _ E2 M2 P2
                    (loc_val_ok _ _ _ X2) HB Hv2) as L.
      destruct (binary_round_aux prec emax false m1 e1 l1) as [s1 | s1 | | s1 n1 f1];
        try contradiction;
        destruct (binary_round_aux prec emax false m2 e2 l2) as [s2 | s2 | | s2 n2 f2];
        try contradiction.
      * subst s2. destruct s1; exact I.
      * destruct L as [-> L]. cbn [SFleq SF2Q cond_Zopp].
        pose proof (dy_pos (Zpos n2) f2 ltac:(lia)). lra.
      * subst s2. destruct s1; exact I.
      * destruct U as [-> U], L as [-> L]. cbn [SFleq SF2Q cond_Zopp]. lra.
    + (* the larger value overflows *)
      assert (R2' : binary_round_aux prec emax false m2 e2 l2 = S754_infinity false).
      { rewrite R2. specialize (G2 ltac:(lia)).
        assert (Hk2 : (0 < k2)%Z).
        { assert (0 < 2 ^ (prec - 1))%Z by (apply Z.pow_pos_nonneg; unfold prec; lia). lia. }
        destruct (finish_value false k2 E2 HE2 B2) as [[Hz _] | (_ & e' & Le & _ & _ & R)]; [lia|].
        destruct R as [(Hb & _) | (_ & R)]; [lia | exact R]. }
      rewrite R2'.
      destruct (binary_round_aux prec emax false m1 e1 l1) as [s1 | s1 | | s1 n1 f1];
        try contradiction; try exact I.
      subst s1. exact I.
Qed.

(** *** Signs *)

Lemma binary_round_aux_with_sign (s : bool) (m e : Z) (l : location) :
  binary_round_aux prec emax s m e l = with_sign s (binary_round_aux prec emax false m e l).
Proof.
  unfold binary_round_aux. destruct (shr_fexp prec emax m e l) as [mrs1 e1].
  destruct (shr_fexp prec emax (round_nearest_even (shr_m mrs1) (loc_of_shr_record mrs1)) e1
              loc_Exact) as [mrs2 e2].
  destruct (shr_m mrs2); [reflexivity | | reflexivity].
  destruct (e2 <=? emax - prec)%Z; reflexivity.
Qed.

Lemma SFleq_with_sign (a b : spec_float) :
  has_sign false a -> has_sign false b ->
  SFleq a b -> SFleq (with_sign true b) (with_sign true a).
Proof.
  destruct a as [sa | sa | | sa ma ea], b as [sb | sb | | sb mb eb];
    cbn [has_sign with_sign]; intros Ha Hb; try contradiction; subst;
    cbn [SFleq SF2Q cond_Zopp]; try tauto.
  - intros _. pose proof (SF2Q_sign_neg mb eb) as H. cbn [SF2Q cond_Zopp] in H. lra.
  - intros H. pose proof (dy_pos (Zpos ma) ea ltac:(lia)). lra.
  - intros H. change (Z.neg mb) with (- Zpos mb)%Z. change (Z.neg ma) with (- Zpos ma)%Z.
    rewrite !dy_opp. lra.
Qed.

Lemma SFleq_signs (a b : spec_float) :
  has_sign true a -> has_sign false b -> SFleq a b.
Proof.
  destruct a as [sa | sa | | sa ma ea], b as [sb | sb | | sb mb eb];
    cbn [has_sign]; intros Ha Hb; try contradiction; subst; cbn [SFleq]; try exact I.
  - apply Qle_refl.
  - apply Qlt_le_weak, SF2Q_sign_pos.
  - apply Qlt_le_weak, SF2Q_sign_neg.
  - pose proof (SF2Q_sign_neg ma ea). pose proof (SF2Q_sign_pos mb eb). lra.
Qed.

Lemma round_aux_has_sign (s : bool) (m e : Z) (l : location) :
  (0 <= m)%Z -> round_pre prec emax m e -> has_sign s (binary_round_aux prec emax s m e l).
Proof. intros Hm Hpre. exact (round_aux_sign prec emax prec_pos s m e l Hm Hpre). Qed.

Lemma nearest_even_compat (v w : Q) (k : Z) : v == w -> nearest_even v k -> nearest_even w k.
Proof.
  intros E [[H1 H2] | [[H | H] Ek]].
  - left. lra.
  - right. split; [left; lra | exact Ek].
  - right. split; [right; lra | exact Ek].
Qed.

(** A value that is zero rounds to the zero of its sign. *)
Lemma round_aux_zero (s : bool) (m e : Z) (l : location) (x : Q) :
  (0 <= m)%Z -> round_pre prec emax m e -> loc_val m l x -> x == 0 ->
  binary_round_aux prec emax s m e l = S754_zero s.
Proof.
  intros Hm Hpre Hx H0.
  destruct (binary_round_aux_finish s m e l x Hm Hpre Hx) as (k & N & _ & _ & R).
  rewrite R.
  assert (k = 0%Z) as ->.
  { apply nearest_even_integer. refine (nearest_even_compat _ _ _ _ N).
    rewrite H0. change (inject_Z 0) with 0. ring. }
  apply finish_zero, fexp_ge_emin.
Qed.

(** *** Rounding as a relation between a real and a float *)

Lemma Rnd_compat (v w : Q) (r : spec_float) : v == w -> Rnd v r -> Rnd w r.
Proof.
  intros E (s & m & e & l & x & Hm & Hpre & Hx & Hv & Hr).
  exists s, m, e, l, x. repeat split; try assumption. rewrite <- E. exact Hv.
Qed.

(** Rounding to nearest is monotone. *)
Lemma Rnd_mono (v1 v2 : Q) (r1 r2 : spec_float) :
  Rnd v1 r1 -> Rnd v2 r2 -> v1 <= v2 -> SFleq r1 r2.
Proof.
  intros (s1 & m1 & e1 & l1 & x1 & M1 & P1 & X1 & V1 & ->)
         (s2 & m2 & e2 & l2 & x2 & M2 & P2 & X2 & V2 & ->) Hle.
  destruct (loc_val_bounds m1 l1 x1 X1) as [B1 _]. destruct (loc_val_bounds m2 l2 x2 X2) as [B2 _].
  assert (I1 : 0 <= inject_Z m1) by (change 0 with (inject_Z 0); rewrite <- Zle_Qle; exact M1).
  assert (I2 : 0 <= inject_Z m2) by (change 0 with (inject_Z 0); rewrite <- Zle_Qle; exact M2).
  pose proof (pow2_pos e1) as Q1. pose proof (pow2_pos e2) as Q2.
  assert (A1 : 0 <= x1 * pow2 e1) by nra. assert (A2 : 0 <= x2 * pow2 e2) by nra.
  destruct s1, s2.
  - rewrite (binary_round_aux_with_sign true m1), (binary_round_aux_with_sign true m2).
    apply SFleq_with_sign; [apply round_aux_has_sign; assumption .. |].
    apply (round_mono_pos m2 e2 l2 x2 m1 e1 l1 x1); try assumption. lra.
  - apply SFleq_signs; apply round_aux_has_sign; assumption.
  - assert (Z1 : x1 == 0) by nra. assert (Z2 : x2 == 0) by nra.
    rewrite (round_aux_zero false m1 e1 l1 x1 M1 P1 X1 Z1).
    rewrite (round_aux_zero true m2 e2 l2 x2 M2 P2 X2 Z2).
    cbn. apply Qle_refl.
  - apply (round_mono_pos m1 e1 l1 x1 m2 e2 l2 x2); try assumption. lra.
Qed.

Lemma Rnd_not_nan (v : Q) (r : spec_float) : Rnd v r -> r <> S754_nan.
Proof.
  intros (s & m & e & l & x & Hm & Hpre & _ & _ & ->).
  pose proof (round_aux_sign prec emax prec_pos s m e l Hm Hpre) as H.
  destruct (binary_round_aux prec emax s m e l); try contradiction; discriminate.
Qed.

(** A float is the rounding of its own value. *)
Lemma Rnd_exact (f : spec_float) :
  valid_binary f = true -> sf_finite f = true -> Rnd (SF2Q f) f.
Proof.
  intros V F. destruct f as [s | s | | s m e]; try discriminate.
  - exists s, 0%Z, emin, loc_Exact, 0.
    split; [lia|]. split; [unfold round_pre; reflexivity|].
    split; [unfold loc_val, rec_val; cbn; reflexivity|].
    split; [destruct s; cbn [SF2Q]; ring|]. destruct s; reflexivity.
  - cbn in V. pose proof V as V'. apply bounded_inv in V' as [C He].
    apply canonical_inv in C as (Hc & Hlt & Hmin & _).
    exists s, (Zpos m), e, loc_Exact, (inject_Z (Zpos m)).
    assert (Hpre : round_pre prec emax (Zpos m) e) by (unfold round_pre; lia).
    assert (Hx : loc_val (Zpos m) loc_Exact (inject_Z (Zpos m)))
      by (unfold loc_val, rec_val; cbn; reflexivity).
    split; [lia|]. split; [exact Hpre|]. split; [exact Hx|]. split.
    + cbn [SF2Q]. destruct s; cbn [cond_Zopp]; [|reflexivity].
      change (Z.neg m) with (- Zpos m)%Z. rewrite dy_opp. reflexivity.
    + destruct (binary_round_aux_finish s (Zpos m) e loc_Exact _ ltac:(lia) Hpre Hx)
        as (k & N & _ & _ & R).
      rewrite R, <- Hc.
      assert (k = Zpos m) as ->.
      { apply nearest_even_integer. refine (nearest_even_compat _ _ _ _ N).
        rewrite <- Hc, Z.sub_diag. unfold pow2. cbn. ring. }
      rewrite (finish_small s m e Hmin Hlt).
      apply Z.leb_le in He. rewrite He. reflexivity.
Qed.

Lemma binary_normalize_Rnd (z e : Z) (sz : bool) :
  Rnd (dy z e) (binary_normalize prec emax z e sz).
Proof.
  destruct z as [| p | p]; cbn [binary_normalize].
  - apply (Rnd_compat (SF2Q (S754_zero sz))); [cbn; unfold dy; ring|].
    apply Rnd_exact; reflexivity.
  - unfold binary_round. destruct (shl_align_pre p e) as [Hpre Hv].
    destruct (shl_align p e (fexp prec emax (Zpos (digits2_pos p) + e))) as [mz ez].
    cbn [fst snd] in Hpre, Hv.
    exists false, (Zpos mz), ez, loc_Exact, (inject_Z (Zpos mz)).
    split; [lia|]. split; [exact Hpre|].
    split; [unfold loc_val, rec_val; cbn; reflexivity|].
    split; [symmetry; exact Hv | reflexivity].
  - unfold binary_round. destruct (shl_align_pre p e) as [Hpre Hv].
    destruct (shl_align p e (fexp prec emax (Zpos (digits2_pos p) + e))) as [mz ez].
    cbn [fst snd] in Hpre, Hv.
    exists true, (Zpos mz), ez, loc_Exact, (inject_Z (Zpos mz)).
    split; [lia|]. split; [exact Hpre|].
    split; [unfold loc_val, rec_val; cbn; reflexivity|].
    split; [|reflexivity].
    change (Z.neg p) with (- Zpos p)%Z. rewrite dy_opp, <- Hv. reflexivity.
Qed.

Local Open Scope Z_scope.

(** ** The operations as roundings of the exact results *)

Local Open Scope Q_scope.

Lemma loc_val_exact (m : Z) : loc_val m loc_Exact (inject_Z m).
Proof. unfold loc_val, rec_val. cbn. reflexivity. Qed.

Lemma SFsub_Rnd (x y : spec_float) :
  valid_binary x = true -> valid_binary y = true ->
  sf_finite x = true -> sf_finite y = true ->
  Rnd (SF2Q x - SF2Q y) (SFsub prec emax x y).
Proof.
  intros Vx Vy Fx Fy.
  destruct x as [sx | sx | | sx mx ex]; try discriminate;
  destruct y as [sy | sy | | sy my ey]; try discriminate; cbn [SFsub].
  - apply (Rnd_compat 0); [cbn [SF2Q]; ring|].
    destruct sx, sy; apply (Rnd_exact (S754_zero _)); reflexivity.
  - apply (Rnd_compat (SF2Q (S754_finite (negb sy) my ey))).
    + rewrite SF2Q_opp_finite. cbn [SF2Q]. ring.
    + apply Rnd_exact; [exact Vy | reflexivity].
  - apply (Rnd_compat (SF2Q (S754_finite sx mx ex))); [cbn [SF2Q]; ring|].
    apply Rnd_exact; [exact Vx | reflexivity].
  - destruct (SFsub_finite sx sy mx my ex ey) as (z & Hz & Hv).
    unfold SFsub in Hz. rewrite Hz.
    apply (Rnd_compat _ _ _ Hv), binary_normalize_Rnd.
Qed.

Lemma SFadd_Rnd (x y : spec_float) :
  valid_binary x = true -> valid_binary y = true ->
  sf_finite x = true -> sf_finite y = true ->
  Rnd (SF2Q x + SF2Q y) (SFadd prec emax x y).
Proof.
  intros Vx Vy Fx Fy.
  destruct x as [sx | sx | | sx mx ex]; try discriminate;
  destruct y as [sy | sy | | sy my ey]; try discriminate; cbn [SFadd].
  - apply (Rnd_compat 0); [cbn [SF2Q]; ring|].
    destruct sx, sy; apply (Rnd_exact (S754_zero _)); reflexivity.
  - apply (Rnd_compat (SF2Q (S754_finite sy my ey))); [cbn [SF2Q]; ring|].
    apply Rnd_exact; [exact Vy | reflexivity].
  - apply (Rnd_compat (SF2Q (S754_finite sx mx ex))); [cbn [SF2Q]; ring|].
    apply Rnd_exact; [exact Vx | reflexivity].
  - destruct (SFadd_finite sx sy mx my ex ey) as (z & Hz & Hv).
    unfold SFadd in Hz. rewrite Hz.
    apply (Rnd_compat _ _ _ Hv), binary_normalize_Rnd.
Qed.

Lemma SF2Q_xorb (sx sy : bool) (a b : Q) :
  (if xorb sx sy then - (a * b) else a * b) ==
  (if sx then - a else a) * (if sy then - b else b).
Proof. destruct sx, sy; cbn [xorb]; ring. Qed.

Lemma SF2Q_finite_sign (s : bool) (m : positive) (e : Z) :
  SF2Q (S754_finite s m e) == if s then - dy (Zpos m) e else dy (Zpos m) e.
Proof.
  cbn [SF2Q]. destruct s; cbn [cond_Zopp]; [|reflexivity].
  change (Z.neg m) with (- Zpos m)%Z. apply dy_opp.
Qed.

Lemma SFmul_Rnd (x y : spec_float) :
  valid_binary x = true -> valid_binary y = true ->
  sf_finite x = true -> sf_finite y = true ->
  Rnd (SF2Q x * SF2Q y) (SFmul prec emax x y).
Proof.
  intros Vx Vy Fx Fy.
  destruct x as [sx | sx | | sx mx ex]; try discriminate;
  destruct y as [sy | sy | | sy my ey]; try discriminate; cbn [SFmul];
    try (apply (Rnd_compat 0); [cbn [SF2Q]; ring | apply (Rnd_exact (S754_zero _)); reflexivity]).
  cbn in Vx, Vy. apply bounded_inv in Vx as [Cx _]. apply bounded_inv in Vy as [Cy _].
  exists (xorb sx sy), (Zpos (mx * my)), (ex + ey)%Z, loc_Exact, (inject_Z (Zpos (mx * my))).
  split; [lia|]. split; [apply mul_round_pre; assumption|].
  split; [apply loc_val_exact|]. split; [|reflexivity].
  rewrite !SF2Q_finite_sign.
  change (inject_Z (Zpos (mx * my)) * pow2 (ex + ey)) with (dy (Zpos (mx * my)) (ex + ey)).
  pose proof (SFmul_finite_value sx sy mx my ex ey) as E.
  destruct sx, sy; cbn [xorb]; rewrite E; ring.
Qed.

(** *** Division *)

Lemma new_location_val (nb k q : Z) :
  (0 < nb)%Z -> (0 <= k < nb)%Z ->
  loc_val q (new_location nb k) (inject_Z q + inject_Z k / inject_Z nb).
Proof.
  intros Hnb [Hk0 Hk].
  assert (N : 0 < inject_Z nb) by (apply inject_Z_pos; exact Hnb).
  set (t := inject_Z k / inject_Z nb).
  assert (Ht : inject_Z k == t * inject_Z nb) by (subst t; field; lra).
  assert (Cmp : forall a b : Z, (2 * k + a < nb + b)%Z ->
                2 * inject_Z k + inject_Z a < inject_Z nb + inject_Z b).
  { intros a b H. change 2 with (inject_Z 2). rewrite <- inject_Z_mult, <- !inject_Z_plus.
    rewrite <- Zlt_Qlt. exact H. }
  assert (Lt : (2 * k < nb)%Z -> 0 < t -> loc_val q (loc_Inexact Lt) (inject_Z q + t)).
  { intros H Hp. pose proof (Cmp 0 0 ltac:(lia))%Z as C. change (inject_Z 0) with 0 in C.
    unfold loc_val, rec_val. cbn. split; [lra|]. nra. }
  assert (Gt : (nb < 2 * k)%Z -> loc_val q (loc_Inexact Gt) (inject_Z q + t)).
  { intros H.
    assert (C : inject_Z nb < 2 * inject_Z k).
    { change 2 with (inject_Z 2). rewrite <- inject_Z_mult, <- Zlt_Qlt. exact H. }
    assert (C' : inject_Z k < inject_Z nb) by (rewrite <- Zlt_Qlt; exact Hk).
    unfold loc_val, rec_val. cbn. split; nra. }
  assert (Hpos : k <> 0%Z -> 0 < t).
  { intros Hne. assert (0 < inject_Z k) by (apply inject_Z_pos; lia). nra. }
  unfold new_location, new_location_even, new_location_odd.
  destruct (Z.even nb) eqn:Ev; destruct (Z.eqb_spec k 0) as [Hz | Hnz].
  - subst k. unfold loc_val, rec_val. cbn. subst t. change (inject_Z 0) with 0. field. lra.
  - destruct (Z.compare_spec (2 * k) nb) as [He | Hl | Hg].
    + assert (C : 2 * inject_Z k == inject_Z nb).
      { change 2 with (inject_Z 2). rewrite <- inject_Z_mult, He. reflexivity. }
      unfold loc_val, rec_val. cbn. nra.
    + apply Lt; [exact Hl | apply Hpos; exact Hnz].
    + apply Gt; exact Hg.
  - subst k. unfold loc_val, rec_val. cbn. subst t. change (inject_Z 0) with 0. field. lra.
  - assert (Hodd : (2 * k)%Z <> nb).
    { intros H. rewrite <- H, Z.even_mul in Ev. discriminate. }
    destruct (Z.compare_spec (2 * k + 1) nb) as [He | Hl | Hg].
    + apply Lt; [lia | apply Hpos; exact Hnz].
    + apply Lt; [lia | apply Hpos; exact Hnz].
    + apply Gt; lia.
Qed.

(** The quotient computed by [SFdiv_core_binary] and its location stand for
    the exact quotient. *)
Lemma SFdiv_core_val (m1 m2 : positive) (e1 e2 : Z) :
  let '(q, e', l) := SFdiv_core_binary prec emax (Zpos m1) e1 (Zpos m2) e2 in
  (0 <= q)%Z /\ round_pre prec emax q e' /\
  loc_val q l (dy (Zpos m1) e1 / dy (Zpos m2) e2 * pow2 (- e')).
Proof.
  pose proof (SFdiv_core_spec m1 m2 e1 e2) as H. unfold SFdiv_core_binary in *.
  set (d1 := Zdigits2 (Zpos m1)) in *. set (d2 := Zdigits2 (Zpos m2)) in *.
  set (e' := Z.min (fexp prec emax (d1 + e1 - (d2 + e2))) (e1 - e2)) in *.
  set (s := (e1 - e2 - e')%Z) in *.
  assert (Hs : (0 <= s)%Z) by (subst s e'; lia).
  set (m' := match s with Zpos _ => Z.shiftl (Zpos m1) s | Z0 => Zpos m1 | Zneg _ => 0%Z end) in *.
  assert (Hm' : m' = (Zpos m1 * 2 ^ s)%Z) by (subst m'; apply shiftl_match; exact Hs).
  pose proof (Z_div_mod m' (Zpos m2) ltac:(lia)) as Hdm.
  destruct (Z.div_eucl m' (Zpos m2)) as [q r]. destruct Hdm as [Hdm Hr].
  destruct H as (x & Hq & Hpre & _ & _).
  split; [exact Hq|]. split; [exact Hpre|].
  assert (Hm2 : 0 < inject_Z (Zpos m2)) by (apply inject_Z_pos; lia).
  refine (rec_val_compat _ _ _ _ (new_location_val (Zpos m2) r q ltac:(lia) Hr)).
  assert (Hx : inject_Z m' / inject_Z (Zpos m2) == inject_Z q + inject_Z r / inject_Z (Zpos m2)).
  { rewrite Hdm, inject_Z_plus, inject_Z_mult. field. lra. }
  rewrite <- Hx, Hm'. unfold dy. rewrite inject_Z_mult, <- (pow2_Z s) by lia.
  assert (He1 : pow2 e1 * pow2 (- e') == pow2 s * pow2 e2).
  { rewrite <- !pow2_add. replace (e1 + - e')%Z with (s + e2)%Z by (subst s; lia). reflexivity. }
  pose proof (pow2_pos e2). pose proof (pow2_pos e1). pose proof (pow2_pos (- e')).
  pose proof (pow2_pos s).
  setoid_replace (inject_Z (Zpos m1) * pow2 e1 / (inject_Z (Zpos m2) * pow2 e2) * pow2 (- e'))
    with (inject_Z (Zpos m1) * (pow2 e1 * pow2 (- e')) / (inject_Z (Zpos m2) * pow2 e2))
    by (field; lra).
  rewrite He1. field. lra.
Qed.

Lemma SFdiv_Rnd (sx sy : bool) (mx my : positive) (ex ey : Z) :
  Rnd (SF2Q (S754_finite sx mx ex) / SF2Q (S754_finite sy my ey))
      (SFdiv prec emax (S754_finite sx mx ex) (S754_finite sy my ey)).
Proof.
  cbn [SFdiv]. pose proof (SFdiv_core_val mx my ex ey) as H.
  destruct (SFdiv_core_binary prec emax (Zpos mx) ex (Zpos my) ey) as [[q e'] l].
  destruct H as (Hq & Hpre & Hx).
  exists (xorb sx sy), q, e', l, (dy (Zpos mx) ex / dy (Zpos my) ey * pow2 (- e')).
  split; [exact Hq|]. split; [exact Hpre|]. split; [exact Hx|]. split; [|reflexivity].
  rewrite !SF2Q_finite_sign.
  pose proof (dy_pos (Zpos my) ey ltac:(lia)) as Py. pose proof (pow2_pos e') as Pe.
  assert (E : dy (Zpos mx) ex / dy (Zpos my) ey * pow2 (- e') * pow2 e' ==
              dy (Zpos mx) ex / dy (Zpos my) ey).
  { rewrite <- Qmult_assoc, <- pow2_add. replace (- e' + e')%Z with 0%Z by lia.
    unfold pow2 at 1. cbn. ring. }
  destruct sx, sy; cbn [xorb]; rewrite E; field; lra.
Qed.

(** *** Rounding to decimals *)

Lemma round_half_even_nearest (n e : Z) :
  (0 <= n)%Z -> nearest_even (dy n e) (round_half_even n e).
Proof.
  intros Hn. unfold round_half_even.
  destruct (Z.leb_spec 0 e) as [He | He].
  - left. rewrite (dy_rescale n 0 e), Z.sub_0_r, dy_0 by lia. lra.
  - set (d := (2 ^ (- e))%Z).
    assert (Hd : (0 < d)%Z) by (apply Z.pow_pos_nonneg; lia).
    pose proof (Z.div_mod n d ltac:(lia)) as Hdm.
    pose proof (Z.mod_pos_bound n d Hd) as Hr.
    set (q := (n / d)%Z) in *. set (r := (n mod d)%Z) in *.
    assert (D : 0 < inject_Z d) by (apply inject_Z_pos; exact Hd).
    assert (Hv : dy n e * inject_Z d == inject_Z q * inject_Z d + inject_Z r).
    { rewrite <- inject_Z_mult, <- inject_Z_plus. replace (q * d + r)%Z with n by lia.
      unfold dy. rewrite <- Qmult_assoc. subst d. rewrite <- pow2_Z by lia.
      rewrite <- pow2_add. replace (e + - e)%Z with 0%Z by lia. unfold pow2. cbn. ring. }
    assert (R0 : 0 <= inject_Z r) by (change 0 with (inject_Z 0); rewrite <- Zle_Qle; lia).
    assert (R1 : inject_Z r < inject_Z d) by (rewrite <- Zlt_Qlt; lia).
    destruct (Z.compare_spec (2 * r) d) as [Heq | Hlt | Hgt].
    + assert (C : 2 * inject_Z r == inject_Z d).
      { change 2 with (inject_Z 2). rewrite <- inject_Z_mult, Heq. reflexivity. }
      destruct (Z.even q) eqn:Ev.
      * right. split; [right; nra | exact Ev].
      * right. split.
        -- left. rewrite inject_Z_plus. change (inject_Z 1) with 1. nra.
        -- rewrite Z.even_add, Ev. reflexivity.
    + assert (C : 2 * inject_Z r < inject_Z d).
      { change 2 with (inject_Z 2). rewrite <- inject_Z_mult, <- Zlt_Qlt. exact Hlt. }
      left. split; nra.
    + assert (C : inject_Z d < 2 * inject_Z r).
      { change 2 with (inject_Z 2). rewrite <- inject_Z_mult, <- Zlt_Qlt. exact Hgt. }
      left. rewrite inject_Z_plus. change (inject_Z 1) with 1. split; nra.
Qed.

Lemma nearest_even_nonneg (v : Q) (k : Z) : 0 <= v -> nearest_even v k -> (0 <= k)%Z.
Proof.
  intros Hv H.
  assert (H1 : inject_Z (-1) < inject_Z k).
  { change (inject_Z (-1)) with (-1). destruct H as [[H1 H2] | [[H | H] _]]; lra. }
  rewrite <- Zlt_Qlt in H1. lia.
Qed.

Lemma sf_round_Rnd (x : spec_float) (nd : Z) :
  (0 <= nd)%Z -> sf_finite x = true -> Rnd (dec_round x nd) (sf_round x nd).
Proof.
  intros Hnd Fx. destruct x as [s | s | | s m e]; try discriminate.
  - cbn [sf_round dec_round]. apply (Rnd_exact (S754_zero s)); reflexivity.
  - cbn [sf_round dec_round].
    destruct (pow10_pos nd Hnd) as [p Hp]. rewrite Hp. cbn [Z2SF].
    pose proof (round_half_even_nearest (Zpos m * Zpos p) e ltac:(lia)) as N.
    pose proof (nearest_even_nonneg _ _
                  (Qlt_le_weak _ _ (dy_pos (Zpos m * Zpos p) e ltac:(lia))) N) as K0.
    destruct (round_half_even (Zpos m * Zpos p) e) as [| q | q]; try lia.
    + apply (Rnd_compat 0).
      * change (inject_Z 0) with 0. destruct s; unfold Qdiv; ring.
      * apply (Rnd_exact (S754_zero s)); reflexivity.
    + refine (Rnd_compat _ _ _ _ (SFdiv_Rnd s false q p 0 0)).
      pose proof (dy_0 (Zpos q)) as Dq. pose proof (dy_0 (Zpos p)) as Dp.
      assert (0 < inject_Z (Zpos p)) by (apply inject_Z_pos; lia).
      destruct s; cbn [SF2Q cond_Zopp]; change (Z.neg q) with (- Zpos q)%Z;
        rewrite ?dy_opp, Dq, Dp; field; lra.
Qed.

Lemma dec_round_mono (x1 x2 : spec_float) (nd : Z) :
  (0 <= nd)%Z -> sf_finite x1 = true -> sf_finite x2 = true ->
  SF2Q x1 <= SF2Q x2 -> dec_round x1 nd <= dec_round x2 nd.
Proof.
  intros Hnd F1 F2 Hle.
  destruct (pow10_pos nd Hnd) as [p Hp].
  assert (P : 0 < inject_Z (Zpos p)) by (apply inject_Z_pos; lia).
  assert (K : forall (m : positive) (e : Z),
            0 <= inject_Z (round_half_even (Zpos m * Zpos p) e) / inject_Z (Zpos p)).
  { intros m e.
    pose proof (round_half_even_nearest (Zpos m * Zpos p) e ltac:(lia)) as N.
    pose proof (nearest_even_nonneg _ _
                  (Qlt_le_weak _ _ (dy_pos (Zpos m * Zpos p) e ltac:(lia))) N) as K0.
    apply Qle_shift_div_l; [exact P|]. rewrite Qmult_0_l.
    change 0 with (inject_Z 0). rewrite <- Zle_Qle. exact K0. }
  assert (M : forall (m1 m2 : positive) (e1 e2 : Z),
            dy (Zpos m1) e1 <= dy (Zpos m2) e2 ->
            inject_Z (round_half_even (Zpos m1 * Zpos p) e1) / inject_Z (Zpos p) <=
            inject_Z (round_half_even (Zpos m2 * Zpos p) e2) / inject_Z (Zpos p)).
  { intros m1 m2 e1 e2 H.
    assert (Hk : (round_half_even (Zpos m1 * Zpos p) e1 <= round_half_even (Zpos m2 * Zpos p) e2)%Z).
    { apply (nearest_even_mono (dy (Zpos m1 * Zpos p) e1) (dy (Zpos m2 * Zpos p) e2));
        [|apply round_half_even_nearest; lia ..].
      unfold dy in *. rewrite !inject_Z_mult. nra. }
    apply Qle_shift_div_l; [exact P|].
    setoid_replace (inject_Z (round_half_even (Zpos m1 * Zpos p) e1) / inject_Z (Zpos p) *
                    inject_Z (Zpos p))
      with (inject_Z (round_half_even (Zpos m1 * Zpos p) e1)) by (field; lra).
    rewrite <- Zle_Qle. exact Hk. }
  destruct x1 as [s1 | s1 | | s1 m1 e1]; [| discriminate | discriminate |];
  (destruct x2 as [s2 | s2 | | s2 m2 e2]; [| discriminate | discriminate |]);
    cbn [dec_round]; rewrite ?Hp; rewrite ?SF2Q_finite_sign, ?SF2Q_zero in Hle.
  - apply Qle_refl.
  - pose proof (K m2 e2). pose proof (dy_pos (Zpos m2) e2 ltac:(lia)). destruct s2; lra.
  - pose proof (K m1 e1). pose proof (dy_pos (Zpos m1) e1 ltac:(lia)). destruct s1; lra.
  - pose proof (K m1 e1). pose proof (K m2 e2).
    pose proof (dy_pos (Zpos m1) e1 ltac:(lia)). pose proof (dy_pos (Zpos m2) e2 ltac:(lia)).
    destruct s1, s2.
    + pose proof (M m2 m1 e2 e1 ltac:(lra)). lra.
    + lra.
    + lra.
    + apply M. exact Hle.
Qed.

Local Open Scope Z_scope.

(* ================================================================== *)
(** * Part III: the claims *)
(* ================================================================== *)

Local Open Scope Z_scope.

(** ** Step 5: the confidence score *)

Lemma clamp_min_max (x : Z) : Z.min (Z.max x 50) 95 = clamp x 50 95.
Proof.
  unfold clamp. destruct (Z.ltb_spec x 50), (Z.ltb_spec 95 x); lia.
Qed.

Lemma clamp_range (x : Z) : 50 <= clamp x 50 95 <= 95.
Proof.
  unfold clamp. destruct (Z.ltb_spec x 50), (Z.ltb_spec 95 x); lia.
Qed.

(** On a finite float the inner expression returns the floor of the spec's
    sum, an integer between 80 and 85. *)
Lemma confidence_unclamped_float (f : float) :
  is_finite f = true ->
  exists i, confidence_unclamped (NFloat f) = ret i /\
            i = float_floor (80 + nonneg_mod f 5) /\ 80 <= i <= 85.
Proof.
  intros Ff. unfold confidence_unclamped, py_mod. cbn [to_float].
  rewrite float_of_int_5. cbn [bind ret].
  destruct (float_rem_5 f Ff) as (r & Hr & Fr & Hlo & Hhi & Hsum).
  rewrite Hr. cbn [bind ret].
  unfold py_add, py_arith. cbn [to_float]. rewrite float_of_int_80. cbn [bind ret].
  destruct (add_80 r Fr Hlo Hhi) as (m & e & Hp & H80 & H85).
  unfold py_int. rewrite Hp. cbn [cond_Zopp].
  exists (Z.shiftl (Zpos m) e). split; [reflexivity|]. split.
  - unfold float_floor. rewrite <- Hsum, Hp. reflexivity.
  - apply shiftl_bounds; assumption.
Qed.

Lemma confidence_unclamped_int (z : Z) :
  confidence_unclamped (NInt z) = ret (80 + z mod 5) /\ 80 <= 80 + z mod 5 <= 84.
Proof.
  split; [reflexivity|]. pose proof (Z.mod_pos_bound z 5 ltac:(lia)). lia.
Qed.

Section ConfidenceClaims.
Context {rt : PyRuntime}.

(** The confidence the handler reports is the confidence of its final
    estimate, the one the planting-date step leaves. *)
Lemma predict_core_confidence (crop : string) (temp rainfall : float)
    (planting_date_str : json) (now : datetime) (y : num) (c : Z) :
  weather_adjusted crop temp rainfall = ret y ->
  confidence (adjust_planting planting_date_str now y) = ret c ->
  exists r,
    predict_core crop temp rainfall planting_date_str now = ret r /\ yr_confidence r = c.
Proof.
  intros Hy Hc. unfold predict_core. rewrite Hy. cbn [bind ret]. rewrite Hc. cbn [bind ret].
  eexists. split; reflexivity.
Qed.

(** C1. For every yield estimate that is a finite number, the confidence
    computed from it is [clamp(floor(80 + (yield_estimate mod 5)), 50, 95)]
    with the remainder normalised to be non-negative, and it is an integer
    between 50 and 95. This is the confidence of the handler's answer: every
    request whose final estimate, after the weather steps and the
    planting-date step, is that number is answered, and the answer carries
    this confidence. *)
Theorem confidence_matches_spec (yield_estimate : num) :
  num_finite yield_estimate = true ->
  confidence yield_estimate = ret (confidence_spec yield_estimate) /\
  50 <= confidence_spec yield_estimate <= 95 /\
  (forall (crop : string) (temp rainfall : float) (planting_date_str : json)
          (now : datetime) (y : num),
     weather_adjusted crop temp rainfall = ret y ->
     adjust_planting planting_date_str now y = yield_estimate ->
     exists r,
       predict_core crop temp rainfall planting_date_str now = ret r /\
       yr_confidence r = confidence_spec yield_estimate).
Proof.
  intros Hfin.
  assert (Hconf : confidence yield_estimate = ret (confidence_spec yield_estimate)).
  { unfold confidence. destruct yield_estimate as [z | f].
    - destruct (confidence_unclamped_int z) as [-> _]. cbn [bind ret confidence_spec].
      rewrite clamp_min_max. reflexivity.
    - destruct (confidence_unclamped_float f Hfin) as (i & -> & Hi & _).
      cbn [bind ret confidence_spec]. rewrite clamp_min_max, Hi. reflexivity. }
  split; [exact Hconf|]. split.
  - destruct yield_estimate; apply clamp_range.
  - intros crop temp rainfall planting_date_str now y Hy Hfinal.
    apply (predict_core_confidence crop temp rainfall planting_date_str now y _ Hy).
    rewrite Hfinal. exact Hconf.
Qed.

(** C9, as amended. For every yield estimate that is a finite number the
    inner expression [int(80 + (yield_estimate % 5))] is an integer between
    80 and 85, so the clamp to [50, 95] leaves it unchanged; it is the
    confidence of the answer to every request with that final estimate. *)
Theorem confidence_between_80_and_85 (yield_estimate : num) :
  num_finite yield_estimate = true ->
  exists i, confidence_unclamped yield_estimate = ret i /\
            confidence yield_estimate = ret i /\ 80 <= i <= 85 /\
            (forall (crop : string) (temp rainfall : float) (planting_date_str : json)
                    (now : datetime) (y : num),
               weather_adjusted crop temp rainfall = ret y ->
               adjust_planting planting_date_str now y = yield_estimate ->
               exists r,
                 predict_core crop temp rainfall planting_date_str now = ret r /\
                 yr_confidence r = i).
Proof.
  intros Hfin.
  assert (H : exists i, confidence_unclamped yield_estimate = ret i /\
                        confidence yield_estimate = ret i /\ 80 <= i <= 85).
  { unfold confidence. destruct yield_estimate as [z | f].
    - destruct (confidence_unclamped_int z) as [H Hb]. rewrite H.
      exists (80 + z mod 5). cbn [bind ret]. repeat split; try lia. f_equal. lia.
    - destruct (confidence_unclamped_float f Hfin) as (i & H & _ & Hb). rewrite H.
      exists i. cbn [bind ret]. repeat split; try lia. f_equal. lia. }
  destruct H as (i & Hu & Hc & Hb). exists i.
  split; [exact Hu|]. split; [exact Hc|]. split; [exact Hb|].
  intros crop temp rainfall planting_date_str now y Hy Hfinal.
  apply (predict_core_confidence crop temp rainfall planting_date_str now y _ Hy).
  rewrite Hfinal. exact Hc.
Qed.

End ConfidenceClaims.

Lemma confidence_matches_spec_witness :
  num_finite (NFloat (-7.5)) = true /\
  (confidence (NFloat (-7.5)) = ret (confidence_spec (NFloat (-7.5))) /\
   50 <= confidence_spec (NFloat (-7.5)) <= 95 /\
   (forall (crop : string) (temp rainfall : float) (planting_date_str : json)
           (now : datetime) (y : num),
      weather_adjusted crop temp rainfall = ret y ->
      adjust_planting (rt := ascii_runtime) planting_date_str now y = NFloat (-7.5) ->
      exists r,
        predict_core (rt := ascii_runtime) crop temp rainfall planting_date_str now = ret r /\
        yr_confidence r = confidence_spec (NFloat (-7.5)))) /\
  confidence (NFloat (-7.5)) = ret 82 /\
  weather_adjusted "wheat" 82.5 50 = ret (NFloat (-7.5)) /\
  adjust_planting (rt := ascii_runtime) JNull {| dt_day := 738956; dt_us := 5 |} (NFloat (-7.5))
    = NFloat (-7.5).
Proof.
  split; [reflexivity|]. split; [|repeat split; reflexivity].
  apply (confidence_matches_spec (rt := ascii_runtime) (NFloat (-7.5))). reflexivity.
Defined.

Lemma confidence_between_80_and_85_witness :
  num_finite (NFloat 2) = true /\
  exists i, confidence_unclamped (NFloat 2) = ret i /\
            confidence (NFloat 2) = ret i /\ 80 <= i <= 85 /\
            (forall (crop : string) (temp rainfall : float) (planting_date_str : json)
                    (now : datetime) (y : num),
               weather_adjusted crop temp rainfall = ret y ->
               adjust_planting (rt := ascii_runtime) planting_date_str now y = NFloat 2 ->
               exists r,
                 predict_core (rt := ascii_runtime) crop temp rainfall planting_date_str now
                   = ret r /\
                 yr_confidence r = i).
Proof.
  split; [reflexivity|].
  apply (confidence_between_80_and_85 (rt := ascii_runtime) (NFloat 2)). reflexivity.
Defined.

(** C9, the counterexample. Rice at a temperature one unit in the last place
    below 22 and rainfall 100 has the finite estimate 4.9999999999999991;
    [80 + 4.9999999999999991] rounds to 85.0, so the confidence is 85, above
    the claimed 84. *)
Lemma confidence_85_reached :
  weather_adjusted "rice" 21.999999999999996 100 = ret (NFloat 4.9999999999999991) /\
  num_finite (NFloat 4.9999999999999991) = true /\
  confidence (NFloat 4.9999999999999991) = ret 85 /\
  84 < 85.
Proof.
  repeat split; vm_compute; reflexivity.
Qed.

(** ** Mixed comparison and arithmetic against exact int constants *)

Lemma SFcompare_antisym (x y : spec_float) :
  valid_binary x = true -> valid_binary y = true ->
  SFcompare y x = option_map CompOpp (SFcompare x y).
Proof.
  intros Vx Vy.
  destruct (sf_finite x) eqn:Fx, (sf_finite y) eqn:Fy.
  - rewrite !SFcompare_Q by assumption. cbn [option_map].
    rewrite <- Qcompare_antisym. reflexivity.
  - destruct x as [sx | sx | | sx mx ex]; try discriminate;
      destruct y as [sy | sy | | sy my ey]; try discriminate;
      try reflexivity; destruct sy; reflexivity.
  - destruct x as [sx | sx | | sx mx ex]; try discriminate;
      destruct y as [sy | sy | | sy my ey]; try discriminate;
      try reflexivity; destruct sx; reflexivity.
  - destruct x as [sx | sx | | sx mx ex]; try discriminate;
      destruct y as [sy | sy | | sy my ey]; try discriminate;
      try reflexivity; destruct sx, sy; reflexivity.
Qed.

Lemma float_int_compare_exact (f c : float) (z : Z) :
  exact_const z c ->
  float_int_compare f z = SFcompare (Prim2SF f) (Prim2SF c).
Proof.
  intros (_ & Fc & Hc). unfold float_int_compare.
  pose proof (valid_Prim2SF f) as Vf. pose proof (valid_Prim2SF c) as Vc.
  destruct (Prim2SF f) as [s | s | | s m e] eqn:Ef.
  - rewrite SFcompare_Q by (assumption || reflexivity). rewrite Hc. reflexivity.
  - destruct (Prim2SF c); try discriminate; reflexivity.
  - reflexivity.
  - rewrite SFcompare_Q by (assumption || reflexivity). rewrite Hc. reflexivity.
Qed.

Lemma py_lt_float_int (f c : float) (z : Z) :
  exact_const z c -> py_lt (NFloat f) (NInt z) = (f <? c)%float.
Proof.
  intros Hc. unfold py_lt, py_compare.
  rewrite (float_int_compare_exact f c z Hc), ltb_spec. reflexivity.
Qed.

Lemma py_gt_float_int (f c : float) (z : Z) :
  exact_const z c -> py_gt (NFloat f) (NInt z) = (c <? f)%float.
Proof.
  intros Hc. unfold py_gt, py_lt, py_compare.
  rewrite (float_int_compare_exact f c z Hc), ltb_spec. unfold SFltb.
  rewrite (SFcompare_antisym (Prim2SF f) (Prim2SF c)) by apply valid_Prim2SF.
  reflexivity.
Qed.

Lemma convertible_float (f : float) : convertible (NFloat f).
Proof. reflexivity. Qed.

Lemma py_sub_float (y : num) (p : float) :
  convertible y -> py_sub y (NFloat p) = ret (NFloat (num_float y - p)).
Proof.
  intros Hy. unfold py_sub, py_arith.
  destruct y as [z | f]; cbn [to_float] in *.
  - unfold convertible in Hy. cbn [to_float] in Hy. rewrite Hy. reflexivity.
  - reflexivity.
Qed.

Lemma py_mul_float (y : num) (c : float) :
  convertible y -> py_mul y (NFloat c) = ret (NFloat (num_float y * c)).
Proof.
  intros Hy. unfold py_mul, py_arith.
  destruct y as [z | f]; cbn [to_float] in *.
  - unfold convertible in Hy. cbn [to_float] in Hy. rewrite Hy. reflexivity.
  - reflexivity.
Qed.

(** One adjustment step of the handler is the spec's penalty. *)
Lemma adjust_step (lo hi : Z) (flo fhi v rate : float) (y : num) :
  exact_const lo flo -> exact_const hi fhi -> convertible y ->
  (if py_lt (NFloat v) (NInt lo) then
     d <- py_sub (NInt lo) (NFloat v) ;; p <- py_mul d (NFloat rate) ;; py_sub y p
   else if py_gt (NFloat v) (NInt hi) then
     d <- py_sub (NFloat v) (NInt hi) ;; p <- py_mul d (NFloat rate) ;; py_sub y p
   else ret y)
  = ret (spec_penalty (flo, fhi) v rate y).
Proof.
  intros Hlo Hhi Hy.
  rewrite (py_lt_float_int v flo lo Hlo), (py_gt_float_int v fhi hi Hhi).
  unfold spec_penalty.
  destruct Hlo as (Clo & _ & _). destruct Hhi as (Chi & _ & _).
  destruct (v <? flo)%float.
  - unfold py_sub at 1, py_arith. cbn [to_float]. rewrite Clo. cbn [bind ret].
    unfold py_mul, py_arith. cbn [to_float bind ret].
    apply py_sub_float. exact Hy.
  - destruct (fhi <? v)%float; [|reflexivity].
    unfold py_sub at 1, py_arith. cbn [to_float]. rewrite Chi. cbn [bind ret].
    unfold py_mul, py_arith. cbn [to_float bind ret].
    apply py_sub_float. exact Hy.
Qed.

Lemma spec_penalty_convertible (range : float * float) (v rate : float) (y : num) :
  convertible y -> convertible (spec_penalty range v rate y).
Proof.
  intros Hy. unfold spec_penalty. destruct range as [lo hi].
  destruct (v <? lo)%float; [apply convertible_float|].
  destruct (hi <? v)%float; [apply convertible_float | exact Hy].
Qed.

Lemma spec_base_convertible (k : crop_kind) : convertible (spec_base_yield k).
Proof. destruct k; reflexivity. Qed.

(** The four rows of the tables. *)
Lemma crop_tables (crop : string) :
  table_get base_yield crop (NFloat 3.5) = spec_base_yield (crop_kind_of crop) /\
  (exists lo hi, table_get ideal_temp crop (20, 30) = (lo, hi) /\
     exact_const lo (fst (spec_temp_range (crop_kind_of crop))) /\
     exact_const hi (snd (spec_temp_range (crop_kind_of crop)))) /\
  (exists lo hi, table_get optimal_rainfall crop (50, 100) = (lo, hi) /\
     exact_const lo (fst (spec_rain_range (crop_kind_of crop))) /\
     exact_const hi (snd (spec_rain_range (crop_kind_of crop)))).
Proof.
  unfold crop_kind_of, base_yield, ideal_temp, optimal_rainfall. cbn [table_get].
  destruct (String.eqb crop "wheat");
    [|destruct (String.eqb crop "rice"); [|destruct (String.eqb crop "maize")]];
    (split; [reflexivity|]);
    (split; eexists; eexists; (split; [reflexivity|]); split; exact_const_tac).
Qed.

(** Steps 1 to 3 of the handler compute the spec's adjusted estimate. *)
Lemma weather_adjusted_spec (crop : string) (temp rainfall : float) :
  weather_adjusted crop temp rainfall = ret (spec_weather_adjusted crop temp rainfall).
Proof.
  unfold weather_adjusted, spec_weather_adjusted, adjust_temperature, adjust_rainfall.
  destruct (crop_tables crop) as (Hb & (tlo & thi & Ht & Htlo & Hthi) & (rlo & rhi & Hr & Hrlo & Hrhi)).
  rewrite Hb, Ht, Hr.
  rewrite (adjust_step tlo thi _ _ temp 0.2 _ Htlo Hthi (spec_base_convertible _)).
  cbn [bind ret].
  rewrite (adjust_step rlo rhi _ _ rainfall 0.1 _ Hrlo Hrhi).
  - destruct (spec_temp_range (crop_kind_of crop)), (spec_rain_range (crop_kind_of crop)).
    reflexivity.
  - apply spec_penalty_convertible, spec_base_convertible.
Qed.

Section PredictClaims.
Context {rt : PyRuntime}.

(** C3. For every crop, temperature and rainfall, the estimate after the
    temperature and rainfall steps is the base yield of the crop's row
    (wheat 4, rice 5, maize 4.5, otherwise 3.5) less the spec's penalties:
    [(min - temp) * 0.2] below the ideal temperature range (wheat 18-25, rice
    22-30, maize 20-28, otherwise 20-30), [(temp - max) * 0.2] above it,
    nothing inside it, and the same with rate 0.1 for the optimal rainfall
    range (wheat 40-60, rice 80-120, maize 50-90, otherwise 50-100). For wheat
    at temperature 30 and rainfall 30 with no planting date the predicted
    yield is 2.0 and the confidence 82. *)
Theorem penalties_match_spec :
  (forall (crop : string) (temp rainfall : float),
     weather_adjusted crop temp rainfall = ret (spec_weather_adjusted crop temp rainfall)) /\
  (forall now : datetime,
     predict_core "wheat" 30 30 JNull now =
       ret {| yr_predicted_yield := NFloat 2; yr_confidence := 82;
              yr_tips := [("Ideal soil for " ++ str_capitalize "wheat" ++ " detected 🌱")%string;
                          "Weather conditions suggest moderate growth potential"%string] |}) /\
  (forall now : datetime,
     predict (rt := ascii_runtime)
       (JObj [("crop_type", JStr "wheat"); ("temperature", JInt 30); ("rainfall", JInt 30)]%string)
       now =
     ret {| status := 200;
            body := JObj [("predicted_yield", JFloat 2); ("confidence", JInt 82);
                          ("tips", JArr [JStr "Ideal soil for Wheat detected 🌱";
                                         JStr "Weather conditions suggest moderate growth potential"])]%string |}).
Proof.
  split; [exact weather_adjusted_spec|]. split; intros now; vm_compute; reflexivity.
Qed.

End PredictClaims.

(** ** The planting date, and requests inside the ideal ranges *)

Lemma leb_not_ltb (a b : float) : (a <=? b)%float = true -> (b <? a)%float = false.
Proof.
  rewrite leb_spec, ltb_spec. unfold SFleb, SFltb.
  rewrite (SFcompare_antisym (Prim2SF a) (Prim2SF b)) by apply valid_Prim2SF.
  destruct (SFcompare (Prim2SF a) (Prim2SF b)) as [[] |]; cbn; congruence.
Qed.

Lemma spec_penalty_in_range (range : float * float) (v rate : float) (y : num) :
  in_range range v = true -> spec_penalty range v rate y = y.
Proof.
  unfold in_range, spec_penalty. destruct range as [lo hi]. cbn [fst snd].
  intros H. apply andb_true_iff in H as [H1 H2].
  rewrite (leb_not_ltb lo v H1), (leb_not_ltb v hi H2). reflexivity.
Qed.

Lemma lookup_remove_key_same (k : string) (kvs : list (string * json)) :
  lookup k (remove_key k kvs) = None.
Proof.
  induction kvs as [| [k' v] rest IH]; cbn; [reflexivity|].
  destruct (String.eqb k k') eqn:E; [exact IH|]. cbn. rewrite E. exact IH.
Qed.

Lemma lookup_remove_key_other (k k' : string) (kvs : list (string * json)) :
  String.eqb k k' = false -> lookup k (remove_key k' kvs) = lookup k kvs.
Proof.
  intros Hne. induction kvs as [| [k0 v] rest IH]; cbn; [reflexivity|].
  destruct (String.eqb k' k0) eqn:E.
  - apply String.eqb_eq in E. subst k0. rewrite Hne. exact IH.
  - cbn. rewrite IH. reflexivity.
Qed.

(** [request.get_json() or {}] on a dict. *)
Lemma data_of_dict (kvs : list (string * json)) :
  (if truthy (JObj kvs) then JObj kvs else JObj []) = JObj kvs.
Proof. destruct kvs; reflexivity. Qed.

Section DateClaims.
Context {rt : PyRuntime}.

Lemma truthy_parsed (s : string) (d : datetime) :
  strptime_dmy s = Some d -> truthy (JStr s) = true.
Proof.
  intros H. cbn. destruct (String.eqb_spec s ""%string) as [-> | Hne]; [|reflexivity].
  rewrite strptime_empty in H. discriminate.
Qed.

Lemma adjust_planting_parsed (s : string) (d now : datetime) (y : num) :
  strptime_dmy s = Some d -> convertible y ->
  adjust_planting (JStr s) now y = spec_aged (timedelta_days now d) y.
Proof.
  intros Hs Hy. unfold adjust_planting. rewrite (truthy_parsed s d Hs).
  unfold planting_try, strptime. rewrite Hs. cbn [bind ret]. unfold spec_aged.
  destruct (timedelta_days now d <? 60).
  - rewrite (py_mul_float y _ Hy). reflexivity.
  - destruct (180 <? timedelta_days now d); [|reflexivity].
    rewrite (py_mul_float y _ Hy). reflexivity.
Qed.

Lemma adjust_planting_unparsable (v : json) (now : datetime) (y : num) (e : exn) :
  strptime v = inr e -> adjust_planting v now y = y.
Proof.
  intros H. unfold adjust_planting, planting_try. rewrite H. cbn [bind].
  destruct (truthy v); reflexivity.
Qed.

(** C4. For every request whose planting date parses, with [d] the whole
    days elapsed from that date to now and [y] the estimate after the
    temperature and rainfall steps: the estimate becomes [y * 0.8] when
    [d < 60], [y * 0.9] when [d > 180], and stays [y] when [60 <= d <= 180];
    the predicted yield is that estimate rounded to two decimals. *)
Theorem planting_date_ageing (crop : string) (temp rainfall : float) (s : string)
    (planting_date now : datetime) :
  strptime_dmy s = Some planting_date ->
  let d := timedelta_days now planting_date in
  exists y : num,
    weather_adjusted crop temp rainfall = ret y /\
    (d < 60 -> adjust_planting (JStr s) now y = NFloat (num_float y * 0.8)) /\
    (180 < d -> adjust_planting (JStr s) now y = NFloat (num_float y * 0.9)) /\
    (60 <= d <= 180 -> adjust_planting (JStr s) now y = y) /\
    (forall r, predict_core crop temp rainfall (JStr s) now = ret r ->
               yr_predicted_yield r = py_round (adjust_planting (JStr s) now y) 2).
Proof.
  intros Hs d. exists (spec_weather_adjusted crop temp rainfall).
  assert (Hy : convertible (spec_weather_adjusted crop temp rainfall))
    by (apply spec_penalty_convertible, spec_penalty_convertible, spec_base_convertible).
  pose proof (adjust_planting_parsed s planting_date now _ Hs Hy) as Ha.
  fold d in Ha. unfold spec_aged in Ha.
  split; [apply weather_adjusted_spec|]. repeat split.
  - intros Hd. rewrite Ha. destruct (Z.ltb_spec d 60); [reflexivity | lia].
  - intros Hd. rewrite Ha. destruct (Z.ltb_spec d 60); [lia|].
    destruct (Z.ltb_spec 180 d); [reflexivity | lia].
  - intros Hd. rewrite Ha. destruct (Z.ltb_spec d 60); [lia|].
    destruct (Z.ltb_spec 180 d); [lia | reflexivity].
  - intros r. unfold predict_core. rewrite weather_adjusted_spec. cbn [bind ret].
    destruct (confidence _); [|discriminate]. intros H. injection H as <-. reflexivity.
Qed.

(** C6. For every request whose [planting_date] does not parse (it is not a
    string, or [strptime] rejects it), the handler answers exactly as for the
    same request without the [planting_date] key: no error comes from the
    date. *)
Theorem unparsable_date_is_ignored (kvs : list (string * json)) (v : json) (e : exn)
    (now : datetime) :
  lookup "planting_date" kvs = Some v ->
  strptime v = inr e ->
  predict (JObj kvs) now = predict (JObj (remove_key "planting_date" kvs)) now.
Proof.
  intros Hv He. unfold predict. rewrite !data_of_dict. unfold dict_get.
  rewrite !lookup_remove_key_other by reflexivity.
  rewrite lookup_remove_key_same, Hv. cbn [bind ret].
  destruct (lower _) as [crop |]; [|reflexivity]. cbn [bind].
  destruct (py_float _) as [temp |]; [|reflexivity]. cbn [bind].
  destruct (py_float _) as [rainfall |]; [|reflexivity]. cbn [bind].
  unfold predict_core.
  destruct (weather_adjusted crop temp rainfall) as [y |]; [|reflexivity]. cbn [bind].
  rewrite (adjust_planting_unparsable v now y e He). reflexivity.
Qed.

End DateClaims.

Lemma planting_date_ageing_witness :
  strptime_dmy "01-03-2024" = Some {| dt_day := 738946; dt_us := 0 |} /\
  exists y : num,
    weather_adjusted "maize" 25 50 = ret y /\
    (10 < 60 -> adjust_planting (JStr "01-03-2024") {| dt_day := 738956; dt_us := 5 |} y
                = NFloat (num_float y * 0.8)).
Proof.
  split; [reflexivity|].
  destruct (planting_date_ageing (rt := ascii_runtime) "maize" 25 50 "01-03-2024"
              {| dt_day := 738946; dt_us := 0 |} {| dt_day := 738956; dt_us := 5 |} eq_refl)
    as (y & Hy & H60 & _).
  exists y. split; [exact Hy | exact H60].
Defined.

Lemma unparsable_date_is_ignored_witness :
  lookup "planting_date" [("crop_type", JStr "maize"); ("planting_date", JStr "not-a-date")]%string
    = Some (JStr "not-a-date") /\
  strptime (JStr "not-a-date") = inr ValueError /\
  predict (JObj [("crop_type", JStr "maize"); ("planting_date", JStr "not-a-date")]%string)
          {| dt_day := 738956; dt_us := 5 |}
  = predict (JObj [("crop_type", JStr "maize")]%string) {| dt_day := 738956; dt_us := 5 |}.
Proof.
  split; [reflexivity|]. split; [reflexivity|].
  exact (unparsable_date_is_ignored (rt := ascii_runtime)
           [("crop_type", JStr "maize"); ("planting_date", JStr "not-a-date")]%string
           (JStr "not-a-date") ValueError {| dt_day := 738956; dt_us := 5 |} eq_refl eq_refl).
Defined.

(** ** Requests inside both ranges *)

Lemma base_yield_rounds_to_itself (k : crop_kind) :
  py_round (spec_base_yield k) 2 = spec_base_yield k /\
  exists c, confidence (spec_base_yield k) = ret c.
Proof.
  destruct k; (split; [vm_compute; reflexivity | eexists; vm_compute; reflexivity]).
Qed.

Lemma spec_weather_adjusted_in_range (crop : string) (temp rainfall : float) :
  in_range (spec_temp_range (crop_kind_of crop)) temp = true ->
  in_range (spec_rain_range (crop_kind_of crop)) rainfall = true ->
  spec_weather_adjusted crop temp rainfall = spec_base_yield (crop_kind_of crop).
Proof.
  intros Ht Hr. unfold spec_weather_adjusted.
  rewrite (spec_penalty_in_range _ temp _ _ Ht), (spec_penalty_in_range _ rainfall _ _ Hr).
  reflexivity.
Qed.

Section BaseClaims.
Context {rt : PyRuntime}.

(** C7. For every request whose crop type, lower-cased, selects a row of the
    tables (wheat, rice, maize, or the default row for an unknown or absent
    crop type), whose temperature lies inside that row's ideal temperature
    range and whose rainfall lies inside its optimal rainfall range, and which
    carries no planting date, the handler returns the row's base yield itself
    as predicted yield: wheat 4, rice 5, maize 4.5, default 3.5. The crop type
    reaches the tables only through [lower], and an absent crop type selects
    the default row. *)
Theorem in_range_yield_is_base (crop_type : option string) (temp rainfall : float)
    (now : datetime) :
  let crop := str_lower (match crop_type with Some c => c | None => EmptyString end) in
  let k := crop_kind_of crop in
  in_range (spec_temp_range k) temp = true ->
  in_range (spec_rain_range k) rainfall = true ->
  (exists c,
     predict (yield_request crop_type temp rainfall) now =
       ret (jsonify_yield
              {| yr_predicted_yield := spec_base_yield k; yr_confidence := c;
                 yr_tips := [("Ideal soil for " ++ str_capitalize crop ++ " detected 🌱")%string;
                             "Weather conditions suggest moderate growth potential"%string] |})) /\
  table_get base_yield crop (NFloat 3.5) = spec_base_yield k /\
  (crop_type = None -> k = OtherCrop).
Proof.
  intros crop k Ht Hr. split; [|split].
  - destruct (base_yield_rounds_to_itself k) as [Hround [c Hc]]. exists c.
    assert (Hp : predict_core crop temp rainfall JNull now =
                 ret {| yr_predicted_yield := spec_base_yield k; yr_confidence := c;
                        yr_tips := [("Ideal soil for " ++ str_capitalize crop ++ " detected 🌱")%string;
                                    "Weather conditions suggest moderate growth potential"%string] |}).
    { unfold predict_core. rewrite weather_adjusted_spec. cbn [bind ret].
      rewrite (spec_weather_adjusted_in_range crop temp rainfall Ht Hr).
      cbn [adjust_planting truthy]. fold k. rewrite Hc. cbn [bind ret]. rewrite Hround.
      reflexivity. }
    unfold predict, yield_request. rewrite data_of_dict.
    destruct crop_type as [c0 |]; cbn [app dict_get lookup String.eqb Ascii.eqb Bool.eqb bind ret lower py_float];
      fold crop; rewrite Hp; reflexivity.
  - apply crop_tables.
  - intros ->. subst k crop. rewrite str_lower_empty. reflexivity.
Qed.

End BaseClaims.

Lemma in_range_yield_is_base_witness :
  in_range (spec_temp_range (crop_kind_of (ascii_lower "WHEAT"))) 20 = true /\
  in_range (spec_rain_range (crop_kind_of (ascii_lower "WHEAT"))) 50 = true /\
  exists c,
    predict (rt := ascii_runtime) (yield_request (Some "WHEAT"%string) 20 50)
            {| dt_day := 738956; dt_us := 5 |} =
      ret (jsonify_yield
             {| yr_predicted_yield := NInt 4; yr_confidence := c;
                yr_tips := ["Ideal soil for Wheat detected 🌱"%string;
                            "Weather conditions suggest moderate growth potential"%string] |}).
Proof.
  split; [reflexivity|]. split; [reflexivity|].
  exact (proj1 (in_range_yield_is_base (rt := ascii_runtime) (Some "WHEAT"%string) 20 50
                  {| dt_day := 738956; dt_us := 5 |} eq_refl eq_refl)).
Defined.

(** ** Errors of the two handlers *)

Lemma bind_inl {A B : Type} (m : res A) (k : A -> res B) (b : B) :
  bind m k = inl b -> exists a, m = inl a /\ k a = inl b.
Proof.
  destruct m as [a | e]; cbn; [|discriminate]. intros H. exists a. split; [reflexivity | exact H].
Qed.

Lemma lookup_cons_other (k k' : string) (v : json) (kvs : list (string * json)) :
  String.eqb k k' = false -> lookup k ((k', v) :: kvs) = lookup k kvs.
Proof. intros H. cbn. rewrite H. reflexivity. Qed.

Section ErrorClaims.
Context {rt : PyRuntime}.

Lemma lower_crop_type (kvs : list (string * json)) :
  crop_type_ok kvs ->
  exists crop,
    lower (match lookup "crop_type" kvs with Some v => v | None => JStr "" end) = ret crop.
Proof.
  intros [H | [s H]]; rewrite H; eexists; reflexivity.
Qed.

(** C8, as amended. The handler of [/predict] has no handled error answer:
    whatever it returns has status 200. A request whose [temperature] (or,
    the temperature converting, whose [rainfall]) is present but rejected by
    [float] (null, a list, a dict, a string that is no number) fails with
    that uncaught error and returns nothing. A request in which the field is
    missing does not fail on it: it is answered as the same request with
    temperature 25, respectively rainfall 50. *)
Theorem predict_error_behaviour :
  (forall (request : json) (now : datetime) (resp : response),
     predict request now = ret resp -> status resp = 200) /\
  (forall (kvs : list (string * json)) (now : datetime) (v : json) (e : exn),
     crop_type_ok kvs ->
     lookup "temperature" kvs = Some v -> py_float v = raise e ->
     predict (JObj kvs) now = raise e) /\
  (forall (kvs : list (string * json)) (now : datetime) (v : json) (e : exn) (temp : float),
     crop_type_ok kvs ->
     py_float (match lookup "temperature" kvs with Some t => t | None => JInt 25 end) = ret temp ->
     lookup "rainfall" kvs = Some v -> py_float v = raise e ->
     predict (JObj kvs) now = raise e) /\
  (forall (kvs : list (string * json)) (now : datetime),
     lookup "temperature" kvs = None ->
     predict (JObj kvs) now = predict (JObj (("temperature"%string, JInt 25) :: kvs)) now) /\
  (forall (kvs : list (string * json)) (now : datetime),
     lookup "rainfall" kvs = None ->
     predict (JObj kvs) now = predict (JObj (("rainfall"%string, JInt 50) :: kvs)) now).
Proof.
  repeat split.
  - intros request now resp H. unfold predict in H.
    repeat (apply bind_inl in H; destruct H as (? & _ & H)).
    injection H as <-. reflexivity.
  - intros kvs now v e Hc Hv He. unfold predict. rewrite data_of_dict. unfold dict_get.
    cbn [bind ret]. destruct (lower_crop_type kvs Hc) as [crop ->]. cbn [bind ret].
    rewrite Hv, He. reflexivity.
  - intros kvs now v e temp Hc Ht Hv He. unfold predict. rewrite data_of_dict. unfold dict_get.
    cbn [bind ret]. destruct (lower_crop_type kvs Hc) as [crop ->]. cbn [bind ret].
    rewrite Ht. cbn [bind ret]. rewrite Hv, He. reflexivity.
  - intros kvs now H. unfold predict. rewrite !data_of_dict. unfold dict_get.
    rewrite !lookup_cons_other by reflexivity. cbn [lookup String.eqb Ascii.eqb Bool.eqb].
    rewrite H. reflexivity.
  - intros kvs now H. unfold predict. rewrite !data_of_dict. unfold dict_get.
    rewrite !lookup_cons_other by reflexivity. cbn [lookup String.eqb Ascii.eqb Bool.eqb].
    rewrite H. reflexivity.
Qed.

End ErrorClaims.

Lemma predict_error_behaviour_witness :
  crop_type_ok [("temperature"%string, JNull)] /\
  lookup "temperature" [("temperature"%string, JNull)] = Some JNull /\
  py_float (rt := ascii_runtime) JNull = raise TypeError /\
  predict (rt := ascii_runtime) (JObj [("temperature"%string, JNull)])
          {| dt_day := 738956; dt_us := 5 |} = raise TypeError.
Proof.
  assert (Hc : crop_type_ok [("temperature"%string, JNull)]) by (left; reflexivity).
  split; [exact Hc|]. split; [reflexivity|]. split; [reflexivity|].
  exact (proj1 (proj2 (predict_error_behaviour (rt := ascii_runtime)))
           [("temperature"%string, JNull)] {| dt_day := 738956; dt_us := 5 |} JNull TypeError
           Hc eq_refl eq_refl).
Defined.

(** C8, the counterexample. A request with no [temperature] and no [rainfall]
    field does not fail: it is answered with status 200, from the defaults 25
    and 50. *)
Lemma missing_fields_do_not_fail :
  lookup "temperature" [("crop_type"%string, JStr "wheat")] = None /\
  lookup "rainfall" [("crop_type"%string, JStr "wheat")] = None /\
  predict (rt := ascii_runtime) (JObj [("crop_type"%string, JStr "wheat")])
          {| dt_day := 738956; dt_us := 5 |} =
    ret {| status := 200;
           body := JObj [("predicted_yield", JInt 4); ("confidence", JInt 84);
                         ("tips", JArr [JStr "Ideal soil for Wheat detected 🌱";
                                        JStr "Weather conditions suggest moderate growth potential"])]%string |}.
Proof.
  repeat split; vm_compute; reflexivity.
Qed.

(** ** Missing coordinates *)

(** C5. For every insight request in which the latitude or the longitude is
    absent or falsy (0, 0.0, null, false, the empty string, ...), the handler
    answers at once with status 400 and the body
    [{"error": "Latitude and longitude required"}]: no weather request is
    sent, whatever the provider. The request is a dict, or a falsy body, which
    the handler reads as the empty dict. *)
Theorem missing_coordinates_rejected (request : json) (kvs : list (string * json)) :
  (if truthy request then request else JObj []) = JObj kvs ->
  field_truthy kvs "latitude" && field_truthy kvs "longitude" = false ->
  insights request =
    Done (ret {| status := 400;
                 body := JObj [("error"%string, JStr "Latitude and longitude required")] |}) /\
  (forall provider : json -> json -> res json,
     snd (run_io provider (insights request)) = []).
Proof.
  intros Hd Hf.
  assert (H : insights request =
              Done (ret {| status := 400;
                           body := JObj [("error"%string, JStr "Latitude and longitude required")] |})).
  { unfold insights. rewrite Hd. unfold dict_get. cbn [bind ret].
    unfold field_truthy in Hf.
    destruct (lookup "latitude" kvs) as [lat |], (lookup "longitude" kvs) as [lon |];
      cbn [truthy negb orb] in *.
    - destruct (truthy lat), (truthy lon); try discriminate; reflexivity.
    - destruct (truthy lat); reflexivity.
    - reflexivity.
    - reflexivity. }
  split; [exact H|]. intros provider. rewrite H. reflexivity.
Qed.

Lemma missing_coordinates_rejected_witness :
  (if truthy (JObj [("latitude"%string, JInt 0); ("longitude"%string, JFloat 77.2)])
   then JObj [("latitude"%string, JInt 0); ("longitude"%string, JFloat 77.2)]
   else JObj []) = JObj [("latitude"%string, JInt 0); ("longitude"%string, JFloat 77.2)] /\
  field_truthy [("latitude"%string, JInt 0); ("longitude"%string, JFloat 77.2)] "latitude" &&
  field_truthy [("latitude"%string, JInt 0); ("longitude"%string, JFloat 77.2)] "longitude" = false /\
  insights (JObj [("latitude"%string, JInt 0); ("longitude"%string, JFloat 77.2)]) =
    Done (ret {| status := 400;
                 body := JObj [("error"%string, JStr "Latitude and longitude required")] |}).
Proof.
  split; [reflexivity|]. split; [reflexivity|].
  exact (proj1 (missing_coordinates_rejected
                  (JObj [("latitude"%string, JInt 0); ("longitude"%string, JFloat 77.2)])
                  [("latitude"%string, JInt 0); ("longitude"%string, JFloat 77.2)]
                  eq_refl eq_refl)).
Defined.

(** ** The predicted yield never exceeds the base yield *)

Lemma base_dyadic_bounded (k : crop_kind) :
  bounded prec emax (fst (base_dyadic k)) (snd (base_dyadic k)) = true.
Proof. destruct k; reflexivity. Qed.

Lemma base_float (k : crop_kind) :
  Prim2SF (num_float (spec_base_yield k)) =
  S754_finite false (fst (base_dyadic k)) (snd (base_dyadic k)).
Proof. destruct k; reflexivity. Qed.

Lemma below_base_float (k : crop_kind) (y : num) :
  below_base k y -> SFle_Q (Prim2SF (num_float y)) (base_bound k).
Proof.
  intros [-> | (f & -> & H)]; [|exact H].
  rewrite base_float. cbn [SFle_Q SF2Q cond_Zopp]. apply Qle_refl.
Qed.

Lemma below_base_convertible (k : crop_kind) (y : num) : below_base k y -> convertible y.
Proof.
  intros [-> | (f & -> & _)]; [apply spec_base_convertible | apply convertible_float].
Qed.

Lemma finite_valid (f : float) :
  is_finite f = true -> sf_finite (Prim2SF f) = true /\ valid_binary (Prim2SF f) = true.
Proof.
  intros H. rewrite is_finite_spec in H. split; [exact H | apply valid_Prim2SF].
Qed.

(** The penalty [(a - b) * rate] for [b < a] is not NaN and not negative. *)
Lemma penalty_nonneg (a b rate : float) (mc : positive) (ec : Z) :
  is_finite a = true -> is_finite b = true ->
  Prim2SF rate = S754_finite false mc ec ->
  (b <? a)%float = true ->
  SFge_Q (Prim2SF ((a - b) * rate)) 0.
Proof.
  intros Fa Fb Hrate Hlt.
  destruct (finite_valid a Fa) as [Fa' Va]. destruct (finite_valid b Fb) as [Fb' Vb].
  rewrite ltb_spec in Hlt. apply (SFltb_Q _ _ Vb Va Fb' Fa') in Hlt.
  pose proof (valid_Prim2SF rate) as Vr. rewrite Hrate in Vr. cbn in Vr.
  pose proof (valid_Prim2SF (a - b)) as Vd.
  rewrite mul_spec, Hrate. unfold SF64mul.
  apply SFmul_nonneg; [exact Vd | exact Vr |].
  rewrite sub_spec. unfold SF64sub.
  apply SFsub_nonneg; [assumption | assumption |]. apply Qlt_le_weak. exact Hlt.
Qed.

Lemma spec_penalty_below (k : crop_kind) (lo hi v rate : float) (mc : positive) (ec : Z) (y : num) :
  is_finite lo = true -> is_finite hi = true -> is_finite v = true ->
  Prim2SF rate = S754_finite false mc ec ->
  below_base k y -> below_base k (spec_penalty (lo, hi) v rate y).
Proof.
  intros Flo Fhi Fv Hrate Hy. unfold spec_penalty.
  pose proof (below_base_float k y Hy) as Hfy.
  destruct (v <? lo)%float eqn:E1; [|destruct (hi <? v)%float eqn:E2; [|exact Hy]].
  - right. eexists. split; [reflexivity|].
    rewrite sub_spec. unfold SF64sub.
    apply SFsub_le; [apply base_dyadic_bounded | exact Hfy |].
    apply (penalty_nonneg lo v rate mc ec); assumption.
  - right. eexists. split; [reflexivity|].
    rewrite sub_spec. unfold SF64sub.
    apply SFsub_le; [apply base_dyadic_bounded | exact Hfy |].
    apply (penalty_nonneg v hi rate mc ec); assumption.
Qed.

Lemma range_constants_finite (k : crop_kind) :
  is_finite (fst (spec_temp_range k)) = true /\ is_finite (snd (spec_temp_range k)) = true /\
  is_finite (fst (spec_rain_range k)) = true /\ is_finite (snd (spec_rain_range k)) = true.
Proof. destruct k; repeat split; reflexivity. Qed.

Lemma spec_weather_adjusted_below (crop : string) (temp rainfall : float) :
  is_finite temp = true -> is_finite rainfall = true ->
  below_base (crop_kind_of crop) (spec_weather_adjusted crop temp rainfall).
Proof.
  intros Ft Fr. unfold spec_weather_adjusted.
  destruct (range_constants_finite (crop_kind_of crop)) as (T1 & T2 & R1 & R2).
  destruct (spec_temp_range (crop_kind_of crop)) as [tlo thi].
  destruct (spec_rain_range (crop_kind_of crop)) as [rlo rhi].
  cbn [fst snd] in *.
  eapply spec_penalty_below; try eassumption; [reflexivity|].
  eapply spec_penalty_below; try eassumption; [reflexivity|].
  left. reflexivity.
Qed.

(** Multiplying by 0.8 or 0.9 keeps the estimate below the base yield. *)
Lemma scale_below (k : crop_kind) (c : float) (mc : positive) (ec : Z) (y : num) :
  Prim2SF c = S754_finite false mc ec -> (dy (Zpos mc) ec <= 1)%Q ->
  below_base k y -> below_base k (NFloat (num_float y * c)).
Proof.
  intros Hc Hle Hy. right. eexists. split; [reflexivity|].
  pose proof (valid_Prim2SF c) as Vc. rewrite Hc in Vc. cbn in Vc.
  rewrite mul_spec, Hc. unfold SF64mul.
  apply SFmul_le; [apply valid_Prim2SF | exact Vc | apply base_dyadic_bounded | exact Hle |].
  apply below_base_float. exact Hy.
Qed.

Lemma round_below (k : crop_kind) (y : num) :
  below_base k y -> below_base k (py_round y 2).
Proof.
  intros [-> | (f & -> & H)].
  - left. apply base_yield_rounds_to_itself.
  - right. eexists. split; [reflexivity|].
    rewrite Prim2SF_SF2Prim by (apply sf_round_valid; [lia | apply valid_Prim2SF]).
    apply (sf_round_le _ 2 _ _
             (match k with Wheat => 400 | Rice => 500 | Maize => 450 | OtherCrop => 350 end));
      [lia | apply base_dyadic_bounded | destruct k; reflexivity | exact H].
Qed.

Lemma Qle_compare (p q : Q) :
  (p <= q)%Q -> match (p ?= q)%Q with Gt => false | _ => true end = true.
Proof.
  intros H. apply Qle_alt in H. destruct (p ?= q)%Q eqn:E; try reflexivity.
  exfalso. apply H. exact E.
Qed.

Lemma py_le_float_int (f : float) (z : Z) (b : Q) :
  SFle_Q (Prim2SF f) b -> (b == inject_Z z)%Q -> py_le (NFloat f) (NInt z) = true.
Proof.
  intros H Hb. unfold py_le, py_compare, float_int_compare.
  destruct (Prim2SF f) as [s | s | | s m e]; cbn [SFle_Q] in H; try contradiction.
  - rewrite Hb in H. apply Qle_compare in H.
    destruct (SF2Q (S754_zero s) ?= inject_Z z)%Q; [reflexivity | reflexivity | discriminate].
  - subst s. reflexivity.
  - rewrite Hb in H. apply Qle_compare in H.
    destruct (SF2Q (S754_finite s m e) ?= inject_Z z)%Q; [reflexivity | reflexivity | discriminate].
Qed.

Lemma py_le_float_float (f g : float) (b : Q) :
  SFle_Q (Prim2SF f) b -> sf_finite (Prim2SF g) = true -> (SF2Q (Prim2SF g) == b)%Q ->
  py_le (NFloat f) (NFloat g) = true.
Proof.
  intros H Fg Hb. unfold py_le, py_compare.
  pose proof (valid_Prim2SF f) as Vf. pose proof (valid_Prim2SF g) as Vg.
  destruct (Prim2SF f) as [s | s | | s m e]; cbn [SFle_Q] in H; try contradiction.
  - rewrite SFcompare_Q by (assumption || reflexivity).
    rewrite <- Hb in H. apply Qle_compare in H.
    destruct (SF2Q (S754_zero s) ?= SF2Q (Prim2SF g))%Q; [reflexivity | reflexivity | discriminate].
  - subst s. destruct (Prim2SF g); try discriminate; reflexivity.
  - rewrite SFcompare_Q by (assumption || reflexivity).
    rewrite <- Hb in H. apply Qle_compare in H.
    destruct (SF2Q (S754_finite s m e) ?= SF2Q (Prim2SF g))%Q;
      [reflexivity | reflexivity | discriminate].
Qed.

Lemma below_base_le (k : crop_kind) (y : num) :
  below_base k y -> py_le y (spec_base_yield k) = true.
Proof.
  intros [-> | (f & -> & H)].
  - destruct k; reflexivity.
  - destruct k; cbn [spec_base_yield].
    + apply (py_le_float_int f 4 _ H). reflexivity.
    + apply (py_le_float_int f 5 _ H). reflexivity.
    + apply (py_le_float_float f 4.5 _ H); reflexivity.
    + apply (py_le_float_float f 3.5 _ H); reflexivity.
Qed.

Section BoundClaims.
Context {rt : PyRuntime}.

Lemma adjust_planting_below (k : crop_kind) (v : json) (now : datetime) (y : num) :
  below_base k y -> below_base k (adjust_planting v now y).
Proof.
  intros Hy. pose proof (below_base_convertible k y Hy) as Hc.
  unfold adjust_planting. destruct (truthy v); [|exact Hy].
  unfold planting_try. destruct (strptime v) as [d |]; cbn [bind]; [|exact Hy].
  destruct (timedelta_days now d <? 60).
  - rewrite (py_mul_float y _ Hc).
    apply (scale_below k 0.8 7205759403792794 (-53)); [reflexivity | vm_compute; discriminate | exact Hy].
  - destruct (180 <? timedelta_days now d); [|exact Hy].
    rewrite (py_mul_float y _ Hc).
    apply (scale_below k 0.9 8106479329266893 (-53)); [reflexivity | vm_compute; discriminate | exact Hy].
Qed.

(** C10. For every request with finite temperature and rainfall, whatever the
    crop and the planting date, the predicted yield is at most the base yield
    of the crop's row: the estimate after the temperature and rainfall steps
    exists, and rounding to two decimals what the planting-date step makes of
    it gives a number not above the base yield; this number is the
    [predicted_yield] of any answer the handler returns. *)
Theorem predicted_yield_at_most_base (crop : string) (temp rainfall : float)
    (planting_date_str : json) (now : datetime) :
  is_finite temp = true -> is_finite rainfall = true ->
  exists y : num,
    weather_adjusted crop temp rainfall = ret y /\
    py_le (py_round (adjust_planting planting_date_str now y) 2)
          (table_get base_yield crop (NFloat 3.5)) = true /\
    (forall r, predict_core crop temp rainfall planting_date_str now = ret r ->
               py_le (yr_predicted_yield r) (table_get base_yield crop (NFloat 3.5)) = true).
Proof.
  intros Ft Fr. exists (spec_weather_adjusted crop temp rainfall).
  destruct (crop_tables crop) as (Hb & _). rewrite Hb.
  assert (H : py_le (py_round (adjust_planting planting_date_str now
                                 (spec_weather_adjusted crop temp rainfall)) 2)
                    (spec_base_yield (crop_kind_of crop)) = true).
  { apply below_base_le, round_below, adjust_planting_below, spec_weather_adjusted_below;
      assumption. }
  split; [apply weather_adjusted_spec|]. split; [exact H|].
  intros r. unfold predict_core. rewrite weather_adjusted_spec. cbn [bind ret].
  destruct (confidence _); [|discriminate]. intros E. injection E as <-. exact H.
Qed.

End BoundClaims.

Lemma predicted_yield_at_most_base_witness :
  is_finite 45.000000000000007 = true /\ is_finite 30 = true /\
  exists y : num,
    weather_adjusted "wheat" 45.000000000000007 30 = ret y /\
    py_le (py_round (adjust_planting (rt := ascii_runtime) (JStr "01-03-2024")
                       {| dt_day := 738956; dt_us := 5 |} y) 2)
          (table_get base_yield "wheat" (NFloat 3.5)) = true.
Proof.
  split; [reflexivity|]. split; [reflexivity|].
  destruct (predicted_yield_at_most_base (rt := ascii_runtime) "wheat" 45.000000000000007 30
              (JStr "01-03-2024") {| dt_day := 738956; dt_us := 5 |} eq_refl eq_refl)
    as (y & Hy & Hle & _).
  exists y. split; [exact Hy | exact Hle].
Defined.

(** ** The insights derived from a weather payload *)

Local Open Scope Q_scope.

(** A quotient of finite floats that is at most a float in magnitude is
    finite, with the sign of the operands. *)
Lemma SFdiv_finite (sx sy : bool) (mx my mg : positive) (ex ey eg : Z) :
  bounded prec emax mg eg = true ->
  dy (Zpos mx) ex / dy (Zpos my) ey <= dy (Zpos mg) eg ->
  match SFdiv prec emax (S754_finite sx mx ex) (S754_finite sy my ey) with
  | S754_zero s | S754_finite s _ _ => s = xorb sx sy
  | _ => False
  end.
Proof.
  intros Hg Hle. cbn [SFdiv]. pose proof (SFdiv_core_spec mx my ex ey) as H.
  destruct (SFdiv_core_binary prec emax (Zpos mx) ex (Zpos my) ey) as [[mz ez] lz].
  destruct H as (x & Hq & Hpre & Hloc & Hv).
  pose proof (round_aux_upper prec emax prec_pos (xorb sx sy) mz ez lz x mg eg Hq Hpre Hloc Hg
                ltac:(rewrite Hv; exact Hle)) as H.
  destruct (binary_round_aux prec emax (xorb sx sy) mz ez lz) as [s | s | | s m e];
    try contradiction; [exact H | apply H].
Qed.

Lemma max_float_bounded : bounded prec emax 9007199254740991 971 = true.
Proof. reflexivity. Qed.

Lemma max_float_value : dy 9007199254740991 971 == inject_Z max_float_int.
Proof.
  rewrite (dy_rescale 9007199254740991 0 971), dy_0 by lia. reflexivity.
Qed.

Lemma Qdiv_le_self (a b : Q) : 0 <= a -> 1 <= b -> a / b <= a.
Proof.
  intros Ha Hb. apply Qle_shift_div_r; [lra|]. nra.
Qed.

(** The correctly rounded quotient of an int in the float range by a
    positive int is finite. *)
Lemma int_quotient_finite (z : Z) (d : positive) :
  (Z.abs z <= max_float_int)%Z ->
  match SFdiv prec emax (Z2SF z) (Z2SF (Zpos d)) with
  | S754_zero s | S754_finite s _ _ => s = (z <? 0)%Z
  | _ => False
  end.
Proof.
  intros Hz. destruct z as [| p | p]; cbn [Z2SF SFdiv xorb].
  - reflexivity.
  - apply (SFdiv_finite false false p d 9007199254740991 0 0 971 max_float_bounded).
    rewrite max_float_value, !dy_0. apply Qle_trans with (inject_Z (Zpos p)).
    + apply Qdiv_le_self; [apply Qlt_le_weak, inject_Z_pos; lia|].
      change 1 with (inject_Z 1). rewrite <- Zle_Qle. lia.
    + rewrite <- Zle_Qle. lia.
  - apply (SFdiv_finite true false p d 9007199254740991 0 0 971 max_float_bounded).
    rewrite max_float_value, !dy_0. apply Qle_trans with (inject_Z (Zpos p)).
    + apply Qdiv_le_self; [apply Qlt_le_weak, inject_Z_pos; lia|].
      change 1 with (inject_Z 1). rewrite <- Zle_Qle. lia.
    + rewrite <- Zle_Qle. lia.
Qed.

Lemma int_quotient_valid (z : Z) (d : positive) :
  valid_binary (SFdiv prec emax (Z2SF z) (Z2SF (Zpos d))) = true.
Proof.
  destruct z as [| p | p]; cbn [Z2SF]; [reflexivity | apply SFdiv_integers_valid ..].
Qed.

(** The quotient of a finite float by a float constant that is at least 1 is
    finite and keeps the sign. *)
Lemma float_quotient_finite (f c : float) (mc : positive) (ec : Z) :
  is_finite f = true -> Prim2SF c = S754_finite false mc ec -> 1 <= dy (Zpos mc) ec ->
  match Prim2SF (f / c) with
  | S754_zero _ => True
  | S754_finite s _ _ => exists m e, Prim2SF f = S754_finite s m e
  | _ => False
  end.
Proof.
  intros Ff Hc Hge. rewrite is_finite_spec in Ff. pose proof (valid_Prim2SF f) as Vf.
  rewrite div_spec, Hc. unfold SF64div.
  destruct (Prim2SF f) as [s | s | | s m e]; try discriminate.
  - exact I.
  - cbn in Vf.
    pose proof (SFdiv_finite s false m mc m e ec e Vf
                  (Qdiv_le_self _ _ (Qlt_le_weak _ _ (dy_pos (Zpos m) e ltac:(lia))) Hge)) as H.
    destruct (SFdiv prec emax (S754_finite s m e) (S754_finite false mc ec)) as [s' | s' | | s' m' e'];
      try contradiction; [exact I|].
    rewrite xorb_false_r in H. subst s'. exists m, e. reflexivity.
Qed.

Lemma py_truediv_const (a : num) (d : positive) :
  num_in_range a = true ->
  float_of_int (Zpos d) = ret (Z2F (Zpos d)) -> (Z2F (Zpos d) =? 0)%float = false ->
  py_truediv a (NInt (Zpos d)) = ret (NFloat (num_div a (Zpos d))).
Proof.
  intros Ha Hd Hnz. unfold py_truediv, num_div. destruct a as [z | f].
  - cbn [num_in_range] in Ha. apply Z.leb_le in Ha.
    pose proof (int_quotient_finite z d Ha) as H. cbn [Z.eqb].
    destruct (SFdiv prec emax (Z2SF z) (Z2SF (Zpos d))); try contradiction; reflexivity.
  - cbn [to_float bind ret]. rewrite Hd. cbn [bind ret]. rewrite Hnz. reflexivity.
Qed.

(** [a / d] is finite; it is a zero or has the sign of [a]. *)
Lemma num_div_finite (a : num) (d mc : positive) (ec : Z) :
  num_in_range a = true ->
  Prim2SF (Z2F (Zpos d)) = S754_finite false mc ec -> 1 <= dy (Zpos mc) ec ->
  match Prim2SF (num_div a (Zpos d)) with
  | S754_zero _ => True
  | S754_finite s _ _ => 0 <= num_Q a -> s = false
  | _ => False
  end.
Proof.
  intros Ha Hc Hge. unfold num_div. destruct a as [z | f]; cbn [num_in_range num_Q] in *.
  - apply Z.leb_le in Ha. rewrite Prim2SF_SF2Prim by apply int_quotient_valid.
    pose proof (int_quotient_finite z d Ha) as H.
    destruct (SFdiv prec emax (Z2SF z) (Z2SF (Zpos d))); try contradiction; [exact I|].
    intros Hz. subst s. apply Z.ltb_ge. rewrite Zle_Qle. exact Hz.
  - pose proof (float_quotient_finite f (Z2F (Zpos d)) mc ec Ha Hc Hge) as H.
    destruct (Prim2SF (f / Z2F (Zpos d))) as [s | s | | s m e]; try contradiction; [exact I|].
    destruct H as (m' & e' & Hf). unfold F2Q. rewrite Hf. intros Hv.
    destruct s; [|reflexivity]. pose proof (SF2Q_sign_neg m' e'). lra.
Qed.

Lemma py_int_num_div (a : num) (d mc : positive) (ec : Z) :
  num_in_range a = true ->
  Prim2SF (Z2F (Zpos d)) = S754_finite false mc ec -> 1 <= dy (Zpos mc) ec ->
  py_int (NFloat (num_div a (Zpos d))) = ret (float_trunc (num_div a (Zpos d))) /\
  (0 <= num_Q a -> float_trunc (num_div a (Zpos d)) = float_floor (num_div a (Zpos d))).
Proof.
  intros Ha Hc Hge. pose proof (num_div_finite a d mc ec Ha Hc Hge) as H.
  unfold py_int, float_trunc, float_floor.
  destruct (Prim2SF (num_div a (Zpos d))) as [s | s | | s m e]; try contradiction.
  - split; reflexivity.
  - split; [reflexivity|]. intros Hq. rewrite (H Hq). reflexivity.
Qed.

Lemma Qcompare_inject_Z (a b : Z) : (inject_Z a ?= inject_Z b) = (a ?= b)%Z.
Proof. unfold Qcompare. cbn. rewrite !Z.mul_1_r. reflexivity. Qed.

Lemma py_compare_num_int (a : num) (z : Z) :
  num_in_range a = true ->
  py_compare a (NInt z) = Some (num_Q a ?= inject_Z z) /\
  py_compare (NInt z) a = Some (inject_Z z ?= num_Q a).
Proof.
  intros Ha. destruct a as [x | f]; cbn [py_compare num_Q num_in_range] in *.
  - rewrite !Qcompare_inject_Z. split; reflexivity.
  - rewrite is_finite_spec in Ha. unfold float_int_compare, F2Q.
    destruct (Prim2SF f) as [s | s | | s m e]; try discriminate;
      cbn [option_map]; (split; [reflexivity | rewrite Qcompare_antisym; reflexivity]).
Qed.

(** The tier the handler selects is the spec's tier. *)
Lemma irrigation_spec (rainfall : num) :
  num_in_range rainfall = true -> irrigation rainfall = spec_tier rainfall.
Proof.
  intros Ha. unfold irrigation, spec_tier, py_gt, py_lt, py_le, Qltb.
  destruct (py_compare_num_int rainfall 30 Ha) as [H30 H30'].
  destruct (py_compare_num_int rainfall 10 Ha) as [_ H10'].
  rewrite H30, H30', H10'.
  change (inject_Z 30) with 30. change (inject_Z 10) with 10.
  rewrite <- (Qcompare_antisym 30 (num_Q rainfall)).
  destruct (30 ?= num_Q rainfall); cbn [CompOpp]; try reflexivity;
    destruct (10 ?= num_Q rainfall); reflexivity.
Qed.

Local Open Scope Z_scope.

Lemma py_add_int_float (z : Z) (c q : float) :
  float_of_int z = ret c -> py_add (NInt z) (NFloat q) = ret (NFloat (c + q)).
Proof.
  intros H. unfold py_add, py_arith. cbn [to_float]. rewrite H. reflexivity.
Qed.

(** C2, as amended. For every weather payload whose [main.temp] and
    [main.humidity] are numbers and whose hourly rain volume [rain.1h], taken
    as 0 when the payload has none, is a number, rainfall and humidity being
    finite (an int within the float range), the handler derives
    [ph = round(6 + rainfall/50, 1)], [carbon = round(1 + humidity/100, 1)],
    [nitrogen = 40 + int(rainfall/2)] with [int] truncating toward zero (the
    floor when rainfall is not negative), the tier Good, 90, 0.85 when
    [rainfall > 30], Moderate, 75, 0.7 when [10 < rainfall <= 30] and Low, 60,
    0.55 when [rainfall <= 10], and [weather.temp] as [main.temp] rounded to
    one decimal; it answers with these, status 200, after one weather
    request. The example payload gives rainfall 40, humidity 60, ph 6.8,
    carbon 1.6, nitrogen 60, Good, 90, 0.85 and temp 20. *)
Theorem insights_derivation (kvs main : list (string * json)) (rv hv tv : json)
    (rainfall humidity temp : num) :
  lookup "main" kvs = Some (JObj main) ->
  lookup "humidity" main = Some hv -> as_num hv = ret humidity ->
  num_in_range humidity = true ->
  lookup "temp" main = Some tv -> as_num tv = ret temp ->
  spec_rainfall_field kvs = ret rv -> as_num rv = ret rainfall ->
  num_in_range rainfall = true ->
  derive (JObj kvs) = ret (spec_insights rv hv rainfall humidity temp) /\
  (forall (lat lon : json) (provider : json -> json -> res json),
     truthy lat = true -> truthy lon = true -> provider lat lon = ret (JObj kvs) ->
     run_io provider (insights (JObj [("latitude"%string, lat); ("longitude"%string, lon)])) =
       (ret {| status := 200; body := spec_insights rv hv rainfall humidity temp |},
        [(lat, lon)])) /\
  ((0 <= num_Q rainfall)%Q -> spec_nitrogen_trunc rainfall = spec_nitrogen_floor rainfall) /\
  derive example_payload =
    ret (JObj [("weather", JObj [("temp", JInt 20); ("rainfall", JInt 40); ("humidity", JInt 60)]);
               ("soil", JObj [("ph", JFloat 6.8); ("carbon", JFloat 1.6); ("nitrogen", JInt 60)]);
               ("irrigation", JObj [("status", JStr "Good"); ("efficiency", JInt 90);
                                    ("index", JFloat 0.85)])]%string).
Proof.
  intros Hmain Hhv Hh Rh Htv Ht Hrv Hr Rr.
  assert (Hd : derive (JObj kvs) = ret (spec_insights rv hv rainfall humidity temp)).
  { unfold derive, dict_get, dict_item. unfold spec_rainfall_field in Hrv.
    assert (Hrain : (rainfall0 <-
                       match match lookup "rain" kvs with Some v => v | None => JObj [] end with
                       | JObj kvs0 => ret match lookup "1h" kvs0 with Some v => v | None => JInt 0 end
                       | _ => raise AttributeError
                       end ;; ret rainfall0) = ret rv).
    { destruct (lookup "rain" kvs) as [[| | | | | | rain] |]; try discriminate; exact Hrv. }
    cbn [bind ret] in *.
    destruct (match match lookup "rain" kvs with Some v => v | None => JObj [] end with
              | JObj kvs0 => ret match lookup "1h" kvs0 with Some v => v | None => JInt 0 end
              | _ => raise AttributeError
              end) as [rv' | e]; [|discriminate].
    cbn [bind ret] in Hrain. injection Hrain as ->.
    rewrite Hmain. cbn [bind ret]. rewrite Hhv. cbn [bind ret]. rewrite Hr. cbn [bind ret].
    rewrite (py_truediv_const rainfall 50 Rr eq_refl eq_refl). cbn [bind ret].
    rewrite (py_add_int_float 6 6 _ eq_refl). cbn [bind ret].
    rewrite Hh. cbn [bind ret].
    rewrite (py_truediv_const humidity 100 Rh eq_refl eq_refl). cbn [bind ret].
    rewrite (py_add_int_float 1 1 _ eq_refl). cbn [bind ret].
    rewrite (py_truediv_const rainfall 2 Rr eq_refl eq_refl). cbn [bind ret].
    destruct (py_int_num_div rainfall 2 4503599627370496 (-51) Rr eq_refl
                ltac:(vm_compute; discriminate)) as [Hint _].
    rewrite Hint. cbn [bind ret].
    rewrite (irrigation_spec rainfall Rr), Htv. cbn [bind ret]. rewrite Ht. cbn [bind ret].
    unfold spec_insights, spec_ph, spec_carbon, spec_nitrogen_trunc.
    destruct (spec_tier rainfall) as [[st eff] idx]. reflexivity. }
  split; [exact Hd|]. split; [|split].
  - intros lat lon provider Hlat Hlon Hp. unfold insights.
    cbn [truthy dict_get lookup String.eqb Ascii.eqb Bool.eqb bind ret].
    rewrite Hlat, Hlon. cbn [negb orb run_io]. rewrite Hp. cbn [bind ret]. rewrite Hd.
    reflexivity.
  - intros Hq. unfold spec_nitrogen_trunc, spec_nitrogen_floor.
    destruct (py_int_num_div rainfall 2 4503599627370496 (-51) Rr eq_refl
                ltac:(vm_compute; discriminate)) as [_ Hfl].
    rewrite (Hfl Hq). reflexivity.
  - vm_compute. reflexivity.
Qed.

Lemma insights_derivation_witness :
  derive example_payload =
    ret (spec_insights (JInt 40) (JInt 60) (NInt 40) (NInt 60) (NInt 20)) /\
  spec_nitrogen_trunc (NInt 40) = 60.
Proof.
  split; [|reflexivity].
  exact (proj1 (insights_derivation
                  [("main"%string, JObj [("temp"%string, JInt 20); ("humidity"%string, JInt 60)]);
                   ("rain"%string, JObj [("1h"%string, JInt 40)])]
                  [("temp"%string, JInt 20); ("humidity"%string, JInt 60)]
                  (JInt 40) (JInt 60) (JInt 20) (NInt 40) (NInt 60) (NInt 20)
                  eq_refl eq_refl eq_refl eq_refl eq_refl eq_refl eq_refl eq_refl eq_refl)).
Defined.

(** C2, the counterexample. With the hourly rain volume -1 the handler
    returns nitrogen 40, where [40 + floor(rainfall / 2)] is 39; and a payload
    with a numeric humidity but no temperature gets no result at all, the
    handler raises [KeyError]. *)
Lemma insights_claim_fails :
  derive negative_rain_payload =
    ret (JObj [("weather", JObj [("temp", JInt 20); ("rainfall", JInt (-1)); ("humidity", JInt 60)]);
               ("soil", JObj [("ph", JFloat 6); ("carbon", JFloat 1.6); ("nitrogen", JInt 40)]);
               ("irrigation", JObj [("status", JStr "Low"); ("efficiency", JInt 60);
                                    ("index", JFloat 0.55)])]%string) /\
  spec_nitrogen_floor (NInt (-1)) = 39 /\
  derive no_temp_payload = raise KeyError.
Proof.
  repeat split; vm_compute; reflexivity.
Qed.

(* ================================================================== *)
(** * Part IV: further properties of the handlers *)
(* ================================================================== *)

(** ** The request of [/predict] *)

Lemma truthy_non_dict (request : json) :
  truthy request = true -> (forall kvs, request <> JObj kvs) ->
  forall k d, dict_get (if truthy request then request else JObj []) k d = raise AttributeError.
Proof.
  intros Ht Hn k d. rewrite Ht.
  destruct request; try reflexivity. exfalso. exact (Hn kvs eq_refl).
Qed.

Section RequestProperties.
Context {rt : PyRuntime}.

(** X1. The body of the request. A falsy body ([null], [false], [0], the empty
    string, list or dict) is read as the empty dict, and the empty dict is
    answered with status 200 from the default row and the default weather:
    predicted yield 3.5, confidence 83. A truthy body that is not a dict (a
    number, a string, a non-empty list) makes the handler raise
    [AttributeError] at its first [data.get]. *)
Theorem predict_request_body (request : json) (now : datetime) :
  (truthy request = false -> predict request now = predict (JObj []) now) /\
  predict (JObj []) now =
    ret {| status := 200;
           body := JObj [("predicted_yield"%string, JFloat 3.5);
                         ("confidence"%string, JInt 83);
                         ("tips"%string, JArr (map JStr (tips_of EmptyString)))] |} /\
  (truthy request = true -> (forall kvs, request <> JObj kvs) ->
   predict request now = raise AttributeError).
Proof.
  split; [|split].
  - intros H. unfold predict. rewrite H. reflexivity.
  - unfold predict. cbn [truthy dict_get lookup bind ret lower]. rewrite str_lower_empty.
    vm_compute. reflexivity.
  - intros Ht Hn. unfold predict. rewrite (truthy_non_dict request Ht Hn). reflexivity.
Qed.

(** X2. A [crop_type] that is present but not a string ([null], a number, a
    list, ...) makes the handler raise [AttributeError], whatever the other
    fields hold: the crop type is lower-cased before any other field is
    converted. *)
Theorem crop_type_must_be_a_string (kvs : list (string * json)) (v : json) (now : datetime) :
  lookup "crop_type" kvs = Some v -> (forall s, v <> JStr s) ->
  predict (JObj kvs) now = raise AttributeError.
Proof.
  intros Hv Hn. unfold predict. rewrite data_of_dict. unfold dict_get. rewrite Hv.
  cbn [bind ret]. destruct v; try reflexivity. exfalso. exact (Hn s eq_refl).
Qed.

(** X3. The handler reads four things of a request and nothing else: the crop
    type lower-cased, [float(temperature)], [float(rainfall)] and the planting
    date, each with its default when the field is missing. Two requests that
    agree on these are answered alike, tips included: the letter case of the
    crop type, the spelling of a number (30, 30.0, the string holding 30), the
    order of the fields and every other field make no difference. *)
Theorem predict_reads_four_fields (kvs1 kvs2 : list (string * json)) (now : datetime) :
  lower (field_or kvs1 "crop_type" (JStr "")) = lower (field_or kvs2 "crop_type" (JStr "")) ->
  py_float (field_or kvs1 "temperature" (JInt 25)) =
    py_float (field_or kvs2 "temperature" (JInt 25)) ->
  py_float (field_or kvs1 "rainfall" (JInt 50)) = py_float (field_or kvs2 "rainfall" (JInt 50)) ->
  field_or kvs1 "planting_date" JNull = field_or kvs2 "planting_date" JNull ->
  predict (JObj kvs1) now = predict (JObj kvs2) now.
Proof.
  intros Hc Ht Hr Hp. unfold predict. rewrite !data_of_dict. unfold dict_get.
  fold (field_or kvs1 "crop_type" (JStr "")) (field_or kvs2 "crop_type" (JStr "")).
  fold (field_or kvs1 "temperature" (JInt 25)) (field_or kvs2 "temperature" (JInt 25)).
  fold (field_or kvs1 "rainfall" (JInt 50)) (field_or kvs2 "rainfall" (JInt 50)).
  fold (field_or kvs1 "planting_date" JNull) (field_or kvs2 "planting_date" JNull).
  cbn [bind ret]. rewrite Hc, Ht, Hr, Hp. reflexivity.
Qed.

End RequestProperties.

Lemma crop_type_must_be_a_string_witness :
  lookup "crop_type" [("crop_type", JNull); ("temperature", JStr "warm")]%string = Some JNull /\
  predict (rt := ascii_runtime) (JObj [("crop_type", JNull); ("temperature", JStr "warm")]%string)
          {| dt_day := 738956; dt_us := 5 |} = raise AttributeError.
Proof.
  split; [reflexivity|].
  apply (crop_type_must_be_a_string (rt := ascii_runtime)
           [("crop_type", JNull); ("temperature", JStr "warm")]%string JNull
           {| dt_day := 738956; dt_us := 5 |} eq_refl).
  intros s; discriminate.
Defined.

Lemma predict_reads_four_fields_witness :
  predict (rt := ascii_runtime)
    (JObj [("farm", JStr "north"); ("crop_type", JStr "WHEAT"); ("temperature", JStr "30");
           ("rainfall", JBool true)]%string)
    {| dt_day := 738956; dt_us := 5 |} =
  predict (rt := ascii_runtime)
    (JObj [("rainfall", JInt 1); ("temperature", JFloat 30); ("crop_type", JStr "wheat")]%string)
    {| dt_day := 738956; dt_us := 5 |}.
Proof.
  apply (predict_reads_four_fields (rt := ascii_runtime)); reflexivity.
Defined.

(** ** Defaults, rows and edge values of [/predict] *)

Lemma spec_penalty_nan (k : crop_kind) (y : num) :
  spec_penalty (spec_temp_range k) nan 0.2 y = y /\
  spec_penalty (spec_rain_range k) nan 0.1 y = y.
Proof. destruct k; split; reflexivity. Qed.

Lemma default_weather_estimate (crop : string) :
  exists y,
    spec_weather_adjusted crop 25 50 = y /\
    py_round y 2 = fst (crop_only_answer (crop_kind_of crop)) /\
    confidence y = ret (snd (crop_only_answer (crop_kind_of crop))).
Proof.
  unfold spec_weather_adjusted. destruct (crop_kind_of crop);
    (eexists; split; [reflexivity | split; vm_compute; reflexivity]).
Qed.

Lemma base_confidence (k : crop_kind) :
  confidence (spec_base_yield k) = ret (in_range_confidence k).
Proof. destruct k; vm_compute; reflexivity. Qed.

Lemma timedelta_days_midnight (now d : datetime) :
  dt_us d = 0 -> 0 <= dt_us now < us_per_day ->
  timedelta_days now d = dt_day now - dt_day d.
Proof.
  intros Hd Hn. unfold timedelta_days. rewrite Hd, Z.sub_0_r.
  unfold us_per_day in *. rewrite Z.div_add_l by lia. rewrite Z.div_small by lia. lia.
Qed.

Section DefaultProperties.
Context {rt : PyRuntime}.

Lemma adjust_planting_falsy (v : json) (now : datetime) (y : num) :
  truthy v = false -> adjust_planting v now y = y.
Proof. intros H. unfold adjust_planting. rewrite H. reflexivity. Qed.

Lemma predict_core_estimate (crop : string) (temp rainfall : float) (v : json)
    (now : datetime) (y : num) (c : Z) :
  adjust_planting v now (spec_weather_adjusted crop temp rainfall) = y ->
  confidence y = ret c ->
  predict_core crop temp rainfall v now =
    ret {| yr_predicted_yield := py_round y 2; yr_confidence := c; yr_tips := tips_of crop |}.
Proof.
  intros Hy Hc. unfold predict_core. rewrite weather_adjusted_spec. cbn [bind ret].
  rewrite Hy, Hc. reflexivity.
Qed.

(** X4. A request that names a crop and nothing else (no temperature, no
    rainfall, no planting date) is answered from the defaults 25 and 50. The
    default temperature lies inside the ideal range of every row, and the
    default rainfall inside the optimal range of every row but rice, whose
    range starts at 80: the answer is the base yield of the row (wheat 4 with
    confidence 84, maize 4.5 with 84, any other crop 3.5 with 83), except for
    rice, which gets 2.0 with confidence 82 instead of its base yield 5. *)
Theorem crop_only_request (kvs : list (string * json)) (now : datetime) :
  crop_type_ok kvs ->
  lookup "temperature" kvs = None -> lookup "rainfall" kvs = None ->
  field_truthy kvs "planting_date" = false ->
  exists crop,
    lower (field_or kvs "crop_type" (JStr "")) = ret crop /\
    predict (JObj kvs) now =
      ret (jsonify_yield
             {| yr_predicted_yield := fst (crop_only_answer (crop_kind_of crop));
                yr_confidence := snd (crop_only_answer (crop_kind_of crop));
                yr_tips := tips_of crop |}).
Proof.
  intros Hc Ht Hr Hp. destruct (lower_crop_type kvs Hc) as [crop Hcrop].
  exists crop. split; [exact Hcrop|].
  unfold predict. rewrite data_of_dict. unfold dict_get. cbn [bind ret].
  rewrite Hcrop, Ht, Hr. cbn [bind ret py_float].
  change (float_of_int 25) with (ret 25%float). change (float_of_int 50) with (ret 50%float).
  cbn [bind ret].
  destruct (default_weather_estimate crop) as (y & Hy & Hround & Hconf).
  assert (Hpd : truthy (match lookup "planting_date" kvs with Some v => v | None => JNull end)
                = false).
  { unfold field_truthy in Hp. destruct (lookup "planting_date" kvs); [exact Hp | reflexivity]. }
  rewrite (predict_core_estimate crop 25 50 _ now y _
             (eq_trans (adjust_planting_falsy _ now _ Hpd) Hy) Hconf).
  cbn [bind ret]. rewrite Hround. reflexivity.
Qed.

(** X5. The confidence of a request inside both ranges of its row and without a
    planting date depends on the row alone: 84 for wheat and maize, 83 for
    the default row and 80, the lowest value the handler ever returns, for
    rice, whose base yield 5 leaves the remainder 0. *)
Theorem in_range_confidence_by_row (crop : string) (temp rainfall : float)
    (planting_date_str : json) (now : datetime) :
  let k := crop_kind_of crop in
  in_range (spec_temp_range k) temp = true ->
  in_range (spec_rain_range k) rainfall = true ->
  truthy planting_date_str = false ->
  predict_core crop temp rainfall planting_date_str now =
    ret {| yr_predicted_yield := spec_base_yield k;
           yr_confidence := in_range_confidence k;
           yr_tips := tips_of crop |}.
Proof.
  intros k Ht Hr Hp.
  rewrite (predict_core_estimate crop temp rainfall planting_date_str now (spec_base_yield k)
             (in_range_confidence k)).
  - rewrite (proj1 (base_yield_rounds_to_itself k)). reflexivity.
  - rewrite (adjust_planting_falsy _ now _ Hp).
    apply (spec_weather_adjusted_in_range crop temp rainfall Ht Hr).
  - apply base_confidence.
Qed.

(** X6. A temperature or a rainfall that is NaN (the JSON literal [NaN], or the
    string holding nan) is below no minimum and above no maximum: it draws no
    penalty, and the request is answered as one whose value lies inside the
    range of the row. *)
Theorem nan_draws_no_penalty (crop : string) (temp rainfall : float)
    (planting_date_str : json) (now : datetime) :
  let k := crop_kind_of crop in
  (in_range (spec_temp_range k) temp = true ->
   predict_core crop nan rainfall planting_date_str now =
   predict_core crop temp rainfall planting_date_str now) /\
  (in_range (spec_rain_range k) rainfall = true ->
   predict_core crop temp nan planting_date_str now =
   predict_core crop temp rainfall planting_date_str now).
Proof.
  intros k. split; intros H; unfold predict_core; rewrite !weather_adjusted_spec;
    unfold spec_weather_adjusted; fold k.
  - rewrite (proj1 (spec_penalty_nan k _)), (spec_penalty_in_range _ temp _ _ H). reflexivity.
  - rewrite (proj2 (spec_penalty_nan k _)), (spec_penalty_in_range _ rainfall _ _ H).
    reflexivity.
Qed.

(** X7. The planting-date rule looks at the calendar day of the request only. A
    planting date parsed from day, month and year is a midnight, so the days
    elapsed are the difference of the two day numbers whatever the time of
    day, and two requests made on the same day get the same answer. *)
Theorem planting_rule_by_calendar_day (crop : string) (temp rainfall : float) (s : string)
    (planting_date now1 now2 : datetime) :
  strptime_dmy s = Some planting_date -> dt_us planting_date = 0 ->
  0 <= dt_us now1 < us_per_day -> 0 <= dt_us now2 < us_per_day ->
  dt_day now1 = dt_day now2 ->
  timedelta_days now1 planting_date = dt_day now1 - dt_day planting_date /\
  adjust_planting (JStr s) now1 (spec_weather_adjusted crop temp rainfall) =
    spec_aged (dt_day now1 - dt_day planting_date) (spec_weather_adjusted crop temp rainfall) /\
  predict_core crop temp rainfall (JStr s) now1 = predict_core crop temp rainfall (JStr s) now2.
Proof.
  intros Hs Hm H1 H2 Hd.
  assert (Hconv : convertible (spec_weather_adjusted crop temp rainfall)).
  { unfold spec_weather_adjusted. apply spec_penalty_convertible, spec_penalty_convertible,
      spec_base_convertible. }
  assert (Ha : forall now, 0 <= dt_us now < us_per_day ->
            adjust_planting (JStr s) now (spec_weather_adjusted crop temp rainfall) =
            spec_aged (dt_day now - dt_day planting_date) (spec_weather_adjusted crop temp rainfall)).
  { intros now Hn. rewrite (adjust_planting_parsed s planting_date now _ Hs Hconv).
    rewrite (timedelta_days_midnight now planting_date Hm Hn). reflexivity. }
  split; [exact (timedelta_days_midnight now1 planting_date Hm H1)|].
  split; [exact (Ha now1 H1)|].
  unfold predict_core. rewrite !weather_adjusted_spec. cbn [bind ret].
  rewrite (Ha now1 H1), (Ha now2 H2), Hd. reflexivity.
Qed.

End DefaultProperties.

Lemma crop_only_request_witness :
  exists crop,
    lower (rt := ascii_runtime) (field_or [("crop_type", JStr "Rice")]%string "crop_type" (JStr ""))
      = ret crop /\
    predict (rt := ascii_runtime) (JObj [("crop_type", JStr "Rice")]%string)
            {| dt_day := 738956; dt_us := 5 |} =
      ret (jsonify_yield
             {| yr_predicted_yield := fst (crop_only_answer (crop_kind_of crop));
                yr_confidence := snd (crop_only_answer (crop_kind_of crop));
                yr_tips := tips_of crop |}).
Proof.
  apply (crop_only_request (rt := ascii_runtime) [("crop_type", JStr "Rice")]%string
           {| dt_day := 738956; dt_us := 5 |}).
  - right. exists "Rice"%string. reflexivity.
  - reflexivity.
  - reflexivity.
  - reflexivity.
Defined.

Lemma in_range_confidence_by_row_witness :
  predict_core (rt := ascii_runtime) "rice" 26 100 JNull {| dt_day := 738956; dt_us := 5 |} =
    ret {| yr_predicted_yield := NInt 5; yr_confidence := 80;
           yr_tips := tips_of (rt := ascii_runtime) "rice" |}.
Proof.
  exact (in_range_confidence_by_row (rt := ascii_runtime) "rice" 26 100 JNull
           {| dt_day := 738956; dt_us := 5 |} eq_refl eq_refl eq_refl).
Defined.

Lemma nan_draws_no_penalty_witness :
  predict_core (rt := ascii_runtime) "wheat" nan 50 JNull {| dt_day := 738956; dt_us := 5 |} =
  predict_core (rt := ascii_runtime) "wheat" 20 50 JNull {| dt_day := 738956; dt_us := 5 |}.
Proof.
  exact (proj1 (nan_draws_no_penalty (rt := ascii_runtime) "wheat" 20 50 JNull
                  {| dt_day := 738956; dt_us := 5 |}) eq_refl).
Defined.

Lemma planting_rule_by_calendar_day_witness :
  timedelta_days {| dt_day := 738956; dt_us := 5 |} {| dt_day := 738946; dt_us := 0 |} = 10 /\
  predict_core (rt := ascii_runtime) "maize" 25 50 (JStr "01-03-2024")
               {| dt_day := 738956; dt_us := 5 |} =
  predict_core (rt := ascii_runtime) "maize" 25 50 (JStr "01-03-2024")
               {| dt_day := 738956; dt_us := 86399999999 |}.
Proof.
  destruct (planting_rule_by_calendar_day (rt := ascii_runtime) "maize" 25 50 "01-03-2024"
              {| dt_day := 738946; dt_us := 0 |}
              {| dt_day := 738956; dt_us := 5 |} {| dt_day := 738956; dt_us := 86399999999 |}
              eq_refl eq_refl) as (H1 & _ & H3).
  - unfold us_per_day. cbn. lia.
  - unfold us_per_day. cbn. lia.
  - reflexivity.
  - split; [exact H1 | exact H3].
Defined.

(** ** The protocol and the tiers of [/insights] *)

Lemma py_le_Q (a b : num) :
  num_in_range a = true -> num_in_range b = true ->
  py_le a b = true -> (num_Q a <= num_Q b)%Q.
Proof.
  intros Ha Hb. unfold py_le.
  assert (H : py_compare a b = Some (num_Q a ?= num_Q b)%Q).
  { destruct b as [z | g].
    - apply (py_compare_num_int a z Ha).
    - destruct a as [x | f].
      + apply (py_compare_num_int (NFloat g) x Hb).
      + cbn [py_compare num_Q num_in_range] in *.
        destruct (finite_valid f Ha) as [Hf Hvf], (finite_valid g Hb) as [Hg Hvg].
        apply SFcompare_Q; assumption. }
  rewrite H. intros Hc. apply Qle_alt. intros Hgt. rewrite Hgt in Hc. discriminate.
Qed.

Lemma spec_tier_monotone (r1 r2 : num) :
  (num_Q r1 <= num_Q r2)%Q ->
  tier_efficiency (spec_tier r1) <= tier_efficiency (spec_tier r2) /\
  (tier_index (spec_tier r1) <=? tier_index (spec_tier r2))%float = true.
Proof.
  intros H. unfold spec_tier, Qltb.
  destruct (30 ?= num_Q r1)%Q eqn:E1, (30 ?= num_Q r2)%Q eqn:E2,
           (10 ?= num_Q r1)%Q eqn:F1, (10 ?= num_Q r2)%Q eqn:F2;
    try (split; [cbn; lia | reflexivity]);
    exfalso;
    repeat match goal with
      | E : (_ ?= _)%Q = Lt |- _ => apply Qlt_alt in E
      | E : (_ ?= _)%Q = Eq |- _ => apply Qeq_alt in E
      | E : (_ ?= _)%Q = Gt |- _ => apply Qgt_alt in E
      end; lra.
Qed.

(** X8. The handler either answers at once or sends one weather request, made
    with the latitude and longitude of the request, both truthy. An answer
    with status 400 is the missing-coordinates error and follows no request;
    any other answer has status 200 and a body derived from the payload the
    provider returned: the handler never answers 200 without the provider, and
    never asks it twice. *)
Theorem insights_protocol (request : json) (provider : json -> json -> res json) :
  let answer := fst (run_io provider (insights request)) in
  let calls := snd (run_io provider (insights request)) in
  (calls = [] \/
   exists kvs lat lon,
     request = JObj kvs /\ lookup "latitude" kvs = Some lat /\ lookup "longitude" kvs = Some lon /\
     truthy lat = true /\ truthy lon = true /\ calls = [(lat, lon)]) /\
  (forall resp, answer = ret resp ->
     (resp = missing_coordinates /\ calls = []) \/
     (status resp = 200 /\
      exists lat lon weather_data,
        calls = [(lat, lon)] /\ provider lat lon = ret weather_data /\
        derive weather_data = ret (body resp))).
Proof.
  cbv zeta. unfold insights.
  destruct (truthy request) eqn:Ht.
  - destruct request; try (split; [left; reflexivity | intros resp H; discriminate]).
    unfold dict_get. cbn [bind ret].
    destruct (lookup "latitude" kvs) as [lat |] eqn:Hlat;
      [|split; [left; reflexivity | intros resp H; injection H as <-; left; split; reflexivity]].
    destruct (truthy lat) eqn:Tlat;
      [|split; [left; reflexivity | intros resp H; injection H as <-; left; split; reflexivity]].
    destruct (lookup "longitude" kvs) as [lon |] eqn:Hlon;
      [|split; [left; reflexivity | intros resp H; injection H as <-; left; split; reflexivity]].
    destruct (truthy lon) eqn:Tlon;
      [|split; [left; reflexivity | intros resp H; injection H as <-; left; split; reflexivity]].
    cbn [negb orb run_io fst snd]. split.
    + right. exists kvs, lat, lon. repeat split; assumption || reflexivity.
    + intros resp H. right.
      destruct (provider lat lon) as [weather_data | e] eqn:Hp; [|discriminate].
      cbn [bind ret] in H. destruct (derive weather_data) as [result | e] eqn:Hd; [|discriminate].
      injection H as <-. split; [reflexivity|].
      exists lat, lon, weather_data. repeat split; assumption || reflexivity.
  - cbn [dict_get lookup bind ret truthy negb orb run_io fst snd].
    split; [left; reflexivity|]. intros resp H. injection H as <-. left. split; reflexivity.
Qed.

(** X9. A payload without the object [main] (what the provider sends for a bad
    key or bad coordinates) is not handled: with no or a well-formed [rain]
    entry the derivation raises [KeyError], and so does the handler, after its
    one request. A failure of the provider itself is passed on as well. *)
Theorem payload_without_main (kvs : list (string * json)) :
  lookup "main" kvs = None ->
  (lookup "rain" kvs = None \/ exists rain, lookup "rain" kvs = Some (JObj rain)) ->
  derive (JObj kvs) = raise KeyError /\
  (forall (lat lon : json) (provider : json -> json -> res json),
     truthy lat = true -> truthy lon = true ->
     (provider lat lon = ret (JObj kvs) ->
      run_io provider (insights (JObj [("latitude"%string, lat); ("longitude"%string, lon)])) =
        (raise KeyError, [(lat, lon)])) /\
     (forall e, provider lat lon = raise e ->
      run_io provider (insights (JObj [("latitude"%string, lat); ("longitude"%string, lon)])) =
        (raise e, [(lat, lon)]))).
Proof.
  intros Hm Hr.
  assert (Hd : derive (JObj kvs) = raise KeyError).
  { unfold derive, dict_get, dict_item. rewrite Hm.
    destruct Hr as [Hr | [rain Hr]]; rewrite Hr; reflexivity. }
  split; [exact Hd|]. intros lat lon provider Tlat Tlon.
  split; [intros Hp | intros e Hp];
    unfold insights; cbn [truthy dict_get lookup String.eqb Ascii.eqb Bool.eqb bind ret];
    rewrite Tlat, Tlon; cbn [negb orb run_io]; rewrite Hp; cbn [bind ret];
    rewrite ?Hd; reflexivity.
Qed.

(** X10. More rain never lowers the irrigation tier: for two rainfalls the
    derivation accepts, [r1 <= r2] gives an efficiency and an index for [r2]
    that are at least those for [r1]. *)
Theorem irrigation_monotone (r1 r2 : num) :
  num_in_range r1 = true -> num_in_range r2 = true ->
  py_le r1 r2 = true ->
  tier_efficiency (irrigation r1) <= tier_efficiency (irrigation r2) /\
  (tier_index (irrigation r1) <=? tier_index (irrigation r2))%float = true.
Proof.
  intros H1 H2 Hle. rewrite (irrigation_spec r1 H1), (irrigation_spec r2 H2).
  apply spec_tier_monotone, (py_le_Q r1 r2 H1 H2 Hle).
Qed.

Lemma payload_without_main_witness :
  derive provider_error_payload = raise KeyError /\
  run_io (fun _ _ => ret provider_error_payload)
         (insights (JObj [("latitude"%string, JFloat 12.5); ("longitude"%string, JFloat 77.2)])) =
    (raise KeyError, [(JFloat 12.5, JFloat 77.2)]).
Proof.
  destruct (payload_without_main
              [("cod"%string, JInt 401);
               ("message"%string, JStr "Invalid API key. Please see https://openweathermap.org/faq#error401 for more info.")]
              eq_refl (or_introl eq_refl)) as [Hd Hr].
  split; [exact Hd|].
  exact (proj1 (Hr (JFloat 12.5) (JFloat 77.2) (fun _ _ => ret provider_error_payload)
                   eq_refl eq_refl) eq_refl).
Defined.

Lemma irrigation_monotone_witness :
  tier_efficiency (irrigation (NInt 10)) <= tier_efficiency (irrigation (NFloat 10.5)) /\
  (tier_index (irrigation (NInt 10)) <=? tier_index (irrigation (NFloat 10.5)))%float = true.
Proof.
  exact (irrigation_monotone (NInt 10) (NFloat 10.5) eq_refl eq_refl eq_refl).
Defined.

(** ** Magnitudes: which requests of [/predict] are answered *)

Local Open Scope Q_scope.

Lemma SFabs_le_finite (r : spec_float) (b : Q) : SFabs_le r b -> sf_finite r = true.
Proof. destruct r; cbn; intros H; try contradiction; reflexivity. Qed.

Lemma SFabs_le_nonneg (r : spec_float) (b : Q) : SFabs_le r b -> 0 <= b.
Proof.
  destruct r as [s | s | | s m e]; cbn; intros H; try contradiction; [exact H|].
  pose proof (dy_pos (Zpos m) e ltac:(lia)). lra.
Qed.

Lemma SFabs_le_weaken (r : spec_float) (a b : Q) : a <= b -> SFabs_le r a -> SFabs_le r b.
Proof. destruct r; cbn; intros Hab H; try contradiction; lra. Qed.

Lemma SFabs_le_value (r : spec_float) (b : Q) : SFabs_le r b -> - b <= SF2Q r /\ SF2Q r <= b.
Proof.
  destruct r as [s | s | | s m e]; cbn [SFabs_le SF2Q]; intros H; try contradiction.
  - lra.
  - pose proof (dy_pos (Zpos m) e ltac:(lia)).
    destruct s; cbn [cond_Zopp].
    + change (Z.neg m) with (- Zpos m)%Z. rewrite dy_opp. lra.
    + lra.
Qed.

Lemma SFabs_of_bounds (r : spec_float) (b : Q) :
  0 <= b -> SFge_Q r (- b) -> SFle_Q r b -> SFabs_le r b.
Proof.
  intros Hb Hge Hle.
  destruct r as [s | s | | s m e]; cbn [SFabs_le SFge_Q SFle_Q SF2Q] in *; try contradiction.
  - exact Hb.
  - congruence.
  - destruct s; cbn [cond_Zopp] in *.
    + change (Z.neg m) with (- Zpos m)%Z in Hge. rewrite dy_opp in Hge. lra.
    + exact Hle.
Qed.

Lemma binary_normalize_abs (z e : Z) (sz : bool) (mg : positive) (eg : Z) :
  bounded prec emax mg eg = true ->
  - dy (Zpos mg) eg <= dy z e -> dy z e <= dy (Zpos mg) eg ->
  SFabs_le (binary_normalize prec emax z e sz) (dy (Zpos mg) eg).
Proof.
  intros Hg Hlo Hhi. pose proof (dy_pos (Zpos mg) eg ltac:(lia)).
  apply SFabs_of_bounds; [lra | |].
  - apply binary_normalize_ge_neg; assumption.
  - apply binary_normalize_le; assumption.
Qed.

(** The magnitude of a difference is at most the sum of the magnitudes. *)
Lemma SFsub_abs (x y : spec_float) (a b : Q) (mg : positive) (eg : Z) :
  bounded prec emax mg eg = true ->
  SFabs_le x a -> SFabs_le y b -> a + b <= dy (Zpos mg) eg ->
  SFabs_le (SFsub prec emax x y) (dy (Zpos mg) eg).
Proof.
  intros Hg Hx Hy Hab.
  pose proof (SFabs_le_nonneg x a Hx). pose proof (SFabs_le_nonneg y b Hy).
  pose proof (SFabs_le_value x a Hx) as [X1 X2]. pose proof (SFabs_le_value y b Hy) as [Y1 Y2].
  destruct x as [sx | sx | | sx mx ex]; try contradiction;
  destruct y as [sy | sy | | sy my ey]; try contradiction; cbn [SFsub].
  - destruct sx, sy; cbn; lra.
  - cbn [SFabs_le] in *. lra.
  - cbn [SFabs_le] in *. lra.
  - destruct (SFsub_finite sx sy mx my ex ey) as (z & Hz & Hv).
    unfold SFsub in Hz. rewrite Hz.
    apply binary_normalize_abs; [assumption | rewrite Hv; lra | rewrite Hv; lra].
Qed.

(** The magnitude of a product with a constant. *)
Lemma SFmul_abs (x : spec_float) (sc : bool) (mc : positive) (ec : Z) (a : Q)
    (mg : positive) (eg : Z) :
  valid_binary x = true -> bounded prec emax mc ec = true ->
  bounded prec emax mg eg = true ->
  SFabs_le x a -> a * dy (Zpos mc) ec <= dy (Zpos mg) eg ->
  SFabs_le (SFmul prec emax x (S754_finite sc mc ec)) (dy (Zpos mg) eg).
Proof.
  intros Vx Vc Hg Hx Hac. pose proof (dy_pos (Zpos mg) eg ltac:(lia)) as Hgpos.
  destruct x as [sx | sx | | sx mx ex]; try contradiction; cbn [SFmul].
  - cbn. lra.
  - cbn in Vx. apply bounded_inv in Vx as [Cx _]. apply bounded_inv in Vc as [Cc _].
    pose proof (mul_round_pre mx mc ex ec Cx Cc) as Hpre.
    cbn [SFabs_le] in Hx.
    assert (Hv : inject_Z (Zpos (mx * mc)) * pow2 (ex + ec) <= dy (Zpos mg) eg).
    { fold (dy (Zpos (mx * mc)) (ex + ec)). rewrite SFmul_finite_value by exact true.
      pose proof (dy_pos (Zpos mx) ex ltac:(lia)). pose proof (dy_pos (Zpos mc) ec ltac:(lia)).
      nra. }
    pose proof (round_aux_upper prec emax prec_pos (xorb sx sc) (Zpos (mx * mc)) (ex + ec)
                  loc_Exact (inject_Z (Zpos (mx * mc))) mg eg ltac:(lia) Hpre
                  (or_introl (conj eq_refl (Qeq_refl _))) Hg Hv) as H.
    destruct (binary_round_aux prec emax (xorb sx sc) (Zpos (mx * mc)) (ex + ec) loc_Exact)
      as [s | s | | s m e]; try contradiction; cbn [SFabs_le].
    + lra.
    + destruct H as [_ H]. exact H.
Qed.

(** Rounding to [nd] decimals keeps the magnitude below a bound that has at
    most [nd] decimals itself. *)
Lemma sf_round_abs (x : spec_float) (nd : Z) (mg : positive) (eg N : Z) :
  (0 <= nd)%Z -> bounded prec emax mg eg = true ->
  dy (Zpos mg) eg * inject_Z (10 ^ nd) == inject_Z N ->
  SFabs_le x (dy (Zpos mg) eg) ->
  SFabs_le (sf_round x nd) (dy (Zpos mg) eg).
Proof.
  intros Hnd Hg HN Hx. pose proof (dy_pos (Zpos mg) eg ltac:(lia)) as Hgpos.
  destruct x as [s | s | | s m e]; try exact Hx.
  cbn [sf_round SFabs_le] in *.
  destruct (pow10_pos nd Hnd) as [p Hp]. rewrite Hp in *. cbn [Z2SF].
  assert (Hp0 : 0 < inject_Z (Zpos p)) by (apply inject_Z_pos; lia).
  assert (Hb : dy (Zpos m * Zpos p) e <= inject_Z N).
  { rewrite <- HN. unfold dy in *. rewrite inject_Z_mult.
    setoid_replace (inject_Z (Zpos m) * inject_Z (Zpos p) * pow2 e)
      with (inject_Z (Zpos m) * pow2 e * inject_Z (Zpos p)) by ring.
    apply Qmult_le_compat_r; lra. }
  pose proof (round_half_even_bounds (Zpos m * Zpos p) e N ltac:(lia) Hb) as [Hq0 HqN].
  destruct (round_half_even (Zpos m * Zpos p) e) as [| q | q]; try (cbn; lra).
  cbn [SFdiv]. pose proof (SFdiv_core_spec q p 0 0) as Hc.
  destruct (SFdiv_core_binary prec emax (Zpos q) 0 (Zpos p) 0) as [[mz ez] lz].
  destruct Hc as (x & Hq & Hpre & Hloc & Hv). rewrite !dy_0 in Hv.
  assert (Hle : x * pow2 ez <= dy (Zpos mg) eg).
  { rewrite Hv. apply Qle_shift_div_r; [exact Hp0|]. rewrite HN. rewrite <- Zle_Qle. exact HqN. }
  pose proof (round_aux_upper prec emax prec_pos (xorb s false) mz ez lz x mg eg Hq Hpre Hloc Hg
                Hle) as H.
  destruct (binary_round_aux prec emax (xorb s false) mz ez lz) as [s' | s' | | s' m' e'];
    try contradiction; cbn [SFabs_le].
  - lra.
  - destruct H as [_ H]. exact H.
Qed.

(** *** The classes of a float *)

Lemma is_infinity_spec (f : float) :
  is_infinity f = match Prim2SF f with S754_infinity _ => true | _ => false end.
Proof.
  unfold is_infinity. rewrite FloatAxioms.eqb_spec, FloatAxioms.abs_spec.
  change (Prim2SF infinity) with (S754_infinity false).
  destruct (Prim2SF f) as [s | s | | s m e]; reflexivity.
Qed.

Lemma is_nan_spec (f : float) :
  is_nan f = match Prim2SF f with S754_nan => true | _ => false end.
Proof.
  unfold is_nan. rewrite FloatAxioms.eqb_spec.
  pose proof (valid_Prim2SF f) as V.
  destruct (Prim2SF f) as [s | s | | s m e]; cbn; try reflexivity;
    try (destruct s; reflexivity).
  destruct s; rewrite Z.compare_refl, Pos.compare_cont_refl; reflexivity.
Qed.

Lemma float_classes (f : float) :
  is_finite f = true \/ f = nan \/ f = infinity \/ f = neg_infinity.
Proof.
  rewrite is_finite_spec.
  destruct (Prim2SF f) as [s | s | | s m e] eqn:E.
  - left. reflexivity.
  - right. right. destruct s; [right | left]; apply Prim2SF_inj; rewrite E; reflexivity.
  - right. left. apply Prim2SF_inj. rewrite E. reflexivity.
  - left. reflexivity.
Qed.

Lemma not_infinite_cases (f : float) :
  is_infinity f = false -> is_finite f = true \/ f = nan.
Proof.
  intros H. destruct (float_classes f) as [Hf | [Hn | [Hi | Hi]]]; auto; subst f; discriminate.
Qed.

Lemma infinite_cases (f : float) :
  is_infinity f = true -> f = infinity \/ f = neg_infinity.
Proof.
  intros H. destruct (float_classes f) as [Hf | [Hn | [Hi | Hi]]]; auto.
  - rewrite is_finite_spec in Hf. rewrite is_infinity_spec in H.
    destruct (Prim2SF f); discriminate.
  - subst f. discriminate.
Qed.

(** A finite float is the largest one, up to the sign, or at most the one
    before it. *)
Lemma finite_float_cases (v : float) :
  is_finite v = true ->
  (exists s, Prim2SF v = S754_finite s max_mantissa 971) \/
  SFabs_le (Prim2SF v) (dy 9007199254740990 971).
Proof.
  intros Fv. rewrite is_finite_spec in Fv. pose proof (valid_Prim2SF v) as V.
  destruct (Prim2SF v) as [s | s | | s m e]; try discriminate.
  - right. cbn. apply Qlt_le_weak, dy_pos. lia.
  - cbn in V. apply bounded_inv in V as [C He]. apply canonical_inv in C as (_ & Hm & _ & _).
    unfold prec, emax in *.
    destruct (Z.eq_dec e 971) as [-> | Hne].
    + destruct (Pos.eq_dec m max_mantissa) as [-> | Hm'].
      * left. exists s. reflexivity.
      * right. cbn [SFabs_le]. apply dy_le.
        assert (Zpos m <> Zpos max_mantissa) by congruence.
        unfold max_mantissa in *. lia.
    + right. cbn [SFabs_le].
      apply Qle_trans with (dy (2 ^ 53) e); [apply dy_le; lia|].
      rewrite (dy_rescale 9007199254740990 e 971) by lia. apply dy_le.
      assert (2 <= 2 ^ (971 - e))%Z.
      { change 2%Z with (2 ^ 1)%Z at 1. apply Z.pow_le_mono_r; lia. }
      nia.
Qed.

(** *** No overflow in the penalties *)

Lemma SFabs_leb_ok (r : spec_float) (b : Q) : SFabs_leb r b = true -> SFabs_le r b.
Proof.
  destruct r; cbn; intros H; try discriminate; apply Qle_bool_iff; exact H.
Qed.

Ltac Qle_compute := apply Qle_bool_iff; vm_compute; reflexivity.

Ltac abs_compute := apply SFabs_leb_ok; vm_compute; reflexivity.

(** A constant of small magnitude and a finite float: neither difference
    overflows. At the largest float the differences are computed, elsewhere
    the exact difference is at most the largest float. *)
Lemma sub_const_abs (c v : float) :
  SFabs_le (Prim2SF c) (pow2 971) ->
  (forall s, SFabs_le (SFsub prec emax (Prim2SF c) (S754_finite s max_mantissa 971)) max_float_Q) ->
  (forall s, SFabs_le (SFsub prec emax (S754_finite s max_mantissa 971) (Prim2SF c)) max_float_Q) ->
  is_finite v = true ->
  SFabs_le (Prim2SF (c - v)) max_float_Q /\ SFabs_le (Prim2SF (v - c)) max_float_Q.
Proof.
  intros Hc H1 H2 Fv. rewrite !sub_spec. unfold SF64sub.
  destruct (finite_float_cases v Fv) as [[s E] | Hv].
  - rewrite E. split; [apply H1 | apply H2].
  - assert (Hsum : pow2 971 + dy 9007199254740990 971 <= dy (Zpos max_mantissa) 971).
    { unfold dy, max_mantissa. pose proof (pow2_pos 971).
      change (inject_Z 9007199254740990) with (9007199254740990 # 1).
      change (inject_Z 9007199254740991) with (9007199254740991 # 1). lra. }
    unfold max_float_Q. split.
    + apply (SFsub_abs _ _ (pow2 971) (dy 9007199254740990 971)); [reflexivity | | | lra];
        assumption.
    + apply (SFsub_abs _ _ (dy 9007199254740990 971) (pow2 971)); [reflexivity | | | lra];
        assumption.
Qed.

Lemma range_sub_abs (k : crop_kind) (v : float) :
  is_finite v = true ->
  SFabs_le (Prim2SF (fst (spec_temp_range k) - v)) max_float_Q /\
  SFabs_le (Prim2SF (v - snd (spec_temp_range k))) max_float_Q /\
  SFabs_le (Prim2SF (fst (spec_rain_range k) - v)) max_float_Q /\
  SFabs_le (Prim2SF (v - snd (spec_rain_range k))) max_float_Q.
Proof.
  intros Fv.
  assert (H : forall c : float,
            SFabs_leb (Prim2SF c) (pow2 971) = true ->
            SFabs_leb (SFsub prec emax (Prim2SF c) (S754_finite true max_mantissa 971)) max_float_Q
              = true ->
            SFabs_leb (SFsub prec emax (Prim2SF c) (S754_finite false max_mantissa 971)) max_float_Q
              = true ->
            SFabs_leb (SFsub prec emax (S754_finite true max_mantissa 971) (Prim2SF c)) max_float_Q
              = true ->
            SFabs_leb (SFsub prec emax (S754_finite false max_mantissa 971) (Prim2SF c)) max_float_Q
              = true ->
            SFabs_le (Prim2SF (c - v)) max_float_Q /\ SFabs_le (Prim2SF (v - c)) max_float_Q).
  { intros c H0 H1 H2 H3 H4. apply sub_const_abs; [apply SFabs_leb_ok; exact H0 | | | exact Fv];
      intros []; apply SFabs_leb_ok; assumption. }
  destruct k; cbn [spec_temp_range spec_rain_range fst snd];
    (split; [|split; [|split]]);
    match goal with
    | |- SFabs_le (Prim2SF (?c - v)) _ => refine (proj1 (H c _ _ _ _ _))
    | |- SFabs_le (Prim2SF (v - ?c)) _ => refine (proj2 (H c _ _ _ _ _))
    end; vm_compute; reflexivity.
Qed.

(** The penalty for a difference that did not overflow. *)
Lemma penalty_abs (d rate : float) (mc : positive) (ec : Z) (mg : positive) (eg : Z) :
  Prim2SF rate = S754_finite false mc ec -> bounded prec emax mg eg = true ->
  max_float_Q * dy (Zpos mc) ec <= dy (Zpos mg) eg ->
  SFabs_le (Prim2SF d) max_float_Q ->
  SFabs_le (Prim2SF (d * rate)) (dy (Zpos mg) eg).
Proof.
  intros Hrate Hg Hle Hd. pose proof (valid_Prim2SF rate) as Vr. rewrite Hrate in Vr.
  rewrite mul_spec, Hrate. unfold SF64mul.
  apply (SFmul_abs _ false mc ec max_float_Q); try assumption. apply valid_Prim2SF.
Qed.

Lemma ltb_nan_l (x : float) : (nan <? x)%float = false.
Proof. rewrite ltb_spec. reflexivity. Qed.

Lemma ltb_nan_r (x : float) : (x <? nan)%float = false.
Proof.
  rewrite ltb_spec. change (Prim2SF nan) with S754_nan.
  unfold SFltb. destruct (Prim2SF x) as [s | s | | s m e]; try reflexivity; destruct s; reflexivity.
Qed.

(** One step of the estimate: the magnitude grows by at most the bound of
    the penalty. *)
Lemma spec_penalty_abs (lo hi v rate : float) (y : num) (a p : Q) (mg : positive) (eg : Z) :
  bounded prec emax mg eg = true ->
  num_abs_le y a -> 0 <= p -> a + p <= dy (Zpos mg) eg ->
  ((v <? lo)%float = true -> SFabs_le (Prim2SF ((lo - v) * rate)) p) ->
  ((hi <? v)%float = true -> SFabs_le (Prim2SF ((v - hi) * rate)) p) ->
  num_abs_le (spec_penalty (lo, hi) v rate y) (dy (Zpos mg) eg).
Proof.
  intros Hg Hy Hp Hap H1 H2. unfold spec_penalty, num_abs_le in *.
  destruct (v <? lo)%float; [|destruct (hi <? v)%float].
  - cbn [num_float]. rewrite sub_spec. unfold SF64sub.
    apply (SFsub_abs _ _ a p); auto.
  - cbn [num_float]. rewrite sub_spec. unfold SF64sub.
    apply (SFsub_abs _ _ a p); auto.
  - apply (SFabs_le_weaken _ a); [lra | exact Hy].
Qed.

Lemma base_abs (k : crop_kind) : num_abs_le (spec_base_yield k) 8.
Proof. unfold num_abs_le. destruct k; abs_compute. Qed.

(** The estimate after the temperature step, for a temperature that is not
    infinite. *)
Lemma temperature_step_abs (k : crop_kind) (temp : float) :
  is_infinity temp = false ->
  num_abs_le (spec_penalty (spec_temp_range k) temp 0.2 (spec_base_yield k))
    (dy 4503599627370497 970).
Proof.
  intros Ht. destruct (spec_temp_range k) as [lo hi] eqn:E.
  apply (spec_penalty_abs lo hi temp 0.2 _ 8 (dy 4503599627370496 970));
    [reflexivity | apply base_abs | Qle_compute | Qle_compute | |].
  - intros Hlt. destruct (not_infinite_cases temp Ht) as [Ft | ->];
      [|rewrite ltb_nan_l in Hlt; discriminate].
    apply (penalty_abs _ _ 7205759403792794 (-55)); [reflexivity | reflexivity | Qle_compute |].
    pose proof (range_sub_abs k temp Ft) as (H & _). rewrite E in H. exact H.
  - intros Hlt. destruct (not_infinite_cases temp Ht) as [Ft | ->];
      [|rewrite ltb_nan_r in Hlt; discriminate].
    apply (penalty_abs _ _ 7205759403792794 (-55)); [reflexivity | reflexivity | Qle_compute |].
    pose proof (range_sub_abs k temp Ft) as (_ & H & _). rewrite E in H. exact H.
Qed.

(** The estimate after the temperature and the rainfall steps, for values
    that are not infinite, is finite: at most [2^1023] in magnitude. *)
Lemma spec_weather_adjusted_abs (crop : string) (temp rainfall : float) :
  is_infinity temp = false -> is_infinity rainfall = false ->
  num_abs_le (spec_weather_adjusted crop temp rainfall) (dy 4503599627370496 971).
Proof.
  intros Ht Hr. unfold spec_weather_adjusted. set (k := crop_kind_of crop).
  pose proof (temperature_step_abs k temp Ht) as H1.
  destruct (spec_rain_range k) as [lo hi] eqn:E.
  apply (spec_penalty_abs lo hi rainfall 0.1 _ (dy 4503599627370497 970)
           (dy 4503599627370496 969));
    [reflexivity | exact H1 | Qle_compute | Qle_compute | |].
  - intros Hlt. destruct (not_infinite_cases rainfall Hr) as [Fr | ->];
      [|rewrite ltb_nan_l in Hlt; discriminate].
    apply (penalty_abs _ _ 7205759403792794 (-56)); [reflexivity | reflexivity | Qle_compute |].
    pose proof (range_sub_abs k rainfall Fr) as (_ & _ & H & _). rewrite E in H. exact H.
  - intros Hlt. destruct (not_infinite_cases rainfall Hr) as [Fr | ->];
      [|rewrite ltb_nan_r in Hlt; discriminate].
    apply (penalty_abs _ _ 7205759403792794 (-56)); [reflexivity | reflexivity | Qle_compute |].
    pose proof (range_sub_abs k rainfall Fr) as (_ & _ & _ & H). rewrite E in H. exact H.
Qed.

Lemma num_abs_finite (y : num) (b : Q) : num_abs_le y b -> num_finite y = true.
Proof.
  destruct y as [z | f]; [reflexivity|]. unfold num_abs_le. cbn [num_float num_finite].
  rewrite is_finite_spec. apply SFabs_le_finite.
Qed.

(** A factor of at most 1 keeps the magnitude below its bound. *)
Lemma scale_abs (y : num) (c : float) (mc : positive) (ec : Z) (mg : positive) (eg : Z) :
  Prim2SF c = S754_finite false mc ec -> dy (Zpos mc) ec <= 1 ->
  bounded prec emax mg eg = true ->
  num_abs_le y (dy (Zpos mg) eg) -> num_abs_le (NFloat (num_float y * c)) (dy (Zpos mg) eg).
Proof.
  intros Hc Hle Hg Hy. unfold num_abs_le in *. cbn [num_float].
  pose proof (valid_Prim2SF c) as Vc. rewrite Hc in Vc.
  rewrite mul_spec, Hc. unfold SF64mul.
  apply (SFmul_abs _ false mc ec (dy (Zpos mg) eg)); try assumption; [apply valid_Prim2SF|].
  pose proof (dy_pos (Zpos mg) eg ltac:(lia)). pose proof (dy_pos (Zpos mc) ec ltac:(lia)). nra.
Qed.

Lemma round_abs (y : num) (mg : positive) (eg N : Z) :
  bounded prec emax mg eg = true ->
  dy (Zpos mg) eg * inject_Z (10 ^ 2) == inject_Z N ->
  num_abs_le y (dy (Zpos mg) eg) -> num_abs_le (py_round y 2) (dy (Zpos mg) eg).
Proof.
  intros Hg HN Hy. destruct y as [z | f]; [exact Hy|].
  unfold num_abs_le in *. cbn [py_round num_float] in *.
  rewrite Prim2SF_SF2Prim by (apply sf_round_valid; [lia | apply valid_Prim2SF]).
  apply (sf_round_abs _ 2 mg eg N); [lia | assumption | assumption | assumption].
Qed.

(** *** Infinite operands *)

Lemma ltb_infinity_l (x : float) : (infinity <? x)%float = false.
Proof.
  rewrite ltb_spec. change (Prim2SF infinity) with (S754_infinity false).
  unfold SFltb. destruct (Prim2SF x) as [s | s | | s m e]; try reflexivity; destruct s; reflexivity.
Qed.

Lemma ltb_neg_infinity_r (x : float) : (x <? neg_infinity)%float = false.
Proof.
  rewrite ltb_spec. change (Prim2SF neg_infinity) with (S754_infinity true).
  unfold SFltb. destruct (Prim2SF x) as [s | s | | s m e]; try reflexivity; destruct s; reflexivity.
Qed.

(** The penalty [(a - b) * rate] for a finite [a] and [b < a], a [b] that may
    be infinite: not NaN and not negative. *)
Lemma penalty_below_sign (a b rate : float) (mc : positive) (ec : Z) :
  is_finite a = true -> Prim2SF rate = S754_finite false mc ec ->
  (b <? a)%float = true ->
  SFge_Q (Prim2SF ((a - b) * rate)) 0.
Proof.
  intros Fa Hrate Hlt.
  destruct (float_classes b) as [Fb | [-> | [-> | ->]]].
  - apply (penalty_nonneg a b rate mc ec); assumption.
  - rewrite ltb_nan_l in Hlt. discriminate.
  - rewrite ltb_infinity_l in Hlt. discriminate.
  - rewrite mul_spec, sub_spec, Hrate. unfold SF64mul, SF64sub.
    change (Prim2SF neg_infinity) with (S754_infinity true).
    rewrite is_finite_spec in Fa.
    destruct (Prim2SF a) as [s | s | | s m e]; try discriminate; reflexivity.
Qed.

Lemma penalty_above_sign (a b rate : float) (mc : positive) (ec : Z) :
  is_finite a = true -> Prim2SF rate = S754_finite false mc ec ->
  (a <? b)%float = true ->
  SFge_Q (Prim2SF ((b - a) * rate)) 0.
Proof.
  intros Fa Hrate Hlt.
  destruct (float_classes b) as [Fb | [-> | [-> | ->]]].
  - apply (penalty_nonneg b a rate mc ec); assumption.
  - rewrite ltb_nan_r in Hlt. discriminate.
  - rewrite mul_spec, sub_spec, Hrate. unfold SF64mul, SF64sub.
    change (Prim2SF infinity) with (S754_infinity false).
    rewrite is_finite_spec in Fa.
    destruct (Prim2SF a) as [s | s | | s m e]; try discriminate; reflexivity.
  - rewrite ltb_neg_infinity_r in Hlt. discriminate.
Qed.

Lemma neg_infinity_sub (p : float) :
  SFge_Q (Prim2SF p) 0 -> (neg_infinity - p)%float = neg_infinity.
Proof.
  intros Hp. apply Prim2SF_inj. rewrite sub_spec. unfold SF64sub.
  change (Prim2SF neg_infinity) with (S754_infinity true).
  destruct (Prim2SF p) as [s | s | | s m e]; cbn [SFge_Q] in Hp; try contradiction;
    subst; reflexivity.
Qed.

Lemma finite_sub_infinity (f : float) :
  is_finite f = true -> (f - infinity)%float = neg_infinity.
Proof.
  intros Ff. apply Prim2SF_inj. rewrite sub_spec. unfold SF64sub.
  change (Prim2SF infinity) with (S754_infinity false).
  rewrite is_finite_spec in Ff.
  destruct (Prim2SF f) as [s | s | | s m e]; try discriminate; reflexivity.
Qed.

(** An estimate that is minus infinity stays so through a step. *)
Lemma spec_penalty_neg_infinity (lo hi v rate : float) (mc : positive) (ec : Z) :
  is_finite lo = true -> is_finite hi = true ->
  Prim2SF rate = S754_finite false mc ec ->
  spec_penalty (lo, hi) v rate (NFloat neg_infinity) = NFloat neg_infinity.
Proof.
  intros Flo Fhi Hrate. unfold spec_penalty. cbn [num_float].
  destruct (v <? lo)%float eqn:E1; [|destruct (hi <? v)%float eqn:E2; [|reflexivity]].
  - rewrite (neg_infinity_sub _ (penalty_below_sign lo v rate mc ec Flo Hrate E1)). reflexivity.
  - rewrite (neg_infinity_sub _ (penalty_above_sign hi v rate mc ec Fhi Hrate E2)). reflexivity.
Qed.

(** An infinite value sends a finite estimate to minus infinity. *)
Lemma spec_penalty_at_infinity (lo hi rate : float) (y : num) (b : Q) :
  num_abs_le y b ->
  (hi <? infinity)%float = true -> ((infinity - hi) * rate)%float = infinity ->
  (neg_infinity <? lo)%float = true -> ((lo - neg_infinity) * rate)%float = infinity ->
  spec_penalty (lo, hi) infinity rate y = NFloat neg_infinity /\
  spec_penalty (lo, hi) neg_infinity rate y = NFloat neg_infinity.
Proof.
  intros Hy H1 H2 H3 H4. unfold num_abs_le in Hy.
  assert (Fy : is_finite (num_float y) = true)
    by (rewrite is_finite_spec; apply (SFabs_le_finite _ b Hy)).
  unfold spec_penalty. rewrite ltb_infinity_l, H1, H2, H3, H4.
  rewrite (finite_sub_infinity _ Fy). split; reflexivity.
Qed.

Lemma spec_penalty_infinite (k : crop_kind) (v : float) (y : num) (b : Q) :
  is_infinity v = true -> num_abs_le y b ->
  spec_penalty (spec_temp_range k) v 0.2 y = NFloat neg_infinity /\
  spec_penalty (spec_rain_range k) v 0.1 y = NFloat neg_infinity.
Proof.
  intros Hv Hy.
  destruct (infinite_cases v Hv) as [-> | ->]; destruct k; cbn [spec_temp_range spec_rain_range];
    split;
    match goal with
    | |- spec_penalty (?lo, ?hi) infinity ?rate y = _ =>
        exact (proj1 (spec_penalty_at_infinity lo hi rate y b Hy eq_refl eq_refl eq_refl eq_refl))
    | |- spec_penalty (?lo, ?hi) neg_infinity ?rate y = _ =>
        exact (proj2 (spec_penalty_at_infinity lo hi rate y b Hy eq_refl eq_refl eq_refl eq_refl))
    end.
Qed.

(** With an infinite temperature or rainfall the estimate after the two
    steps is minus infinity. *)
Lemma spec_weather_adjusted_infinite (crop : string) (temp rainfall : float) :
  is_infinity temp = true \/ is_infinity rainfall = true ->
  spec_weather_adjusted crop temp rainfall = NFloat neg_infinity.
Proof.
  intros H. unfold spec_weather_adjusted. set (k := crop_kind_of crop).
  destruct (range_constants_finite k) as (_ & _ & Flo & Fhi).
  destruct (is_infinity temp) eqn:Et.
  - rewrite (proj1 (spec_penalty_infinite k temp _ 8 Et (base_abs k))).
    destruct (spec_rain_range k) as [lo hi]. cbn [fst snd] in *.
    apply (spec_penalty_neg_infinity lo hi rainfall 0.1 7205759403792794 (-56) Flo Fhi eq_refl).
  - destruct H as [H | Hr]; [discriminate|].
    pose proof (temperature_step_abs k temp Et) as H1.
    apply (spec_penalty_infinite k rainfall _ _ Hr H1).
Qed.

Local Open Scope Z_scope.

Lemma confidence_of_finite (y : num) :
  num_finite y = true -> exists c, confidence y = ret c /\ 80 <= c <= 85.
Proof.
  intros Hy. unfold confidence. destruct y as [z | f].
  - destruct (confidence_unclamped_int z) as [-> Hb]. exists (80 + z mod 5).
    cbn [bind ret]. split; [f_equal|]; lia.
  - destruct (confidence_unclamped_float f Hy) as (i & -> & _ & Hb). exists i.
    cbn [bind ret]. split; [f_equal|]; lia.
Qed.

Section AnsweredRequests.
Context {rt : PyRuntime}.

(** What the planting-date step can make of an estimate. *)
Lemma adjust_planting_cases (v : json) (now : datetime) (y : num) :
  convertible y ->
  adjust_planting v now y = y \/
  adjust_planting v now y = NFloat (num_float y * 0.8) \/
  adjust_planting v now y = NFloat (num_float y * 0.9).
Proof.
  intros Hy. unfold adjust_planting. destruct (truthy v); [|left; reflexivity].
  unfold planting_try. destruct (strptime v) as [d | e]; cbn [bind ret]; [|left; reflexivity].
  destruct (timedelta_days now d <? 60).
  - rewrite (py_mul_float y _ Hy). right. left. reflexivity.
  - destruct (180 <? timedelta_days now d).
    + rewrite (py_mul_float y _ Hy). right. right. reflexivity.
    + left. reflexivity.
Qed.

(** The handler on a dict whose crop type and weather fields convert. *)
Lemma predict_fields (kvs : list (string * json)) (now : datetime) (crop : string)
    (temp rainfall : float) :
  lower (field_or kvs "crop_type" (JStr "")) = ret crop ->
  py_float (field_or kvs "temperature" (JInt 25)) = ret temp ->
  py_float (field_or kvs "rainfall" (JInt 50)) = ret rainfall ->
  predict (JObj kvs) now =
    (result <- predict_core crop temp rainfall (field_or kvs "planting_date" JNull) now ;;
     ret (jsonify_yield result)).
Proof.
  intros Hc Ht Hr. unfold predict. rewrite data_of_dict. unfold dict_get, field_or in *.
  cbn [bind ret]. rewrite Hc. cbn [bind ret]. rewrite Ht. cbn [bind ret]. rewrite Hr.
  reflexivity.
Qed.

Lemma estimate_abs (crop : string) (temp rainfall : float) (v : json) (now : datetime) :
  is_infinity temp = false -> is_infinity rainfall = false ->
  num_abs_le (adjust_planting v now (spec_weather_adjusted crop temp rainfall))
    (dy 4503599627370496 971).
Proof.
  intros Ht Hr. pose proof (spec_weather_adjusted_abs crop temp rainfall Ht Hr) as Ha.
  assert (Hconv : convertible (spec_weather_adjusted crop temp rainfall)).
  { unfold spec_weather_adjusted. apply spec_penalty_convertible, spec_penalty_convertible,
      spec_base_convertible. }
  destruct (adjust_planting_cases v now _ Hconv) as [-> | [-> | ->]].
  - exact Ha.
  - apply (scale_abs _ 0.8 7205759403792794 (-53)); [reflexivity | | reflexivity | exact Ha].
    apply Qle_bool_iff. vm_compute. reflexivity.
  - apply (scale_abs _ 0.9 8106479329266893 (-53)); [reflexivity | | reflexivity | exact Ha].
    apply Qle_bool_iff. vm_compute. reflexivity.
Qed.

(** X11. Every request whose temperature and rainfall are not infinite is
    answered. For a dict whose crop type is absent or a string and whose
    [temperature] and [rainfall], or their defaults, convert to floats that
    are finite or NaN, no step overflows: the handler returns status 200 with
    a finite predicted yield and a confidence between 80 and 85, whatever the
    crop and the planting date. *)
Theorem finite_weather_is_answered (kvs : list (string * json)) (now : datetime)
    (temp rainfall : float) :
  crop_type_ok kvs ->
  py_float (field_or kvs "temperature" (JInt 25)) = ret temp ->
  py_float (field_or kvs "rainfall" (JInt 50)) = ret rainfall ->
  is_infinity temp = false -> is_infinity rainfall = false ->
  exists r,
    predict (JObj kvs) now = ret (jsonify_yield r) /\
    status (jsonify_yield r) = 200 /\
    num_finite (yr_predicted_yield r) = true /\
    80 <= yr_confidence r <= 85.
Proof.
  intros Hc Ht Hr Ft Fr. destruct (lower_crop_type kvs Hc) as [crop Hcrop].
  rewrite (predict_fields kvs now crop temp rainfall Hcrop Ht Hr).
  set (v := field_or kvs "planting_date" JNull).
  pose proof (estimate_abs crop temp rainfall v now Ft Fr) as Ha.
  destruct (confidence_of_finite _ (num_abs_finite _ _ Ha)) as (c & Hconf & Hb).
  rewrite (predict_core_estimate crop temp rainfall v now _ c eq_refl Hconf). cbn [bind ret].
  eexists. split; [reflexivity|]. split; [reflexivity|]. cbn [yr_predicted_yield yr_confidence].
  split; [|exact Hb].
  apply (num_abs_finite _ (dy 4503599627370496 971)).
  apply (round_abs _ 4503599627370496 971 (4503599627370496 * 2 ^ 971 * 100)); [reflexivity | | exact Ha].
  rewrite (dy_rescale 4503599627370496 0 971), dy_0 by lia.
  rewrite <- inject_Z_mult. reflexivity.
Qed.

(** X12. An infinite temperature or rainfall (the JSON literal [Infinity], or a
    string that [float] reads as infinite) is accepted by the conversion and
    then breaks the handler: the estimate becomes minus infinity, its
    remainder by 5 is NaN, and [int] raises [ValueError]. No such request is
    answered, whatever the crop, the other value and the planting date. *)
Theorem infinite_weather_is_not_answered (kvs : list (string * json)) (now : datetime)
    (temp rainfall : float) :
  crop_type_ok kvs ->
  py_float (field_or kvs "temperature" (JInt 25)) = ret temp ->
  py_float (field_or kvs "rainfall" (JInt 50)) = ret rainfall ->
  is_infinity temp = true \/ is_infinity rainfall = true ->
  predict (JObj kvs) now = raise ValueError.
Proof.
  intros Hc Ht Hr Hinf. destruct (lower_crop_type kvs Hc) as [crop Hcrop].
  rewrite (predict_fields kvs now crop temp rainfall Hcrop Ht Hr).
  unfold predict_core. rewrite weather_adjusted_spec. cbn [bind ret].
  rewrite (spec_weather_adjusted_infinite crop temp rainfall Hinf).
  assert (Ha : adjust_planting (field_or kvs "planting_date" JNull) now (NFloat neg_infinity)
               = NFloat neg_infinity).
  { destruct (adjust_planting_cases (field_or kvs "planting_date" JNull) now
                (NFloat neg_infinity) (convertible_float _)) as [-> | [-> | ->]]; reflexivity. }
  rewrite Ha. reflexivity.
Qed.

End AnsweredRequests.

Lemma finite_weather_is_answered_witness :
  exists r,
    predict (rt := ascii_runtime)
      (JObj [("crop_type", JStr "maize"); ("temperature", JFloat (-1.7976931348623157e308));
             ("planting_date", JStr "01-03-2024")]%string)
      {| dt_day := 738956; dt_us := 5 |} = ret (jsonify_yield r) /\
    status (jsonify_yield r) = 200 /\
    num_finite (yr_predicted_yield r) = true /\
    80 <= yr_confidence r <= 85.
Proof.
  apply (finite_weather_is_answered (rt := ascii_runtime)
           [("crop_type", JStr "maize"); ("temperature", JFloat (-1.7976931348623157e308));
            ("planting_date", JStr "01-03-2024")]%string
           {| dt_day := 738956; dt_us := 5 |} (-1.7976931348623157e308) 50).
  - right. exists "maize"%string. reflexivity.
  - reflexivity.
  - reflexivity.
  - reflexivity.
  - reflexivity.
Defined.

Lemma infinite_weather_is_not_answered_witness :
  predict (rt := ascii_runtime)
    (JObj [("crop_type", JStr "wheat"); ("temperature", JInt 20); ("rainfall", JFloat infinity)]%string)
    {| dt_day := 738956; dt_us := 5 |} = raise ValueError.
Proof.
  apply (infinite_weather_is_not_answered (rt := ascii_runtime)
           [("crop_type", JStr "wheat"); ("temperature", JInt 20);
            ("rainfall", JFloat infinity)]%string
           {| dt_day := 738956; dt_us := 5 |} 20 infinity).
  - right. exists "wheat"%string. reflexivity.
  - reflexivity.
  - reflexivity.
  - right. reflexivity.
Defined.

(** ** The soil figures of [/insights] *)

Local Open Scope Q_scope.

Lemma round_half_even_lower (n e N : Z) :
  (0 <= n)%Z -> inject_Z N <= dy n e -> (N <= round_half_even n e)%Z.
Proof.
  intros Hn Hle. unfold round_half_even.
  destruct (Z.leb_spec 0 e) as [He | He].
  - rewrite (dy_rescale n 0 e), Z.sub_0_r, dy_0 in Hle by lia.
    rewrite <- Zle_Qle in Hle. exact Hle.
  - assert (Hd : (0 < 2 ^ (- e))%Z) by (apply Z.pow_pos_nonneg; lia).
    rewrite <- dy_0, (dy_rescale N e 0), Z.sub_0_l in Hle by lia.
    apply dy_le in Hle.
    assert (HqN : (N <= n / 2 ^ (- e))%Z) by (apply Z.div_le_lower_bound; lia).
    destruct (2 * (n mod 2 ^ (- e)) ?= 2 ^ (- e))%Z; [destruct (Z.even (n / 2 ^ (- e)))| |]; lia.
Qed.

(** The quotient of two positive floats stays between the floats that
    bracket the exact quotient. *)
Lemma SFdiv_le (m1 m2 mg : positive) (e1 e2 eg : Z) :
  bounded prec emax mg eg = true ->
  dy (Zpos m1) e1 / dy (Zpos m2) e2 <= dy (Zpos mg) eg ->
  SFle_Q (SFdiv prec emax (S754_finite false m1 e1) (S754_finite false m2 e2)) (dy (Zpos mg) eg).
Proof.
  intros Hg Hle. pose proof (dy_pos (Zpos mg) eg ltac:(lia)) as Hgpos.
  cbn [SFdiv xorb]. pose proof (SFdiv_core_spec m1 m2 e1 e2) as Hc.
  destruct (SFdiv_core_binary prec emax (Zpos m1) e1 (Zpos m2) e2) as [[mz ez] lz].
  destruct Hc as (x & Hq & Hpre & Hloc & Hv).
  pose proof (round_aux_upper prec emax prec_pos false mz ez lz x mg eg Hq Hpre Hloc Hg
                ltac:(rewrite Hv; exact Hle)) as H.
  destruct (binary_round_aux prec emax false mz ez lz) as [s | s | | s m e];
    try contradiction; cbn [SFle_Q].
  - cbn. lra.
  - destruct H as [-> H]. exact H.
Qed.

Lemma SFdiv_ge (m1 m2 mg : positive) (e1 e2 eg : Z) :
  bounded prec emax mg eg = true ->
  dy (Zpos mg) eg <= dy (Zpos m1) e1 / dy (Zpos m2) e2 ->
  SFge_Q (SFdiv prec emax (S754_finite false m1 e1) (S754_finite false m2 e2)) (dy (Zpos mg) eg).
Proof.
  intros Hg Hle.
  cbn [SFdiv xorb]. pose proof (SFdiv_core_spec m1 m2 e1 e2) as Hc.
  destruct (SFdiv_core_binary prec emax (Zpos m1) e1 (Zpos m2) e2) as [[mz ez] lz].
  destruct Hc as (x & Hq & Hpre & Hloc & Hv).
  pose proof (round_aux_lower prec emax prec_pos false mz ez lz x mg eg Hq Hpre Hloc Hg
                ltac:(rewrite Hv; exact Hle)) as H.
  destruct (binary_round_aux prec emax false mz ez lz) as [s | s | | s m e];
    try contradiction; cbn [SFge_Q].
  - exact H.
  - destruct H as [-> H]. exact H.
Qed.

(** Rounding to [nd] decimals keeps a float above a positive bound that has
    at most [nd] decimals itself. *)
Lemma sf_round_ge (x : spec_float) (nd : Z) (mg : positive) (eg N : Z) :
  (0 <= nd)%Z -> bounded prec emax mg eg = true ->
  dy (Zpos mg) eg * inject_Z (10 ^ nd) == inject_Z N ->
  SFge_Q x (dy (Zpos mg) eg) ->
  SFge_Q (sf_round x nd) (dy (Zpos mg) eg).
Proof.
  intros Hnd Hg HN Hx. pose proof (dy_pos (Zpos mg) eg ltac:(lia)) as Hgpos.
  destruct x as [s | s | | s m e]; try exact Hx.
  cbn [sf_round SFge_Q] in *.
  assert (s = false) as ->.
  { destruct s; [|reflexivity]. pose proof (SF2Q_sign_neg m e). lra. }
  cbn [SF2Q cond_Zopp] in Hx.
  destruct (pow10_pos nd Hnd) as [p Hp]. rewrite Hp in *. cbn [Z2SF].
  assert (Hp0 : 0 < inject_Z (Zpos p)) by (apply inject_Z_pos; lia).
  assert (HN0 : (0 < N)%Z).
  { rewrite Zlt_Qlt. rewrite <- HN. change (inject_Z 0) with 0. nra. }
  assert (Hb : inject_Z N <= dy (Zpos m * Zpos p) e).
  { rewrite <- HN. unfold dy in *. rewrite inject_Z_mult.
    setoid_replace (inject_Z (Zpos m) * inject_Z (Zpos p) * pow2 e)
      with (inject_Z (Zpos m) * pow2 e * inject_Z (Zpos p)) by ring.
    apply Qmult_le_compat_r; lra. }
  pose proof (round_half_even_lower (Zpos m * Zpos p) e N ltac:(lia) Hb) as HqN.
  destruct (round_half_even (Zpos m * Zpos p) e) as [| q | q]; try lia.
  apply SFdiv_ge; [assumption|]. rewrite !dy_0.
  apply Qle_shift_div_l; [exact Hp0|]. rewrite HN. rewrite <- Zle_Qle. exact HqN.
Qed.

Lemma py_le_int_float (z : Z) (f : float) (b : Q) :
  SFge_Q (Prim2SF f) b -> b == inject_Z z -> py_le (NInt z) (NFloat f) = true.
Proof.
  intros H Hb. unfold py_le, py_compare, float_int_compare.
  destruct (Prim2SF f) as [s | s | | s m e]; cbn [SFge_Q] in H; try contradiction;
    cbn [option_map].
  - rewrite Hb in H. destruct (Qcompare_spec (SF2Q (S754_zero s)) (inject_Z z)) as [E | E | E];
      [reflexivity | lra | reflexivity].
  - subst s. reflexivity.
  - rewrite Hb in H.
    destruct (Qcompare_spec (SF2Q (S754_finite s m e)) (inject_Z z)) as [E | E | E];
      [reflexivity | lra | reflexivity].
Qed.

(** A quotient by an int constant: not negative for a number that is not
    negative, and at most 1 for a number that is at most the constant. *)
Lemma num_div_bounds (a : num) (d mc : positive) (ec : Z) :
  num_in_range a = true ->
  Prim2SF (Z2F (Zpos d)) = S754_finite false mc ec -> dy (Zpos mc) ec == inject_Z (Zpos d) ->
  0 <= num_Q a ->
  sf_finite (Prim2SF (num_div a (Zpos d))) = true /\
  0 <= SF2Q (Prim2SF (num_div a (Zpos d))) /\
  (num_Q a <= inject_Z (Zpos d) -> SF2Q (Prim2SF (num_div a (Zpos d))) <= 1).
Proof.
  intros Ha Hc Hcv H0.
  assert (Hd1 : 1 <= dy (Zpos mc) ec).
  { rewrite Hcv. change 1 with (inject_Z 1). rewrite <- Zle_Qle. lia. }
  pose proof (num_div_finite a d mc ec Ha Hc Hd1) as Hfin.
  assert (H1 : dy 4503599627370496 (-52) == 1) by reflexivity.
  assert (Hup : num_Q a <= inject_Z (Zpos d) ->
                SFle_Q (Prim2SF (num_div a (Zpos d))) (dy 4503599627370496 (-52))).
  { intros Hle. unfold num_div. destruct a as [z | f]; cbn [num_Q num_in_range] in *.
    - rewrite Prim2SF_SF2Prim by apply int_quotient_valid.
      destruct z as [| p | p]; cbn [Z2SF].
      + cbn [SFdiv SFle_Q SF2Q]. apply Qlt_le_weak, dy_pos. lia.
      + apply SFdiv_integers_le; [reflexivity|]. rewrite H1.
        apply Qle_shift_div_r; [apply inject_Z_pos; lia | lra].
      + exfalso. revert H0. change 0 with (inject_Z 0). rewrite <- Zle_Qle. lia.
    - rewrite div_spec, Hc. unfold SF64div. unfold F2Q in *.
      rewrite is_finite_spec in Ha.
      destruct (Prim2SF f) as [s | s | | s m e] eqn:Ef; [| discriminate | discriminate |].
      + cbn [SFdiv SFle_Q SF2Q]. apply Qlt_le_weak, dy_pos. lia.
      + destruct s; [pose proof (SF2Q_sign_neg m e); lra|].
        cbn [SF2Q cond_Zopp] in *.
        apply SFdiv_le; [reflexivity|]. rewrite H1, Hcv.
        apply Qle_shift_div_r; [apply inject_Z_pos; lia | lra]. }
  destruct (Prim2SF (num_div a (Zpos d))) as [s | s | | s m e]; try contradiction.
  - split; [reflexivity|]. split; [cbn; lra|]. intros _. cbn. lra.
  - rewrite (Hfin H0) in *. split; [reflexivity|].
    split; [apply Qlt_le_weak, SF2Q_sign_pos|].
    intros Hle. specialize (Hup Hle). cbn [SFle_Q] in Hup. lra.
Qed.

(** [round(c + q, 1)] for a float constant [c] that has one decimal at most
    and a quotient [q] that is not negative: at least [c]; at most [c + 1]
    when [q] is at most 1. *)
Lemma rounded_sum_bounds (c q : float) (mc : positive) (ec : Z) (mu : positive) (eu : Z)
    (N Nu : Z) :
  Prim2SF c = S754_finite false mc ec ->
  dy (Zpos mc) ec * inject_Z (10 ^ 1) == inject_Z N ->
  bounded prec emax mu eu = true ->
  dy (Zpos mu) eu == dy (Zpos mc) ec + 1 ->
  dy (Zpos mu) eu * inject_Z (10 ^ 1) == inject_Z Nu ->
  sf_finite (Prim2SF q) = true -> 0 <= SF2Q (Prim2SF q) ->
  SFge_Q (sf_round (Prim2SF (c + q)) 1) (dy (Zpos mc) ec) /\
  (SF2Q (Prim2SF q) <= 1 -> SFle_Q (sf_round (Prim2SF (c + q)) 1) (dy (Zpos mu) eu)).
Proof.
  intros Hc HN Hu Huv HNu Fq Hq0.
  pose proof (valid_Prim2SF c) as Vc. rewrite Hc in Vc. cbn in Vc.
  rewrite add_spec, Hc. unfold SF64add.
  split.
  - apply (sf_round_ge _ 1 mc ec N); [lia | exact Vc | exact HN |].
    apply SFadd_ge; [reflexivity | exact Fq | exact Vc |]. cbn [SF2Q cond_Zopp]. lra.
  - intros Hq1. apply (sf_round_le _ 1 mu eu Nu); [lia | exact Hu | exact HNu |].
    apply SFadd_le; [reflexivity | exact Fq | exact Hu |]. cbn [SF2Q cond_Zopp]. lra.
Qed.

Lemma float_trunc_nonneg (f : float) :
  0 <= SF2Q (Prim2SF f) -> (0 <= float_trunc f)%Z.
Proof.
  intros H. unfold float_trunc.
  destruct (Prim2SF f) as [s | s | | s m e]; try lia.
  destruct s; [pose proof (SF2Q_sign_neg m e); lra|].
  cbn [cond_Zopp]. apply Z.shiftl_nonneg. lia.
Qed.

(** The derivation on a well-formed payload, in the words of the
    specification. *)
Lemma derive_well_formed (kvs main : list (string * json)) (rv hv tv : json)
    (rainfall humidity temp : num) :
  lookup "main" kvs = Some (JObj main) ->
  lookup "humidity" main = Some hv -> as_num hv = ret humidity ->
  num_in_range humidity = true ->
  lookup "temp" main = Some tv -> as_num tv = ret temp ->
  spec_rainfall_field kvs = ret rv -> as_num rv = ret rainfall ->
  num_in_range rainfall = true ->
  derive (JObj kvs) = ret (spec_insights rv hv rainfall humidity temp).
Proof.
  intros Hmain Hhv Hh Rh Htv Ht Hrv Hr Rr.
  unfold derive, dict_get, dict_item. unfold spec_rainfall_field in Hrv.
  destruct (lookup "rain" kvs) as [[| | | | | | rain] |]; try discriminate;
    injection Hrv as <-; cbn [bind ret lookup];
    rewrite Hmain; cbn [bind ret]; rewrite Hhv; cbn [bind ret]; rewrite Hr; cbn [bind ret];
    rewrite (py_truediv_const rainfall 50 Rr eq_refl eq_refl); cbn [bind ret];
    rewrite (py_add_int_float 6 6 _ eq_refl); cbn [bind ret];
    rewrite Hh; cbn [bind ret];
    rewrite (py_truediv_const humidity 100 Rh eq_refl eq_refl); cbn [bind ret];
    rewrite (py_add_int_float 1 1 _ eq_refl); cbn [bind ret];
    rewrite (py_truediv_const rainfall 2 Rr eq_refl eq_refl); cbn [bind ret];
    rewrite (proj1 (py_int_num_div rainfall 2 4503599627370496 (-51) Rr eq_refl
                      ltac:(vm_compute; discriminate)));
    cbn [bind ret];
    rewrite (irrigation_spec rainfall Rr), Htv; cbn [bind ret]; rewrite Ht; cbn [bind ret];
    unfold spec_insights, spec_ph, spec_carbon, spec_nitrogen_trunc;
    destruct (spec_tier rainfall) as [[st eff] idx]; reflexivity.
Qed.

Lemma nonneg_of_py_le (a : num) :
  num_in_range a = true -> py_le (NInt 0) a = true -> 0 <= num_Q a.
Proof. intros Ha H. apply (py_le_Q (NInt 0) a eq_refl Ha H). Qed.

(** X13. On a payload of a physical kind, a rain volume that is not negative and
    a humidity between 0 and 100, the soil figures stay in their ranges: the
    pH is at least 6.0, the carbon between 1.0 and 2.0, and the nitrogen at
    least 40. *)
Theorem soil_figures_in_range (kvs main : list (string * json)) (rv hv tv : json)
    (rainfall humidity temp : num) :
  lookup "main" kvs = Some (JObj main) ->
  lookup "humidity" main = Some hv -> as_num hv = ret humidity ->
  num_in_range humidity = true ->
  lookup "temp" main = Some tv -> as_num tv = ret temp ->
  spec_rainfall_field kvs = ret rv -> as_num rv = ret rainfall ->
  num_in_range rainfall = true ->
  py_le (NInt 0) rainfall = true ->
  py_le (NInt 0) humidity = true -> py_le humidity (NInt 100) = true ->
  exists (ph carbon : float) (nitrogen : Z) (weather irrigation_tier : json),
    derive (JObj kvs) =
      ret (JObj [("weather"%string, weather);
                 ("soil"%string,
                  JObj [("ph"%string, JFloat ph); ("carbon"%string, JFloat carbon);
                        ("nitrogen"%string, JInt nitrogen)]);
                 ("irrigation"%string, irrigation_tier)]) /\
    (6 <=? ph)%float = true /\
    (1 <=? carbon)%float = true /\ (carbon <=? 2)%float = true /\
    (40 <= nitrogen)%Z.
Proof.
  intros Hmain Hhv Hh Rh Htv Ht Hrv Hr Rr Hr0 Hh0 Hh100.
  pose proof (nonneg_of_py_le rainfall Rr Hr0) as Qr.
  pose proof (nonneg_of_py_le humidity Rh Hh0) as Qh.
  pose proof (py_le_Q humidity (NInt 100) Rh eq_refl Hh100) as Qh100. cbn [num_Q] in Qh100.
  rewrite (derive_well_formed kvs main rv hv tv rainfall humidity temp
             Hmain Hhv Hh Rh Htv Ht Hrv Hr Rr).
  unfold spec_insights. destruct (spec_tier rainfall) as [[st eff] idx].
  unfold spec_ph, spec_carbon, spec_nitrogen_trunc, py_round. cbn [num_json].
  do 5 eexists. split; [reflexivity|].
  destruct (num_div_bounds rainfall 50 7036874417766400 (-47) Rr eq_refl ltac:(reflexivity) Qr)
    as (F50 & P50 & _).
  destruct (num_div_bounds humidity 100 7036874417766400 (-46) Rh eq_refl ltac:(reflexivity) Qh)
    as (F100 & P100 & U100).
  destruct (num_div_bounds rainfall 2 4503599627370496 (-51) Rr eq_refl ltac:(reflexivity) Qr)
    as (F2 & P2 & _).
  destruct (rounded_sum_bounds 6 (num_div rainfall 50) 6755399441055744 (-50)
              7881299347898368 (-50) 60 70 eq_refl ltac:(reflexivity) eq_refl
              ltac:(reflexivity) ltac:(reflexivity) F50 P50) as [Hph _].
  destruct (rounded_sum_bounds 1 (num_div humidity 100) 4503599627370496 (-52)
              4503599627370496 (-51) 10 20 eq_refl ltac:(reflexivity) eq_refl
              ltac:(reflexivity) ltac:(reflexivity) F100 P100) as [Hc1 Hc2].
  specialize (Hc2 (U100 Qh100)).
  assert (Vph : valid_binary (sf_round (Prim2SF (6 + num_div rainfall 50)) 1) = true)
    by (apply sf_round_valid; [lia | apply valid_Prim2SF]).
  assert (Vc : valid_binary (sf_round (Prim2SF (1 + num_div humidity 100)) 1) = true)
    by (apply sf_round_valid; [lia | apply valid_Prim2SF]).
  split; [|split; [|split]].
  - rewrite leb_spec, Prim2SF_SF2Prim by exact Vph.
    change (Prim2SF 6) with (S754_finite false 6755399441055744 (-50)).
    destruct (sf_round (Prim2SF (6 + num_div rainfall 50)) 1) as [s | s | | s m e];
      cbn [SFge_Q] in Hph; [| | contradiction |].
    + exfalso. revert Hph. apply Qlt_not_le. reflexivity.
    + subst s. reflexivity.
    + apply SFleb_Q; [reflexivity | exact Vph | reflexivity | reflexivity | exact Hph].
  - rewrite leb_spec, Prim2SF_SF2Prim by exact Vc.
    change (Prim2SF 1) with (S754_finite false 4503599627370496 (-52)).
    destruct (SFle_ge_finite _ _ _ Hc1 Hc2) as (Fc & L1 & _).
    apply SFleb_Q; [reflexivity | exact Vc | reflexivity | exact Fc | exact L1].
  - rewrite leb_spec, Prim2SF_SF2Prim by exact Vc.
    change (Prim2SF 2) with (S754_finite false 4503599627370496 (-51)).
    destruct (SFle_ge_finite _ _ _ Hc1 Hc2) as (Fc & _ & L2).
    apply SFleb_Q; [exact Vc | reflexivity | exact Fc | reflexivity | exact L2].
  - pose proof (float_trunc_nonneg (num_div rainfall 2) P2). lia.
Qed.

Local Open Scope Z_scope.

Lemma soil_figures_in_range_witness :
  exists (ph carbon : float) (nitrogen : Z) (weather irrigation_tier : json),
    derive example_payload =
      ret (JObj [("weather"%string, weather);
                 ("soil"%string,
                  JObj [("ph"%string, JFloat ph); ("carbon"%string, JFloat carbon);
                        ("nitrogen"%string, JInt nitrogen)]);
                 ("irrigation"%string, irrigation_tier)]) /\
    (6 <=? ph)%float = true /\
    (1 <=? carbon)%float = true /\ (carbon <=? 2)%float = true /\
    40 <= nitrogen.
Proof.
  exact (soil_figures_in_range
           [("main"%string, JObj [("temp"%string, JInt 20); ("humidity"%string, JInt 60)]);
            ("rain"%string, JObj [("1h"%string, JInt 40)])]
           [("temp"%string, JInt 20); ("humidity"%string, JInt 60)]
           (JInt 40) (JInt 60) (JInt 20) (NInt 40) (NInt 60) (NInt 20)
           eq_refl eq_refl eq_refl eq_refl eq_refl eq_refl eq_refl eq_refl eq_refl
           eq_refl eq_refl eq_refl).
Defined.

(** ** The further from the range, the lower the yield *)

Local Open Scope Q_scope.

Lemma SFleq_finite (a b : spec_float) :
  sf_finite a = true -> sf_finite b = true -> SFleq a b -> SF2Q a <= SF2Q b.
Proof.
  destruct a as [sa | sa | | sa ma ea]; try discriminate;
    destruct b as [sb | sb | | sb mb eb]; try discriminate; intros _ _ H; exact H.
Qed.

Lemma Rnd_order (v1 v2 : Q) (r1 r2 : spec_float) :
  Rnd v1 r1 -> Rnd v2 r2 -> sf_finite r1 = true -> sf_finite r2 = true ->
  v1 <= v2 -> SF2Q r1 <= SF2Q r2.
Proof.
  intros H1 H2 F1 F2 Hle. apply SFleq_finite; [assumption | assumption |].
  apply (Rnd_mono v1 v2); assumption.
Qed.

Lemma sub_finite_inv (a b : float) :
  is_finite (a - b) = true -> is_finite a = true /\ is_finite b = true.
Proof.
  rewrite !is_finite_spec, sub_spec. unfold SF64sub.
  destruct (Prim2SF a) as [sa | sa | | sa ma ea], (Prim2SF b) as [sb | sb | | sb mb eb];
    cbn [SFsub sf_finite]; intros H; try (split; reflexivity); try discriminate H.
  - destruct sa, sb; discriminate H.
Qed.

Lemma mul_finite_inv (a b : float) :
  is_finite (a * b) = true -> is_finite a = true /\ is_finite b = true.
Proof.
  rewrite !is_finite_spec, mul_spec. unfold SF64mul.
  destruct (Prim2SF a) as [sa | sa | | sa ma ea], (Prim2SF b) as [sb | sb | | sb mb eb];
    cbn [SFmul sf_finite]; intros H; try (split; reflexivity); discriminate H.
Qed.

(** The order of two differences, and of two products, follows the order of
    the exact results. *)
Lemma sub_order (a1 b1 a2 b2 : float) :
  is_finite (a1 - b1) = true -> is_finite (a2 - b2) = true ->
  F2Q a1 - F2Q b1 <= F2Q a2 - F2Q b2 ->
  F2Q (a1 - b1) <= F2Q (a2 - b2).
Proof.
  intros F1 F2 Hle.
  destruct (sub_finite_inv a1 b1 F1) as [Fa1 Fb1]. destruct (sub_finite_inv a2 b2 F2) as [Fa2 Fb2].
  rewrite is_finite_spec in *. unfold F2Q in *. rewrite sub_spec in F1, F2. rewrite !sub_spec.
  unfold SF64sub in *.
  apply (Rnd_order (SF2Q (Prim2SF a1) - SF2Q (Prim2SF b1)) (SF2Q (Prim2SF a2) - SF2Q (Prim2SF b2)));
    try assumption; apply SFsub_Rnd; try assumption; apply valid_Prim2SF.
Qed.

Lemma mul_order (a1 b1 a2 b2 : float) :
  is_finite (a1 * b1) = true -> is_finite (a2 * b2) = true ->
  F2Q a1 * F2Q b1 <= F2Q a2 * F2Q b2 ->
  F2Q (a1 * b1) <= F2Q (a2 * b2).
Proof.
  intros F1 F2 Hle.
  destruct (mul_finite_inv a1 b1 F1) as [Fa1 Fb1]. destruct (mul_finite_inv a2 b2 F2) as [Fa2 Fb2].
  rewrite is_finite_spec in *. unfold F2Q in *. rewrite mul_spec in F1, F2. rewrite !mul_spec.
  unfold SF64mul in *.
  apply (Rnd_order (SF2Q (Prim2SF a1) * SF2Q (Prim2SF b1)) (SF2Q (Prim2SF a2) * SF2Q (Prim2SF b2)));
    try assumption; apply SFmul_Rnd; try assumption; apply valid_Prim2SF.
Qed.

(** A difference with something that is not negative is not above the
    minuend. *)
Lemma sub_below (y p : float) :
  is_finite (y - p) = true -> 0 <= F2Q p -> F2Q (y - p) <= F2Q y.
Proof.
  intros F Hp. destruct (sub_finite_inv y p F) as [Fy Fp].
  rewrite is_finite_spec in *. unfold F2Q in *. rewrite sub_spec in *. unfold SF64sub in *.
  apply (Rnd_order (SF2Q (Prim2SF y) - SF2Q (Prim2SF p)) (SF2Q (Prim2SF y)));
    try assumption; [|apply Rnd_exact; [apply valid_Prim2SF | assumption] | lra].
  apply SFsub_Rnd; try assumption; apply valid_Prim2SF.
Qed.

Lemma ltb_Q (a b : float) :
  is_finite a = true -> is_finite b = true ->
  (a <? b)%float = true <-> F2Q a < F2Q b.
Proof.
  intros Fa Fb. destruct (finite_valid a Fa) as [Fa' Va]. destruct (finite_valid b Fb) as [Fb' Vb].
  rewrite ltb_spec. apply SFltb_Q; assumption.
Qed.

Lemma leb_Q (a b : float) :
  is_finite a = true -> is_finite b = true ->
  (a <=? b)%float = true <-> F2Q a <= F2Q b.
Proof.
  intros Fa Fb. destruct (finite_valid a Fa) as [Fa' Va]. destruct (finite_valid b Fb) as [Fb' Vb].
  rewrite leb_spec. apply SFleb_Q; assumption.
Qed.

Lemma ltb_false_Q (a b : float) :
  is_finite a = true -> is_finite b = true ->
  (a <? b)%float = false -> F2Q b <= F2Q a.
Proof.
  intros Fa Fb H. destruct (Qlt_le_dec (F2Q a) (F2Q b)) as [Hlt | Hle]; [|exact Hle].
  apply (ltb_Q a b Fa Fb) in Hlt. congruence.
Qed.

Lemma num_finite_float (y : num) (b : Q) : num_abs_le y b -> is_finite (num_float y) = true.
Proof. unfold num_abs_le. rewrite is_finite_spec. apply SFabs_le_finite. Qed.

Lemma penalty_value_nonneg (a b rate : float) (mc : positive) (ec : Z) :
  is_finite a = true -> is_finite b = true ->
  Prim2SF rate = S754_finite false mc ec ->
  (b <? a)%float = true -> is_finite ((a - b) * rate) = true ->
  0 <= F2Q ((a - b) * rate).
Proof.
  intros Fa Fb Hr Hlt Fp. pose proof (penalty_nonneg a b rate mc ec Fa Fb Hr Hlt) as H.
  rewrite is_finite_spec in Fp. unfold F2Q.
  destruct (Prim2SF ((a - b) * rate)); try discriminate; exact H.
Qed.

(** A step of the estimate is monotone in the value on the low side of the
    range and antitone on the high side. *)
Lemma spec_penalty_mono_v (lo hi v1 v2 rate : float) (mc : positive) (ec : Z) (y : num) :
  is_finite lo = true -> is_finite hi = true ->
  is_finite v1 = true -> is_finite v2 = true ->
  Prim2SF rate = S754_finite false mc ec ->
  F2Q lo <= F2Q hi ->
  is_finite (num_float (spec_penalty (lo, hi) v1 rate y)) = true ->
  is_finite (num_float (spec_penalty (lo, hi) v2 rate y)) = true ->
  F2Q v1 <= F2Q v2 ->
  (F2Q v2 <= F2Q hi ->
   num_le (spec_penalty (lo, hi) v1 rate y) (spec_penalty (lo, hi) v2 rate y)) /\
  (F2Q lo <= F2Q v1 ->
   num_le (spec_penalty (lo, hi) v2 rate y) (spec_penalty (lo, hi) v1 rate y)).
Proof.
  intros Flo Fhi F1 F2 Hr Hlh O1 O2 Hv. unfold num_le, spec_penalty in *.
  assert (R0 : 0 <= F2Q rate).
  { unfold F2Q. rewrite Hr. apply Qlt_le_weak, SF2Q_sign_pos. }
  destruct (v1 <? lo)%float eqn:L1; [|destruct (hi <? v1)%float eqn:H1];
    (destruct (v2 <? lo)%float eqn:L2; [|destruct (hi <? v2)%float eqn:H2]);
    cbn [num_float] in *;
    try (apply (ltb_Q v1 lo F1 Flo) in L1); try (apply (ltb_false_Q v1 lo F1 Flo) in L1);
    try (apply (ltb_Q v2 lo F2 Flo) in L2); try (apply (ltb_false_Q v2 lo F2 Flo) in L2);
    try (apply (ltb_Q hi v1 Fhi F1) in H1); try (apply (ltb_false_Q hi v1 Fhi F1) in H1);
    try (apply (ltb_Q hi v2 Fhi F2) in H2); try (apply (ltb_false_Q hi v2 Fhi F2) in H2);
    (split; intros Hc); try lra; try apply Qle_refl.
  - (* both below the range *)
    destruct (sub_finite_inv _ _ O1) as [_ P1]. destruct (sub_finite_inv _ _ O2) as [_ P2].
    destruct (mul_finite_inv _ _ P1) as [D1 _]. destruct (mul_finite_inv _ _ P2) as [D2 _].
    apply sub_order; [assumption | assumption |].
    assert (F2Q ((lo - v2) * rate) <= F2Q ((lo - v1) * rate)); [|lra].
    apply mul_order; [assumption | assumption |].
    assert (F2Q (lo - v2) <= F2Q (lo - v1)) by (apply sub_order; [assumption | assumption | lra]).
    nra.
  - (* below the range, then inside *)
    destruct (sub_finite_inv _ _ O1) as [_ P1].
    apply sub_below; [assumption|].
    apply (penalty_value_nonneg lo v1 rate mc ec); try assumption.
    apply ltb_Q; assumption.
  - (* both above the range *)
    destruct (sub_finite_inv _ _ O1) as [_ P1]. destruct (sub_finite_inv _ _ O2) as [_ P2].
    destruct (mul_finite_inv _ _ P1) as [D1 _]. destruct (mul_finite_inv _ _ P2) as [D2 _].
    apply sub_order; [assumption | assumption |].
    assert (F2Q ((v1 - hi) * rate) <= F2Q ((v2 - hi) * rate)); [|lra].
    apply mul_order; [assumption | assumption |].
    assert (F2Q (v1 - hi) <= F2Q (v2 - hi)) by (apply sub_order; [assumption | assumption | lra]).
    nra.
  - (* inside the range, then above *)
    destruct (sub_finite_inv _ _ O2) as [_ P2].
    apply sub_below; [assumption|].
    apply (penalty_value_nonneg v2 hi rate mc ec); try assumption.
    apply ltb_Q; assumption.
Qed.

(** A step of the estimate is monotone in the estimate. *)
Lemma spec_penalty_mono_y (lo hi v rate : float) (y1 y2 : num) :
  is_finite (num_float (spec_penalty (lo, hi) v rate y1)) = true ->
  is_finite (num_float (spec_penalty (lo, hi) v rate y2)) = true ->
  num_le y1 y2 ->
  num_le (spec_penalty (lo, hi) v rate y1) (spec_penalty (lo, hi) v rate y2).
Proof.
  unfold num_le, spec_penalty.
  destruct (v <? lo)%float; [|destruct (hi <? v)%float]; cbn [num_float]; intros O1 O2 Hy.
  - apply sub_order; [assumption | assumption | lra].
  - apply sub_order; [assumption | assumption | lra].
  - exact Hy.
Qed.

Lemma spec_penalty_form (k : crop_kind) (range : float * float) (v rate : float) (y : num) :
  est_form k y -> est_form k (spec_penalty range v rate y).
Proof.
  intros Hy. unfold spec_penalty. destruct range as [lo hi].
  destruct (v <? lo)%float; [|destruct (hi <? v)%float]; try exact Hy;
    right; eexists; reflexivity.
Qed.

Lemma est_form_convertible (k : crop_kind) (y : num) : est_form k y -> convertible y.
Proof.
  intros [-> | [f ->]]; [apply spec_base_convertible | apply convertible_float].
Qed.

(** Two decimals: on an estimate, [round] is [sf_round] on its float. *)
Lemma py_round_float (k : crop_kind) (y : num) :
  est_form k y ->
  num_float (py_round y 2) = SF2Prim (sf_round (Prim2SF (num_float y)) 2).
Proof.
  intros [-> | [f ->]]; [|reflexivity]. destruct k; vm_compute; reflexivity.
Qed.

Lemma py_round_mono (k : crop_kind) (y1 y2 : num) :
  est_form k y1 -> est_form k y2 ->
  is_finite (num_float y1) = true -> is_finite (num_float y2) = true ->
  is_finite (num_float (py_round y1 2)) = true ->
  is_finite (num_float (py_round y2 2)) = true ->
  num_le y1 y2 -> num_le (py_round y1 2) (py_round y2 2).
Proof.
  intros E1 E2 F1 F2 O1 O2 Hle. unfold num_le in *.
  rewrite (py_round_float k y1 E1) in *. rewrite (py_round_float k y2 E2) in *.
  rewrite is_finite_spec in *. unfold F2Q in *.
  rewrite Prim2SF_SF2Prim in O1, O2 by (apply sf_round_valid; [lia | apply valid_Prim2SF]).
  rewrite !Prim2SF_SF2Prim by (apply sf_round_valid; [lia | apply valid_Prim2SF]).
  apply (Rnd_order (dec_round (Prim2SF (num_float y1)) 2) (dec_round (Prim2SF (num_float y2)) 2));
    try assumption; try (apply sf_round_Rnd; [lia | assumption]).
  apply dec_round_mono; [lia | assumption | assumption | exact Hle].
Qed.

Lemma py_round_form (k : crop_kind) (y : num) : est_form k y -> est_form k (py_round y 2).
Proof.
  intros [-> | [f ->]].
  - left. apply base_yield_rounds_to_itself.
  - right. eexists. reflexivity.
Qed.

Lemma py_compare_Q (a b : num) :
  num_in_range a = true -> num_in_range b = true ->
  py_compare a b = Some (num_Q a ?= num_Q b).
Proof.
  intros Ha Hb. destruct b as [z | g].
  - apply (py_compare_num_int a z Ha).
  - destruct a as [x | f].
    + apply (py_compare_num_int (NFloat g) x Hb).
    + cbn [py_compare num_Q num_in_range] in *.
      destruct (finite_valid f Ha) as [Hf Hvf], (finite_valid g Hb) as [Hg Hvg].
      apply SFcompare_Q; assumption.
Qed.

(** The order of two estimates as floats is Python's order on them. *)
Lemma py_le_of_num_le (k : crop_kind) (y1 y2 : num) :
  est_form k y1 -> est_form k y2 ->
  is_finite (num_float y1) = true -> is_finite (num_float y2) = true ->
  num_le y1 y2 -> py_le y1 y2 = true.
Proof.
  intros E1 E2 F1 F2 Hle. unfold num_le in Hle.
  assert (V : forall y, est_form k y -> is_finite (num_float y) = true ->
              num_in_range y = true /\ num_Q y == F2Q (num_float y)).
  { intros y [-> | [f ->]] F; [|split; [exact F | reflexivity]].
    destruct k; split; reflexivity. }
  destruct (V y1 E1 F1) as [R1 Q1]. destruct (V y2 E2 F2) as [R2 Q2].
  unfold py_le. rewrite (py_compare_Q y1 y2 R1 R2).
  destruct (Qcompare_spec (num_Q y1) (num_Q y2)) as [H | H | H]; try reflexivity. lra.
Qed.

Section MonotoneYield.
Context {rt : PyRuntime}.

Lemma adjust_planting_form (k : crop_kind) (v : json) (now : datetime) (y : num) :
  est_form k y -> est_form k (adjust_planting v now y).
Proof.
  intros Hy.
  destruct (adjust_planting_cases v now y (est_form_convertible k y Hy)) as [-> | [-> | ->]];
    [exact Hy | right; eexists; reflexivity ..].
Qed.

(** The planting-date step is monotone in the estimate. *)
Lemma adjust_planting_mono (k : crop_kind) (v : json) (now : datetime) (y1 y2 : num) :
  est_form k y1 -> est_form k y2 ->
  is_finite (num_float (adjust_planting v now y1)) = true ->
  is_finite (num_float (adjust_planting v now y2)) = true ->
  num_le y1 y2 -> num_le (adjust_planting v now y1) (adjust_planting v now y2).
Proof.
  intros E1 E2.
  pose proof (est_form_convertible k y1 E1) as C1. pose proof (est_form_convertible k y2 E2) as C2.
  unfold adjust_planting. destruct (truthy v); [|intros _ _ H; exact H].
  unfold planting_try. destruct (strptime v) as [d | e]; cbn [bind ret]; [|intros _ _ H; exact H].
  assert (M : forall c : float, 0 <= F2Q c ->
            is_finite (num_float y1 * c) = true -> is_finite (num_float y2 * c) = true ->
            num_le y1 y2 -> num_le (NFloat (num_float y1 * c)) (NFloat (num_float y2 * c))).
  { intros c Hc O1 O2 Hle. unfold num_le in *. cbn [num_float].
    apply mul_order; [assumption | assumption | nra]. }
  destruct (timedelta_days now d <? 60)%Z.
  - rewrite (py_mul_float y1 _ C1), (py_mul_float y2 _ C2). apply M.
    apply Qle_bool_iff. vm_compute. reflexivity.
  - destruct (180 <? timedelta_days now d)%Z; [|intros _ _ H; exact H].
    rewrite (py_mul_float y1 _ C1), (py_mul_float y2 _ C2). apply M.
    apply Qle_bool_iff. vm_compute. reflexivity.
Qed.

(** The last two steps keep the order of two finite estimates. *)
Lemma last_steps_mono (k : crop_kind) (v : json) (now : datetime) (y1 y2 : num) :
  est_form k y1 -> est_form k y2 ->
  num_abs_le y1 (dy 4503599627370496 971) -> num_abs_le y2 (dy 4503599627370496 971) ->
  num_le y1 y2 ->
  py_le (py_round (adjust_planting v now y1) 2) (py_round (adjust_planting v now y2) 2) = true.
Proof.
  intros E1 E2 A1 A2 Hle.
  assert (S : forall y, est_form k y -> num_abs_le y (dy 4503599627370496 971) ->
              num_abs_le (adjust_planting v now y) (dy 4503599627370496 971)).
  { intros y E A.
    destruct (adjust_planting_cases v now y (est_form_convertible k y E)) as [-> | [-> | ->]].
    - exact A.
    - apply (scale_abs _ 0.8 7205759403792794 (-53)); [reflexivity | | reflexivity | exact A].
      apply Qle_bool_iff. vm_compute. reflexivity.
    - apply (scale_abs _ 0.9 8106479329266893 (-53)); [reflexivity | | reflexivity | exact A].
      apply Qle_bool_iff. vm_compute. reflexivity. }
  assert (R : forall y, num_abs_le y (dy 4503599627370496 971) ->
              num_abs_le (py_round y 2) (dy 4503599627370496 971)).
  { intros y A.
    apply (round_abs _ 4503599627370496 971 (4503599627370496 * 2 ^ 971 * 100));
      [reflexivity | | exact A].
    rewrite (dy_rescale 4503599627370496 0 971), dy_0 by lia.
    rewrite <- inject_Z_mult. reflexivity. }
  pose proof (S y1 E1 A1) as B1. pose proof (S y2 E2 A2) as B2.
  apply (py_le_of_num_le k);
    [apply py_round_form, adjust_planting_form; assumption ..
    | apply (num_finite_float _ _ (R _ B1)) | apply (num_finite_float _ _ (R _ B2)) |].
  apply (py_round_mono k);
    [apply adjust_planting_form; assumption ..
    | apply (num_finite_float _ _ B1) | apply (num_finite_float _ _ B2)
    | apply (num_finite_float _ _ (R _ B1)) | apply (num_finite_float _ _ (R _ B2)) |].
  apply (adjust_planting_mono k); try assumption;
    [apply (num_finite_float _ _ B1) | apply (num_finite_float _ _ B2)].
Qed.

Lemma range_facts (k : crop_kind) :
  (is_finite (fst (spec_temp_range k)) = true /\ is_finite (snd (spec_temp_range k)) = true /\
   F2Q (fst (spec_temp_range k)) <= F2Q (snd (spec_temp_range k))) /\
  (is_finite (fst (spec_rain_range k)) = true /\ is_finite (snd (spec_rain_range k)) = true /\
   F2Q (fst (spec_rain_range k)) <= F2Q (snd (spec_rain_range k))).
Proof.
  destruct k; repeat split; try reflexivity; apply Qle_bool_iff; vm_compute; reflexivity.
Qed.

Lemma finite_not_infinite (f : float) : is_finite f = true -> is_infinity f = false.
Proof.
  rewrite is_finite_spec, is_infinity_spec. destruct (Prim2SF f); try discriminate; reflexivity.
Qed.

(** The core of the handler on two finite estimates in order. *)
Lemma predict_core_pair (crop : string) (t1 r1 t2 r2 : float) (v : json) (now : datetime) :
  is_infinity t1 = false -> is_infinity r1 = false ->
  is_infinity t2 = false -> is_infinity r2 = false ->
  exists a b,
    predict_core crop t1 r1 v now = ret a /\ predict_core crop t2 r2 v now = ret b /\
    (num_le (spec_weather_adjusted crop t1 r1) (spec_weather_adjusted crop t2 r2) ->
     py_le (yr_predicted_yield a) (yr_predicted_yield b) = true).
Proof.
  intros T1 R1 T2 R2.
  pose proof (estimate_abs crop t1 r1 v now T1 R1) as A1.
  pose proof (estimate_abs crop t2 r2 v now T2 R2) as A2.
  destruct (confidence_of_finite _ (num_abs_finite _ _ A1)) as (c1 & C1 & _).
  destruct (confidence_of_finite _ (num_abs_finite _ _ A2)) as (c2 & C2 & _).
  rewrite (predict_core_estimate crop t1 r1 v now _ c1 eq_refl C1).
  rewrite (predict_core_estimate crop t2 r2 v now _ c2 eq_refl C2).
  eexists. eexists. split; [reflexivity|]. split; [reflexivity|].
  cbn [yr_predicted_yield]. intros Hle.
  apply (last_steps_mono (crop_kind_of crop)); try exact Hle;
    try (apply spec_weather_adjusted_abs; assumption);
    unfold spec_weather_adjusted; apply spec_penalty_form, spec_penalty_form; left; reflexivity.
Qed.

(** X14. Moving the temperature away from the crop's range never raises
    the predicted yield. For two finite temperatures [t1 <= t2] and the same
    crop, rainfall (not infinite) and planting date, both requests are
    answered; if [t2] is not above the upper end of the range the yield for
    [t1] is not above the yield for [t2], and if [t1] is not below the lower
    end the yield for [t2] is not above the yield for [t1]. Rounding in the
    float operations never reverses the order. *)
Theorem yield_monotone_in_temperature (crop : string) (t1 t2 rainfall : float) (v : json)
    (now : datetime) :
  is_finite t1 = true -> is_finite t2 = true -> is_infinity rainfall = false ->
  F2Q t1 <= F2Q t2 ->
  exists a b,
    predict_core crop t1 rainfall v now = ret a /\
    predict_core crop t2 rainfall v now = ret b /\
    (F2Q t2 <= F2Q (snd (spec_temp_range (crop_kind_of crop))) ->
     py_le (yr_predicted_yield a) (yr_predicted_yield b) = true) /\
    (F2Q (fst (spec_temp_range (crop_kind_of crop))) <= F2Q t1 ->
     py_le (yr_predicted_yield b) (yr_predicted_yield a) = true).
Proof.
  intros F1 F2 Fr Hle.
  pose proof (finite_not_infinite t1 F1) as I1. pose proof (finite_not_infinite t2 F2) as I2.
  destruct (predict_core_pair crop t1 rainfall t2 rainfall v now I1 Fr I2 Fr)
    as (a & b & Ha & Hb & Hab).
  destruct (predict_core_pair crop t2 rainfall t1 rainfall v now I2 Fr I1 Fr)
    as (b' & a' & Hb' & Ha' & Hba).
  assert (a' = a) by (unfold ret in *; congruence).
  assert (b' = b) by (unfold ret in *; congruence). subst a' b'.
  exists a, b. split; [exact Ha|]. split; [exact Hb|].
  unfold spec_weather_adjusted in Hab, Hba. set (k := crop_kind_of crop) in *.
  destruct (range_facts k) as [(Flo & Fhi & Hlh) _].
  pose proof (temperature_step_abs k t1 I1) as S1. pose proof (temperature_step_abs k t2 I2) as S2.
  pose proof (spec_weather_adjusted_abs crop t1 rainfall I1 Fr) as W1.
  pose proof (spec_weather_adjusted_abs crop t2 rainfall I2 Fr) as W2.
  unfold spec_weather_adjusted in W1, W2. fold k in W1, W2.
  destruct (spec_rain_range k) as [rlo rhi]. destruct (spec_temp_range k) as [lo hi].
  cbn [fst snd] in *.
  destruct (spec_penalty_mono_v lo hi t1 t2 0.2 7205759403792794 (-55) (spec_base_yield k)
              Flo Fhi F1 F2 eq_refl Hlh (num_finite_float _ _ S1) (num_finite_float _ _ S2) Hle)
    as [Hup Hdown].
  split; intros Hc.
  - apply Hab. apply spec_penalty_mono_y;
      [apply (num_finite_float _ _ W1) | apply (num_finite_float _ _ W2) | exact (Hup Hc)].
  - apply Hba. apply spec_penalty_mono_y;
      [apply (num_finite_float _ _ W2) | apply (num_finite_float _ _ W1) | exact (Hdown Hc)].
Qed.

(** X15. Moving the rainfall away from the crop's range never raises the
    predicted yield. For two finite rainfalls [r1 <= r2] and the same crop,
    temperature (not infinite) and planting date, both requests are answered;
    if [r2] is not above the upper end of the range the yield for [r1] is not
    above the yield for [r2], and if [r1] is not below the lower end the
    yield for [r2] is not above the yield for [r1]. *)
Theorem yield_monotone_in_rainfall (crop : string) (temp r1 r2 : float) (v : json)
    (now : datetime) :
  is_finite r1 = true -> is_finite r2 = true -> is_infinity temp = false ->
  F2Q r1 <= F2Q r2 ->
  exists a b,
    predict_core crop temp r1 v now = ret a /\
    predict_core crop temp r2 v now = ret b /\
    (F2Q r2 <= F2Q (snd (spec_rain_range (crop_kind_of crop))) ->
     py_le (yr_predicted_yield a) (yr_predicted_yield b) = true) /\
    (F2Q (fst (spec_rain_range (crop_kind_of crop))) <= F2Q r1 ->
     py_le (yr_predicted_yield b) (yr_predicted_yield a) = true).
Proof.
  intros F1 F2 Ft Hle.
  pose proof (finite_not_infinite r1 F1) as I1. pose proof (finite_not_infinite r2 F2) as I2.
  destruct (predict_core_pair crop temp r1 temp r2 v now Ft I1 Ft I2)
    as (a & b & Ha & Hb & Hab).
  destruct (predict_core_pair crop temp r2 temp r1 v now Ft I2 Ft I1)
    as (b' & a' & Hb' & Ha' & Hba).
  assert (a' = a) by (unfold ret in *; congruence).
  assert (b' = b) by (unfold ret in *; congruence). subst a' b'.
  exists a, b. split; [exact Ha|]. split; [exact Hb|].
  unfold spec_weather_adjusted in Hab, Hba. set (k := crop_kind_of crop) in *.
  destruct (range_facts k) as [_ (Flo & Fhi & Hlh)].
  pose proof (spec_weather_adjusted_abs crop temp r1 Ft I1) as W1.
  pose proof (spec_weather_adjusted_abs crop temp r2 Ft I2) as W2.
  unfold spec_weather_adjusted in W1, W2. fold k in W1, W2.
  destruct (spec_rain_range k) as [lo hi]. cbn [fst snd] in *.
  destruct (spec_penalty_mono_v lo hi r1 r2 0.1 7205759403792794 (-56) _
              Flo Fhi F1 F2 eq_refl Hlh (num_finite_float _ _ W1) (num_finite_float _ _ W2) Hle)
    as [Hup Hdown].
  split; intros Hc; [apply Hab, Hup, Hc | apply Hba, Hdown, Hc].
Qed.

End MonotoneYield.

Local Open Scope Z_scope.

Lemma yield_monotone_in_temperature_witness :
  exists a b,
    predict_core (rt := ascii_runtime) "wheat" 10 50 JNull {| dt_day := 738956; dt_us := 5 |} = ret a /\
    predict_core (rt := ascii_runtime) "wheat" 17.5 50 JNull {| dt_day := 738956; dt_us := 5 |} = ret b /\
    ((F2Q 17.5 <= F2Q (snd (spec_temp_range (crop_kind_of "wheat"))))%Q ->
     py_le (yr_predicted_yield a) (yr_predicted_yield b) = true) /\
    ((F2Q (fst (spec_temp_range (crop_kind_of "wheat"))) <= F2Q 10)%Q ->
     py_le (yr_predicted_yield b) (yr_predicted_yield a) = true).
Proof.
  apply (yield_monotone_in_temperature (rt := ascii_runtime) "wheat" 10 17.5 50 JNull
           {| dt_day := 738956; dt_us := 5 |}).
  - reflexivity.
  - reflexivity.
  - reflexivity.
  - vm_compute. discriminate.
Defined.

Lemma yield_monotone_in_rainfall_witness :
  exists a b,
    predict_core (rt := ascii_runtime) "rice" 25 130.5 (JStr "01-03-2024")
      {| dt_day := 738956; dt_us := 5 |} = ret a /\
    predict_core (rt := ascii_runtime) "rice" 25 400 (JStr "01-03-2024")
      {| dt_day := 738956; dt_us := 5 |} = ret b /\
    ((F2Q 400 <= F2Q (snd (spec_rain_range (crop_kind_of "rice"))))%Q ->
     py_le (yr_predicted_yield a) (yr_predicted_yield b) = true) /\
    ((F2Q (fst (spec_rain_range (crop_kind_of "rice"))) <= F2Q 130.5)%Q ->
     py_le (yr_predicted_yield b) (yr_predicted_yield a) = true).
Proof.
  apply (yield_monotone_in_rainfall (rt := ascii_runtime) "rice" 25 130.5 400 (JStr "01-03-2024")
           {| dt_day := 738956; dt_us := 5 |}).
  - reflexivity.
  - reflexivity.
  - reflexivity.
  - vm_compute. discriminate.
Defined.

(** ** More rain, higher soil figures *)

Local Open Scope Q_scope.

(** A rounding of a real between two opposite floats lies between them. *)
Lemma Rnd_abs (v : Q) (r : spec_float) (mg : positive) (eg : Z) :
  bounded prec emax mg eg = true -> Rnd v r ->
  - dy (Zpos mg) eg <= v -> v <= dy (Zpos mg) eg -> SFabs_le r (dy (Zpos mg) eg).
Proof.
  intros Hg H Hlo Hhi.
  pose proof (Rnd_compat _ _ _ (SF2Q_finite_sign false mg eg)
                (Rnd_exact (S754_finite false mg eg) Hg eq_refl)) as Rp.
  pose proof (Rnd_compat _ _ _ (SF2Q_finite_sign true mg eg)
                (Rnd_exact (S754_finite true mg eg) Hg eq_refl)) as Rn.
  cbv beta iota in Rp, Rn.
  pose proof (Rnd_mono _ _ _ _ H Rp Hhi) as U.
  pose proof (Rnd_mono _ _ _ _ Rn H Hlo) as L.
  pose proof (dy_pos (Zpos mg) eg ltac:(lia)) as Pg.
  destruct r as [s | s | | s m e]; cbn [SFleq SFabs_le] in *.
  - lra.
  - destruct s; contradiction.
  - contradiction.
  - rewrite !SF2Q_finite_sign in U, L. destruct s; lra.
Qed.

Lemma num_in_range_abs (a : num) :
  num_in_range a = true -> - max_float_Q <= num_Q a /\ num_Q a <= max_float_Q.
Proof.
  intros Ha. destruct a as [z | f]; cbn [num_in_range num_Q] in *.
  - apply Z.leb_le in Ha. unfold max_float_Q, max_mantissa.
    rewrite (dy_rescale 9007199254740991 0 971) by lia. rewrite dy_0, Z.sub_0_r.
    change (9007199254740991 * 2 ^ 971)%Z with max_float_int.
    rewrite <- inject_Z_opp, <- !Zle_Qle. lia.
  - apply SFabs_le_value.
    destruct (finite_float_cases f Ha) as [[s Hs] | H].
    + rewrite Hs. cbn [SFabs_le]. apply Qle_refl.
    + refine (SFabs_le_weaken _ _ _ _ H). Qle_compute.
Qed.

(** The quotient by an int constant is the rounding of the exact quotient. *)
Lemma num_div_Rnd (a : num) (d mc : positive) (ec : Z) :
  num_in_range a = true ->
  Prim2SF (Z2F (Zpos d)) = S754_finite false mc ec -> dy (Zpos mc) ec == inject_Z (Zpos d) ->
  Rnd (num_Q a / inject_Z (Zpos d)) (Prim2SF (num_div a (Zpos d))).
Proof.
  intros Ha Hc Hcv.
  assert (Pd : 0 < inject_Z (Zpos d)) by (apply inject_Z_pos; lia).
  assert (Z0 : forall s, Rnd (0 / inject_Z (Zpos d)) (S754_zero s)).
  { intros s. apply (Rnd_compat 0); [unfold Qdiv; ring|].
    apply (Rnd_exact (S754_zero s)); reflexivity. }
  unfold num_div. destruct a as [z | f]; cbn [num_in_range num_Q] in *.
  - rewrite Prim2SF_SF2Prim by apply int_quotient_valid.
    destruct z as [| p | p]; cbn [Z2SF].
    + cbn [SFdiv xorb]. apply Z0.
    + refine (Rnd_compat _ _ _ _ (SFdiv_Rnd false false p d 0 0)).
      rewrite !SF2Q_finite_sign, !dy_0. reflexivity.
    + refine (Rnd_compat _ _ _ _ (SFdiv_Rnd true false p d 0 0)).
      rewrite !SF2Q_finite_sign, !dy_0. change (Z.neg p) with (- Zpos p)%Z.
      rewrite inject_Z_opp. field. lra.
  - rewrite div_spec, Hc. unfold SF64div, F2Q. rewrite is_finite_spec in Ha.
    destruct (Prim2SF f) as [s | s | | s m e]; try discriminate.
    + cbn [SFdiv xorb SF2Q]. rewrite Bool.xorb_false_r. apply Z0.
    + refine (Rnd_compat _ _ _ _ (SFdiv_Rnd s false m mc e ec)).
      rewrite (SF2Q_finite_sign false), Hcv. reflexivity.
Qed.

(** The quotient by a constant of at least 2 is at most half the largest
    float. *)
Lemma num_div_abs (a : num) (d mc : positive) (ec : Z) :
  num_in_range a = true ->
  Prim2SF (Z2F (Zpos d)) = S754_finite false mc ec -> dy (Zpos mc) ec == inject_Z (Zpos d) ->
  (2 <= Zpos d)%Z ->
  SFabs_le (Prim2SF (num_div a (Zpos d))) (dy (Zpos max_mantissa) 970).
Proof.
  intros Ha Hc Hcv Hd.
  destruct (num_in_range_abs a Ha) as [Lo Hi].
  assert (Pd : 2 <= inject_Z (Zpos d)) by (change 2 with (inject_Z 2); rewrite <- Zle_Qle; lia).
  assert (Hm : max_float_Q == 2 * dy (Zpos max_mantissa) 970) by reflexivity.
  pose proof (dy_pos (Zpos max_mantissa) 970 ltac:(lia)) as Pm.
  apply (Rnd_abs (num_Q a / inject_Z (Zpos d)));
    [reflexivity | apply (num_div_Rnd a d mc ec Ha Hc Hcv) | |].
  - apply Qle_shift_div_l; [lra | nra].
  - apply Qle_shift_div_r; [lra | nra].
Qed.

Lemma num_div_order (a1 a2 : num) (d mc : positive) (ec : Z) :
  num_in_range a1 = true -> num_in_range a2 = true ->
  Prim2SF (Z2F (Zpos d)) = S754_finite false mc ec -> dy (Zpos mc) ec == inject_Z (Zpos d) ->
  (2 <= Zpos d)%Z ->
  num_Q a1 <= num_Q a2 ->
  F2Q (num_div a1 (Zpos d)) <= F2Q (num_div a2 (Zpos d)).
Proof.
  intros H1 H2 Hc Hcv Hd Hle.
  assert (Pd : 0 < inject_Z (Zpos d)) by (apply inject_Z_pos; lia).
  apply (Rnd_order (num_Q a1 / inject_Z (Zpos d)) (num_Q a2 / inject_Z (Zpos d)));
    [apply (num_div_Rnd _ d mc ec); assumption
    | apply (num_div_Rnd _ d mc ec); assumption
    | apply (SFabs_le_finite _ _ (num_div_abs a1 d mc ec H1 Hc Hcv Hd))
    | apply (SFabs_le_finite _ _ (num_div_abs a2 d mc ec H2 Hc Hcv Hd)) |].
  apply Qmult_le_compat_r; [exact Hle|]. apply Qlt_le_weak, Qinv_lt_0_compat, Pd.
Qed.

(** A small constant plus such a quotient, rounded to one decimal. *)
Lemma figure_abs (c q : float) (mc : positive) (ec : Z) :
  Prim2SF c = S754_finite false mc ec -> dy (Zpos mc) ec <= 8 ->
  SFabs_le (Prim2SF q) (dy (Zpos max_mantissa) 970) ->
  SFabs_le (Prim2SF (c + q)) max_float_Q /\
  SFabs_le (sf_round (Prim2SF (c + q)) 1) max_float_Q.
Proof.
  intros Hc Hc8 Hq.
  assert (A : SFabs_le (Prim2SF (c + q)) max_float_Q).
  { rewrite add_spec. unfold SF64add.
    pose proof (valid_Prim2SF c) as Vc. pose proof (valid_Prim2SF q) as Vq.
    pose proof (SFabs_le_finite _ _ Hq) as Fq. pose proof (SFabs_le_value _ _ Hq) as [Lq Uq].
    pose proof (dy_pos (Zpos mc) ec ltac:(lia)) as Pc.
    assert (Hm : max_float_Q == 2 * dy (Zpos max_mantissa) 970) by reflexivity.
    assert (H8 : 8 <= dy (Zpos max_mantissa) 970) by Qle_compute.
    apply (Rnd_abs (SF2Q (Prim2SF c) + SF2Q (Prim2SF q)));
      [reflexivity | apply SFadd_Rnd; try assumption; rewrite Hc; reflexivity | |];
      rewrite Hc, (SF2Q_finite_sign false); fold max_float_Q; lra. }
  split; [exact A|].
  apply (sf_round_abs _ 1 max_mantissa 971 (Zpos max_mantissa * 2 ^ 971 * 10));
    [lia | reflexivity | | exact A].
  rewrite (dy_rescale (Zpos max_mantissa) 0 971), dy_0 by lia.
  rewrite <- inject_Z_mult. reflexivity.
Qed.

Lemma figure_order (c q1 q2 : float) (mc : positive) (ec : Z) :
  Prim2SF c = S754_finite false mc ec -> dy (Zpos mc) ec <= 8 ->
  SFabs_le (Prim2SF q1) (dy (Zpos max_mantissa) 970) ->
  SFabs_le (Prim2SF q2) (dy (Zpos max_mantissa) 970) ->
  F2Q q1 <= F2Q q2 ->
  (SF2Prim (sf_round (Prim2SF (c + q1)) 1) <=? SF2Prim (sf_round (Prim2SF (c + q2)) 1))%float = true.
Proof.
  intros Hc Hc8 A1 A2 Hle.
  destruct (figure_abs c q1 mc ec Hc Hc8 A1) as [S1 R1].
  destruct (figure_abs c q2 mc ec Hc Hc8 A2) as [S2 R2].
  pose proof (SFabs_le_finite _ _ S1) as FS1. pose proof (SFabs_le_finite _ _ S2) as FS2.
  pose proof (SFabs_le_finite _ _ R1) as FR1. pose proof (SFabs_le_finite _ _ R2) as FR2.
  assert (V : forall x, valid_binary (sf_round (Prim2SF x) 1) = true)
    by (intros x; apply sf_round_valid; [lia | apply valid_Prim2SF]).
  rewrite leb_spec, !Prim2SF_SF2Prim by apply V.
  apply SFleb_Q; [apply V | apply V | exact FR1 | exact FR2 |].
  apply (Rnd_order (dec_round (Prim2SF (c + q1)) 1) (dec_round (Prim2SF (c + q2)) 1));
    try assumption; try (apply sf_round_Rnd; [lia | assumption]).
  apply dec_round_mono; [lia | assumption | assumption |].
  pose proof (valid_Prim2SF c) as Vc.
  assert (Fc : sf_finite (Prim2SF c) = true) by (rewrite Hc; reflexivity).
  rewrite !add_spec in *. unfold SF64add in *.
  apply (Rnd_order (SF2Q (Prim2SF c) + SF2Q (Prim2SF q1)) (SF2Q (Prim2SF c) + SF2Q (Prim2SF q2)));
    try assumption;
    try (apply SFadd_Rnd; try assumption; try apply valid_Prim2SF;
         eapply SFabs_le_finite; eassumption).
  unfold F2Q in Hle. lra.
Qed.

(** Truncation toward zero is the floor of the magnitude. *)
Lemma shiftl_floor (m : positive) (e : Z) :
  inject_Z (Z.shiftl (Zpos m) e) <= dy (Zpos m) e.
Proof.
  destruct (Z_le_gt_dec 0 e) as [He | He].
  - rewrite Z.shiftl_mul_pow2 by lia.
    rewrite (dy_rescale (Zpos m) 0 e), dy_0, Z.sub_0_r by lia. apply Qle_refl.
  - assert (Hs : Z.shiftl (Zpos m) e = (Zpos m / 2 ^ (- e))%Z).
    { rewrite <- Z.shiftr_div_pow2, <- Z.shiftl_opp_r by lia. f_equal. lia. }
    rewrite Hs, <- dy_0, (dy_rescale _ e 0) by lia. apply dy_le.
    replace (0 - e)%Z with (- e)%Z by lia.
    assert (P : (0 < 2 ^ (- e))%Z) by (apply Z.pow_pos_nonneg; lia).
    pose proof (Z.mul_div_le (Zpos m) (2 ^ (- e)) P). lia.
Qed.

Lemma shiftl_lower (m : positive) (e a : Z) :
  inject_Z a <= dy (Zpos m) e -> (a <= Z.shiftl (Zpos m) e)%Z.
Proof.
  intros Ha. rewrite <- dy_0 in Ha.
  destruct (Z_le_gt_dec 0 e) as [He | He].
  - rewrite Z.shiftl_mul_pow2 by lia.
    rewrite (dy_rescale (Zpos m) 0 e) in Ha by lia.
    rewrite Z.sub_0_r in Ha. apply dy_le in Ha. exact Ha.
  - assert (Hs : Z.shiftl (Zpos m) e = (Zpos m / 2 ^ (- e))%Z).
    { rewrite <- Z.shiftr_div_pow2, <- Z.shiftl_opp_r by lia. f_equal. lia. }
    rewrite Hs. rewrite (dy_rescale a e 0) in Ha by lia.
    rewrite Z.sub_0_l in Ha. apply dy_le in Ha.
    assert (0 < 2 ^ (- e))%Z by (apply Z.pow_pos_nonneg; lia).
    apply Z.div_le_lower_bound; lia.
Qed.

Lemma float_trunc_mono (a b : float) :
  is_finite a = true -> is_finite b = true -> F2Q a <= F2Q b ->
  (float_trunc a <= float_trunc b)%Z.
Proof.
  rewrite !is_finite_spec. unfold F2Q, float_trunc.
  destruct (Prim2SF a) as [sa | sa | | sa ma ea]; try discriminate;
    (destruct (Prim2SF b) as [sb | sb | | sb mb eb]; try discriminate); intros _ _ Hle.
  - destruct sb; [pose proof (SF2Q_sign_neg mb eb); cbn [SF2Q] in *; lra|].
    cbn [cond_Zopp]. apply Z.shiftl_nonneg. lia.
  - destruct sa; [|pose proof (SF2Q_sign_pos ma ea); cbn [SF2Q] in *; lra].
    cbn [cond_Zopp]. pose proof (Z.shiftl_nonneg (Zpos ma) ea). lia.
  - rewrite (SF2Q_finite_sign sa ma ea), (SF2Q_finite_sign sb mb eb) in Hle.
    pose proof (dy_pos (Zpos ma) ea ltac:(lia)) as Pa.
    pose proof (dy_pos (Zpos mb) eb ltac:(lia)) as Pb.
    pose proof (shiftl_floor ma ea) as Fa. pose proof (shiftl_floor mb eb) as Fb.
    destruct sa, sb; cbn [cond_Zopp].
    + assert (Z.shiftl (Zpos mb) eb <= Z.shiftl (Zpos ma) ea)%Z; [|lia].
      apply shiftl_lower. lra.
    + pose proof (Z.shiftl_nonneg (Zpos ma) ea). pose proof (Z.shiftl_nonneg (Zpos mb) eb). lia.
    + lra.
    + apply shiftl_lower. lra.
Qed.

Local Open Scope Z_scope.

(** X16. More rain never lowers the pH and the nitrogen, more humidity
    never lowers the carbon. For two payloads that carry a temperature, a
    humidity and a rainfall the derivation succeeds on both; if the rainfall
    of the first is at most that of the second, so are its pH and its
    nitrogen, and if its humidity is at most that of the second, so is its
    carbon. The float division, the addition and the rounding to one decimal
    never reverse the order. *)
Theorem soil_figures_monotone (kvs1 kvs2 : list (string * json)) (r1 h1 r2 h2 : num) :
  payload_carries kvs1 r1 h1 -> payload_carries kvs2 r2 h2 ->
  exists (ph1 c1 : float) (n1 : Z) (w1 i1 : json) (ph2 c2 : float) (n2 : Z) (w2 i2 : json),
    derive (JObj kvs1) =
      ret (JObj [("weather"%string, w1);
                 ("soil"%string,
                  JObj [("ph"%string, JFloat ph1); ("carbon"%string, JFloat c1);
                        ("nitrogen"%string, JInt n1)]);
                 ("irrigation"%string, i1)]) /\
    derive (JObj kvs2) =
      ret (JObj [("weather"%string, w2);
                 ("soil"%string,
                  JObj [("ph"%string, JFloat ph2); ("carbon"%string, JFloat c2);
                        ("nitrogen"%string, JInt n2)]);
                 ("irrigation"%string, i2)]) /\
    (py_le r1 r2 = true -> (ph1 <=? ph2)%float = true /\ n1 <= n2) /\
    (py_le h1 h2 = true -> (c1 <=? c2)%float = true).
Proof.
  intros (main1 & rv1 & hv1 & tv1 & t1 & M1 & Hv1 & Hh1 & Rh1 & Tv1 & Tt1 & Rv1 & Hr1 & Rr1)
         (main2 & rv2 & hv2 & tv2 & t2 & M2 & Hv2 & Hh2 & Rh2 & Tv2 & Tt2 & Rv2 & Hr2 & Rr2).
  rewrite (derive_well_formed kvs1 main1 rv1 hv1 tv1 r1 h1 t1 M1 Hv1 Hh1 Rh1 Tv1 Tt1 Rv1 Hr1 Rr1).
  rewrite (derive_well_formed kvs2 main2 rv2 hv2 tv2 r2 h2 t2 M2 Hv2 Hh2 Rh2 Tv2 Tt2 Rv2 Hr2 Rr2).
  unfold spec_insights.
  destruct (spec_tier r1) as [[st1 eff1] idx1]. destruct (spec_tier r2) as [[st2 eff2] idx2].
  unfold spec_ph, spec_carbon, spec_nitrogen_trunc, py_round. cbn [num_json].
  do 10 eexists. split; [reflexivity|]. split; [reflexivity|].
  assert (D50 : forall a, num_in_range a = true ->
                SFabs_le (Prim2SF (num_div a 50)) (dy (Zpos max_mantissa) 970))
    by (intros a Ha; apply (num_div_abs a 50 7036874417766400 (-47) Ha eq_refl);
        [reflexivity | lia]).
  assert (D100 : forall a, num_in_range a = true ->
                 SFabs_le (Prim2SF (num_div a 100)) (dy (Zpos max_mantissa) 970))
    by (intros a Ha; apply (num_div_abs a 100 7036874417766400 (-46) Ha eq_refl);
        [reflexivity | lia]).
  assert (D2 : forall a, num_in_range a = true ->
               SFabs_le (Prim2SF (num_div a 2)) (dy (Zpos max_mantissa) 970))
    by (intros a Ha; apply (num_div_abs a 2 4503599627370496 (-51) Ha eq_refl);
        [reflexivity | lia]).
  split.
  - intros Hle. pose proof (py_le_Q r1 r2 Rr1 Rr2 Hle) as Q.
    split.
    + apply (figure_order 6 _ _ 6755399441055744 (-50) eq_refl ltac:(Qle_compute)
               (D50 r1 Rr1) (D50 r2 Rr2)).
      apply (num_div_order r1 r2 50 7036874417766400 (-47) Rr1 Rr2 eq_refl);
        [reflexivity | lia | exact Q].
    + assert (float_trunc (num_div r1 2) <= float_trunc (num_div r2 2)); [|lia].
      apply float_trunc_mono;
        [rewrite is_finite_spec; apply (SFabs_le_finite _ _ (D2 r1 Rr1))
        | rewrite is_finite_spec; apply (SFabs_le_finite _ _ (D2 r2 Rr2)) |].
      apply (num_div_order r1 r2 2 4503599627370496 (-51) Rr1 Rr2 eq_refl);
        [reflexivity | lia | exact Q].
  - intros Hle. pose proof (py_le_Q h1 h2 Rh1 Rh2 Hle) as Q.
    apply (figure_order 1 _ _ 4503599627370496 (-52) eq_refl ltac:(Qle_compute)
             (D100 h1 Rh1) (D100 h2 Rh2)).
    apply (num_div_order h1 h2 100 7036874417766400 (-46) Rh1 Rh2 eq_refl);
      [reflexivity | lia | exact Q].
Qed.

Lemma soil_figures_monotone_witness :
  exists (ph1 c1 : float) (n1 : Z) (w1 i1 : json) (ph2 c2 : float) (n2 : Z) (w2 i2 : json),
    derive dry_payload =
      ret (JObj [("weather"%string, w1);
                 ("soil"%string,
                  JObj [("ph"%string, JFloat ph1); ("carbon"%string, JFloat c1);
                        ("nitrogen"%string, JInt n1)]);
                 ("irrigation"%string, i1)]) /\
    derive example_payload =
      ret (JObj [("weather"%string, w2);
                 ("soil"%string,
                  JObj [("ph"%string, JFloat ph2); ("carbon"%string, JFloat c2);
                        ("nitrogen"%string, JInt n2)]);
                 ("irrigation"%string, i2)]) /\
    (py_le (NFloat 12.5) (NInt 40) = true -> (ph1 <=? ph2)%float = true /\ n1 <= n2) /\
    (py_le (NInt 35) (NInt 60) = true -> (c1 <=? c2)%float = true).
Proof.
  apply (soil_figures_monotone
           [("main"%string, JObj [("temp"%string, JFloat 31.5); ("humidity"%string, JInt 35)]);
            ("rain"%string, JObj [("1h"%string, JFloat 12.5)])]
           [("main"%string, JObj [("temp"%string, JInt 20); ("humidity"%string, JInt 60)]);
            ("rain"%string, JObj [("1h"%string, JInt 40)])]
           (NFloat 12.5) (NInt 35) (NInt 40) (NInt 60)).
  - exists [("temp"%string, JFloat 31.5); ("humidity"%string, JInt 35)],
      (JFloat 12.5), (JInt 35), (JFloat 31.5), (NFloat 31.5).
    repeat split; reflexivity.
  - exists [("temp"%string, JInt 20); ("humidity"%string, JInt 60)],
      (JInt 40), (JInt 60), (JInt 20), (NInt 20).
    repeat split; reflexivity.
Defined.
